(** * Event tracing sinks of go-libp2p-pubsub ([tracer.go])

  A shallow embedding of the three trace sinks ([JSONTracer], [PBTracer],
  [RemoteTracer]) and of the [basicTracer] they share.

  - Go slices are modelled with their backing arrays: a heap of arrays,
    and slice headers (pointer, length) into it, so that the buffer swap
    [t.buf = buf[:0]; buf = tmp] really hands the consumer's old array to
    the producers.
  - The wake channel [ch] (capacity 1, element [struct{}]) is a counter
    and a closed flag.
  - Goroutines are interleaved at the granularity of the critical
    sections of [mx] and of the channel operations: an execution is a
    list of atomic actions.
  - The file, the network host and the stream are environment oracles.
    The file has its content, the offset of the handle and its flags;
    the encoder made before a file loop carries the error it keeps. *)

From stdpp Require Import base list.
From Equations Require Import Equations.
From Stdlib Require Import ZArith Lia.
From Stdlib.Strings Require Import Byte.

Set Default Proof Using "Type".

(** * Part I: the model *)

(** ** Outcomes of a call: normal return, or a run-time panic. *)

Inductive outcome (A : Type) : Type :=
| Returned (a : A)
| Panicked (a : A).
Arguments Returned {A} a.
Arguments Panicked {A} a.

Definition outcome_state {A} (o : outcome A) : A :=
match o with Returned a | Panicked a => a end.

Definition returned {A} (o : outcome A) : bool :=
match o with Returned _ => true | Panicked _ => false end.

(** ** The wake channel: [make(chan struct{}, 1)] *)

Module Chan.

Record t := mk { len : nat; closed : bool }.

Definition cap : nat := 1.

Definition make : t := mk 0 false.

Inductive res :=
| Proceed (c : t)
| WouldBlock
| Panic.

(** [ch <- struct{}{}] as a blocking send. *)
Definition send (c : t) : res :=
  if closed c then Panic
  else if len c <? cap then Proceed (mk (S (len c)) (closed c))
  else WouldBlock.

(** [select { case ch <- struct{}{}: default: }] *)
Definition select_send_default (c : t) : res :=
  match send c with
  | WouldBlock => Proceed c
  | r => r
  end.

(** [_, ok := <-ch]; [None] when the receive blocks. *)
Definition recv (c : t) : option (t * bool) :=
  match len c with
  | S n => Some (mk n (closed c), true)
  | O => if closed c then Some (c, false) else None
  end.

(** [close(ch)] *)
Definition close (c : t) : res :=
  if closed c then Panic else Proceed (mk (len c) true).

End Chan.

(** ** Slices over a heap of backing arrays *)

Record slice := Slice { s_ptr : option nat; s_len : nat }.

(** The nil slice: no backing array, length 0, capacity 0. *)
Definition nil_slice : slice := Slice None 0.

(** [s[:0]]: same array, length 0 (and [nil[:0]] is nil). *)
Definition reslice0 (s : slice) : slice := Slice (s_ptr s) 0.

Definition disjoint (s1 s2 : slice) : Prop :=
forall a, s_ptr s1 = Some a -> s_ptr s2 <> Some a.

(** What the Go runtime fixes for an element type: its zero value, and the
  capacity [append] asks for when it must reallocate an array of a given
  capacity. *)
Class Runtime (A : Type) := { zero : A; grow : nat -> nat }.

Section Slices.
Context {A : Type} `{!Runtime A}.

Abbreviation heap := (list (list A)) (only parsing).

Definition arr_of (h : heap) (a : nat) : list A := default [] (h !! a).

(** the elements [s[0], ..., s[len(s)-1]] *)
Definition view (h : heap) (s : slice) : list A :=
  match s_ptr s with Some a => take (s_len s) (arr_of h a) | None => [] end.

Definition wf_slice (h : heap) (s : slice) : Prop :=
  match s_ptr s with
  | Some a => a < length h /\ s_len s <= length (arr_of h a)
  | None => s_len s = 0
  end.

(** [append] never shrinks: the new array holds at least one more
    element, whatever the growth policy answers. *)
Definition new_cap (old : nat) : nat := Nat.max (S old) (grow old).

Definition alloc (h : heap) (elems : list A) (oldcap : nat) (e : A)
  : heap * slice :=
  let arr := elems ++ e :: replicate (new_cap oldcap - S (length elems)) zero in
  (h ++ [arr], Slice (Some (length h)) (S (length elems))).

(** [append(s, e)] *)
Definition go_append (h : heap) (s : slice) (e : A) : heap * slice :=
  match s_ptr s with
  | Some a =>
      let arr := arr_of h a in
      if decide (s_len s < length arr)
      then (<[a := <[s_len s := e]> arr]> h, Slice (Some a) (S (s_len s)))
      else alloc h (take (s_len s) arr) (length arr) e
  | None => alloc h [] 0 e
  end.

(** [s[i] = x] *)
Definition store (h : heap) (s : slice) (i : nat) (x : A) : heap :=
  match s_ptr s with
  | Some a => <[a := <[i := x]> (arr_of h a)]> h
  | None => h
  end.

(** [s[i]] *)
Definition load (h : heap) (s : slice) (i : nat) : A :=
  default zero (view h s !! i).

(** [for i := range s { s[i] = x }] *)
Fixpoint fill (h : heap) (s : slice) (n : nat) (x : A) : heap :=
  match n with
  | O => h
  | S k => store (fill h s k x) s k x
  end.

End Slices.

(** ** Errors that reach [log.Errorf] or a caller *)

Inductive error :=
| ErrMarshal      (* the encoder could not serialise the value *)
| ErrClosed       (* write or close on a closed file *)
| ErrIO           (* the operating system or the network failed the call *)
| ErrCanceled     (* [ctx.Err()] of a cancelled context *)
| ErrHost.        (* [host.Connect] or [host.NewStream] failed *)

(** ** The [io.WriteCloser] of the file sinks

  An [os.File] as [os.OpenFile] returns it: the content of the file, the
  offset of the handle (0 when the file is opened), whether the file was
  opened with [O_APPEND], whether it was closed, and the failures the
  operating system will inject into the coming writes ([true]: the next
  write fails and writes nothing; for a handle that is not open for
  writing, every write of the run fails). *)

Record file := File {
  f_data : list byte;
  f_pos : nat;
  f_append : bool;
  f_closed : bool;
  f_faults : list bool
}.

(** [bs] written at the offset [pos] of [data]: over the bytes that are
    there, and past the end when they do not suffice (a gap reads as
    zeros). *)
Definition write_at (pos : nat) (bs data : list byte) : list byte :=
  take pos data ++ replicate (pos - length data) x00 ++ bs
  ++ drop (pos + length bs) data.

(** a write that the operating system takes: at the end of the file with
    [O_APPEND], at the offset of the handle otherwise *)
Definition file_put (bs : list byte) (f : file) (faults : list bool) : file :=
  if f_append f
  then File (f_data f ++ bs) (length (f_data f) + length bs) true false faults
  else File (write_at (f_pos f) bs (f_data f)) (f_pos f + length bs) false false faults.

Definition file_Write (bs : list byte) (f : file) : file * option error :=
if f_closed f then (f, Some ErrClosed)
else match f_faults f with
     | true :: r => (File (f_data f) (f_pos f) (f_append f) false r, Some ErrIO)
     | false :: r => (file_put bs f r, None)
     | [] => (file_put bs f [], None)
     end.

Definition file_Close (f : file) : file * option error :=
if f_closed f then (f, Some ErrClosed)
else (File (f_data f) (f_pos f) (f_append f) true (f_faults f), None).

(** [os.OpenFile(file, O_CREATE|O_WRONLY|O_TRUNC, 0644)] when it succeeds *)
Definition truncated_file (faults : list bool) : file := File [] 0 false false faults.

Definition newline : byte := x0a.

(** Reading a file of newline-terminated records back. *)
Fixpoint split_records (cur : list byte) (bs : list byte) : option (list (list byte)) :=
match bs with
| [] => match cur with [] => Some [] | _ :: _ => None end
| b :: r =>
    if Byte.eqb b newline
    then match split_records [] r with
         | Some recs => Some (rev cur :: recs)
         | None => None
         end
    else split_records (b :: cur) r
end.

Fixpoint decode_all {E} (unmarshal : list byte -> option E) (recs : list (list byte))
: option (list E) :=
match recs with
| [] => Some []
| r :: rest =>
    match unmarshal r, decode_all unmarshal rest with
    | Some e, Some es => Some (e :: es)
    | _, _ => None
    end
end.

Definition ndjson_decode {E} (unmarshal : list byte -> option E) (bs : list byte)
: option (list E) :=
match split_records [] bs with
| Some recs => decode_all unmarshal recs
| None => None
end.

(** ** [basicTracer] and the file sinks *)

Section Tracer.
(** [zero] is the nil [*pb.TraceEvent]. *)
Context {Event : Type} `{!Runtime Event}.

(** [basicTracer]: [mx] is the atomicity of the actions below. *)
Record basicTracer := BasicTracer { ch : Chan.t; buf : slice }.

(** The memory the goroutines of one sink share: the backing arrays, the
    tracer, and the write loop's local [buf]. *)
Record mem := Mem { heap : list (list Event); tracer : basicTracer; lbuf : slice }.

Definition set_ch (c : Chan.t) (m : mem) : mem :=
  Mem (heap m) (BasicTracer c (buf (tracer m))) (lbuf m).

(** [make(chan struct{}, 1)], [buf] nil, local [var buf] nil *)
Definition new_mem : mem := Mem [] (BasicTracer Chan.make nil_slice) nil_slice.

(** [Trace], lines 30-32: [t.buf = append(t.buf, evt)] under [mx] *)
Definition Trace_append (evt : Event) (m : mem) : mem :=
  let '(h, b) := go_append (heap m) (buf (tracer m)) evt in
  Mem h (BasicTracer (ch (tracer m)) b) (lbuf m).

(** [Trace], lines 34-37: the non-blocking send *)
Definition Trace_signal (m : mem) : outcome mem :=
  match Chan.select_send_default (ch (tracer m)) with
  | Chan.Proceed c => Returned (set_ch c m)
  | _ => Panicked m
  end.

Definition Trace (evt : Event) (m : mem) : outcome mem :=
  Trace_signal (Trace_append evt m).

(** [Close]: [close(t.ch)] *)
Definition Close (m : mem) : outcome mem :=
  match Chan.close (ch (tracer m)) with
  | Chan.Proceed c => Returned (set_ch c m)
  | _ => Panicked m
  end.

(** The swap of the write loops (lines 74-78, 126-130, 191-195):
    [tmp := t.buf; t.buf = buf[:0]; buf = tmp] under [mx]. *)
Definition swap (m : mem) : mem :=
  let tmp := buf (tracer m) in
  Mem (heap m) (BasicTracer (ch (tracer m)) (reslice0 (lbuf m))) tmp.

(** [buf[i] = nil] in the write loop *)
Definition clear (i : nat) (m : mem) : mem :=
  Mem (store (heap m) (lbuf m) i zero) (tracer m) (lbuf m).

(** [for i := range buf { buf[i] = nil }] *)
Definition clear_all (m : mem) : mem :=
  Mem (fill (heap m) (lbuf m) (s_len (lbuf m)) zero) (tracer m) (lbuf m).

(** what the producers have enqueued and the loop has not taken yet *)
Definition pending (m : mem) : list Event := view (heap m) (buf (tracer m)).

(** what the write loop holds in its local [buf] *)
Definition batch (m : mem) : list Event := view (heap m) (lbuf m).

(** *** Encoders of the file sinks

    [frame evt] is the record the encoder writes for [evt] in one
    [Write], or [None] when the value cannot be serialised. [kept] is the
    error the encoder keeps from one call to the next. A [sticky] encoder
    ([json.Encoder]) keeps the first error of a [Write] and from then on
    returns it at once, without serialising or writing; an error of the
    serialisation is returned and not kept. The delimited writer keeps
    nothing: every call serialises and writes. *)
Definition encode_with (sticky : bool) (frame : Event -> option (list byte))
           (evt : Event) (kept : option error) (f : file)
  : file * option error * option error :=
  match (if sticky then kept else None) with
  | Some e => (f, kept, Some e)
  | None =>
      match frame evt with
      | None => (f, kept, Some ErrMarshal)
      | Some bs =>
          let '(f', r) := file_Write bs f in
          (f', if sticky then r else kept, r)
      end
  end.

(** [json.NewEncoder(t.w).Encode(evt)]: the JSON text and a newline *)
Definition json_frame (json_marshal : Event -> option (list byte)) (evt : Event)
  : option (list byte) :=
  match json_marshal evt with
  | Some bs => Some (bs ++ [newline])
  | None => None
  end.

(** *** The write loop of a file sink, one step at a time *)

Inductive fpc :=
| FRecv                          (* at [_, ok := <-t.ch] *)
| FSwap (ok : bool)              (* at [t.mx.Lock()] *)
| FRange (ok : bool) (i n : nat) (* in [for i, evt := range buf], [n = len(buf)] *)
| FDone.                         (* returned *)

Record fsys := FSys {
  fmem : mem;
  pc : fpc;
  w : file;                              (* [t.w] *)
  errlog : list error;                   (* the calls of [log.Errorf] *)
  batches : list (list Event);           (* history: [buf] after each swap *)
  encoded : list (Event * option error); (* history: the encoder's calls *)
  kept : option error                    (* the error kept by the encoder made
                                            before the loop ([enc], [w]) *)
}.

Definition log_err (r : option error) (l : list error) : list error :=
  match r with Some e => l ++ [e] | None => l end.

Definition doWrite_step
  (enc : Event -> option error -> file -> file * option error * option error)
  (σ : fsys) : option fsys :=
  match pc σ with
  | FRecv =>
      match Chan.recv (ch (tracer (fmem σ))) with
      | Some (c, ok) =>
          Some (FSys (set_ch c (fmem σ)) (FSwap ok) (w σ) (errlog σ)
                     (batches σ) (encoded σ) (kept σ))
      | None => None
      end
  | FSwap ok =>
      let m := swap (fmem σ) in
      Some (FSys m (FRange ok 0 (s_len (lbuf m))) (w σ) (errlog σ)
                 (batches σ ++ [batch m]) (encoded σ) (kept σ))
  | FRange ok i n =>
      if decide (i < n) then
        let evt := load (heap (fmem σ)) (lbuf (fmem σ)) i in
        let '(w', k', err) := enc evt (kept σ) (w σ) in
        Some (FSys (clear i (fmem σ)) (FRange ok (S i) n) w' (log_err err (errlog σ))
                   (batches σ) (encoded σ ++ [(evt, err)]) k')
      else if ok then
        Some (FSys (fmem σ) FRecv (w σ) (errlog σ) (batches σ) (encoded σ) (kept σ))
      else
        Some (FSys (fmem σ) FDone (file_Close (w σ)).1 (errlog σ)
                   (batches σ) (encoded σ) (kept σ))
  | FDone => None
  end.

(** [JSONTracer.doWrite] and [PBTracer.doWrite] differ in the encoder only:
    [enc.Encode(evt)] of the one [json.NewEncoder(t.w)] made before the
    loop, which is sticky, and [w.WriteMsg(evt)] of
    [ggio.NewDelimitedWriter(t.w)], which is not, where [pb_frame] is the
    varint length prefix followed by the protobuf bytes. *)
Definition json_Encode (json_marshal : Event -> option (list byte)) :=
  encode_with true (json_frame json_marshal).

Definition pb_WriteMsg (pb_frame : Event -> option (list byte)) :=
  encode_with false pb_frame.

Definition JSONTracer_doWrite (json_marshal : Event -> option (list byte)) :=
  doWrite_step (json_Encode json_marshal).

Definition PBTracer_doWrite (pb_frame : Event -> option (list byte)) :=
  doWrite_step (pb_WriteMsg pb_frame).

(** [OpenJSONTracer] / [OpenPBTracer] once [os.OpenFile] has returned [f]:
    the tracer, and the goroutine at the top of its loop. *)
Definition open_sink (f : file) : fsys := FSys new_mem FRecv f [] [] [] None.

(** [OpenJSONTracer]: [os.OpenFile] fails, or gives the file [f]. *)
Definition OpenJSONTracer (opened : error + file) : option fsys * option error :=
  match opened with
  | inl e => (None, Some e)
  | inr f => (Some (open_sink f), None)
  end.

(** [OpenPBTracer] *)
Definition OpenPBTracer (opened : error + file) : option fsys * option error :=
  match opened with
  | inl e => (None, Some e)
  | inr f => (Some (open_sink f), None)
  end.

(** [NewJSONTracer], [NewPBTracer]: the flags create or truncate the file. *)
Definition NewJSONTracer (opened : error + list bool) : option fsys * option error :=
  OpenJSONTracer (match opened with inl e => inl e | inr faults => inr (truncated_file faults) end).

Definition NewPBTracer (opened : error + list bool) : option fsys * option error :=
  OpenPBTracer (match opened with inl e => inl e | inr faults => inr (truncated_file faults) end).

(** *** Executions: interleavings of producers, closer and write loop *)

Inductive action :=
| ATraceAppend (evt : Event)  (* a producer runs lines 30-32 of [Trace] *)
| ATraceSignal                (* a producer runs lines 34-37 of [Trace] *)
| AClose                      (* [Close()] *)
| AWrite.                     (* the write loop takes a step *)

Definition is_producer (a : action) : bool :=
  match a with AWrite => false | _ => true end.

Definition appended (acts : list action) : list Event :=
  omap (fun a => match a with ATraceAppend e => Some e | _ => None end) acts.

(** the actions of the calls [Trace(e1); ...; Trace(en)] of one producer *)
Definition Trace_calls (evs : list Event) : list action :=
  flat_map (fun e => [ATraceAppend e; ATraceSignal]) evs.

Definition lift (o : outcome mem) : option mem :=
  match o with Returned m => Some m | Panicked _ => None end.

(** One action on the shared memory; [None] when it panics. *)
Definition mem_step (a : action) (m : mem) : option mem :=
  match a with
  | ATraceAppend e => Some (Trace_append e m)
  | ATraceSignal => lift (Trace_signal m)
  | AClose => lift (Close m)
  | AWrite => Some m
  end.

Definition fstep enc (a : action) (σ : fsys) : option fsys :=
  match a with
  | AWrite => doWrite_step enc σ
  | _ =>
      match mem_step a (fmem σ) with
      | Some m => Some (FSys m (pc σ) (w σ) (errlog σ) (batches σ) (encoded σ) (kept σ))
      | None => None
      end
  end.

(** [exec]: [None] when an action is not enabled (a blocked receive, a
    returned loop) or panics. *)
Fixpoint exec enc (acts : list action) (σ : fsys) : option fsys :=
  match acts with
  | [] => Some σ
  | a :: rest =>
      match fstep enc a σ with
      | Some σ' => exec enc rest σ'
      | None => None
      end
  end.

(** *** Invariants of an execution *)

(** Both slices point into the heap, never into the same array, and the
    channel holds at most [cap] wakes. *)
Definition mem_ok (m : mem) : Prop :=
  wf_slice (heap m) (buf (tracer m))
  /\ wf_slice (heap m) (lbuf m)
  /\ disjoint (buf (tracer m)) (lbuf m)
  /\ Chan.len (ch (tracer m)) <= Chan.cap.

Definition chan_of (σ : fsys) : Chan.t := ch (tracer (fmem σ)).

(** the events of the current batch that the encoder has not seen yet *)
Definition unencoded (σ : fsys) : list Event :=
  match pc σ with
  | FRange _ i _ => drop i (batch (fmem σ))
  | _ => []
  end.

(** the last [ok] the loop has received ([true] before any receive) *)
Definition pc_ok (p : fpc) : bool :=
  match p with
  | FRecv => true
  | FSwap ok | FRange ok _ _ => ok
  | FDone => false
  end.

Record finv (evs : list Event) (σ : fsys) : Prop := FInv {
  finv_mem : mem_ok (fmem σ);
  finv_batches : concat (batches σ) ++ pending (fmem σ) = evs;
  finv_encoded : (encoded σ).*1 ++ unencoded σ ++ pending (fmem σ) = evs;
  finv_range :
    match pc σ with
    | FRange _ i n => n = s_len (lbuf (fmem σ)) /\ i <= n
    | _ => True
    end;
  finv_closed : pc_ok (pc σ) = false -> Chan.closed (ch (tracer (fmem σ))) = true
}.

(** *** Termination measure of the write loop

    A bound on the steps the loop can still take before it blocks or
    returns, if the producers do nothing more: three per pending wake
    (receive, swap, leaving the batch), three for the closed channel while
    the loop has not seen it, one per event. *)
Definition phase (p : fpc) : nat :=
  match p with
  | FRecv => 0
  | FSwap _ => 2
  | FRange _ i n => S (n - i)
  | FDone => 0
  end.

Definition potential (σ : fsys) : nat :=
  let c := ch (tracer (fmem σ)) in
  3 * Chan.len c
  + (if Chan.closed c && pc_ok (pc σ) then 3 else 0)
  + s_len (buf (tracer (fmem σ)))
  + phase (pc σ).

(** by how much an action of a producer can raise the bound *)
Definition weight (a : action) : nat :=
  match a with
  | ATraceAppend _ => 1
  | ATraceSignal => 3
  | AClose => 3
  | AWrite => 0
  end.

Definition total_weight (acts : list action) : nat :=
  foldr (fun a n => weight a + n) 0 acts.

Definition producer_actions (acts : list action) : list action :=
  List.filter is_producer acts.

Definition loop_steps (acts : list action) : nat :=
  length (List.filter (fun a => negb (is_producer a)) acts).

(** *** A run without failures

    The file was created or truncated and takes every write, every
    event can be serialised: then the file holds the frames of the encoded
    events, the encoder keeps no error and nothing is logged. *)
Definition frame_bytes (frame : Event -> option (list byte)) (e : Event) : list byte :=
  default [] (frame e).

Record happy (frame : Event -> option (list byte)) (σ : fsys) : Prop := Happy {
  happy_faults : f_faults (w σ) = [];
  happy_open : pc σ <> FDone -> f_closed (w σ) = false;
  happy_closed : pc σ = FDone -> f_closed (w σ) = true;
  happy_log : errlog σ = [];
  happy_kept : kept σ = None;
  happy_pos : f_append (w σ) = false /\ f_pos (w σ) = length (f_data (w σ));
  happy_data : f_data (w σ) = concat (map (frame_bytes frame) ((encoded σ).*1))
}.

(** Once the loop has seen the channel closed and swapped, nothing is
    pending (as long as no producer appends after [Close]). *)
Definition sealed (σ : fsys) : Prop :=
  match pc σ with
  | FRange false _ _ | FDone => pending (fmem σ) = []
  | _ => True
  end.

(** [unmarshal] reads back what [marshal] writes for [e], on one line. *)
Definition json_codec_ok (marshal : Event -> option (list byte))
           (unmarshal : list byte -> option Event) (e : Event) : Prop :=
  exists bs, marshal e = Some bs /\ (newline ∉ bs) /\ unmarshal bs = Some e.

End Tracer.

Arguments basicTracer : clear implicits.
Arguments mem : clear implicits.
Arguments fsys : clear implicits.
Arguments action : clear implicits.

(** ** The connection manager: [connect] and [openStream]

    Time is a clock in nanoseconds. The parent context [t.ctx] is the
    instant at which it is cancelled, if ever. The host is an oracle: the
    answers it will give to the coming calls of [host.Connect] and
    [host.NewStream], each with the time the call takes. *)

Definition minute : Z := 60000000000.
Definition second : Z := 1000000000.

Record context := Ctx { cancel_at : option Z }.

(** [ctx.Err() != nil] at time [t] *)
Definition cancelled (ctx : context) (t : Z) : bool :=
  match cancel_at ctx with
  | Some c => (c <=? t)%Z
  | None => false
  end.

(** [select { case <-time.After(time.Minute): ...; case <-t.ctx.Done(): ... }]
    entered at time [t]: [inl t'] when the timer fires (at [t']), [inr t']
    when the context is done first (at [t']). When both are ready at the
    same instant Go picks either: [tie] says whether the timer wins. *)
Definition backoff (ctx : context) (tie : bool) (t : Z) : Z + Z :=
  match cancel_at ctx with
  | None => inl (t + minute)%Z
  | Some c =>
      if (c <? t + minute)%Z then inr (Z.max c t)
      else if (c =? t + minute)%Z then (if tie then inl (t + minute)%Z else inr c)
      else inl (t + minute)%Z
  end.

Record reply := Reply { rp_ok : bool; rp_dur : Z; rp_tie : bool }.

Inductive call :=
| CConnect (t : Z)     (* [host.Connect] called at time [t] *)
| CNewStream (t : Z).  (* [host.NewStream] called at time [t] *)

Record net := Net {
  now : Z;                (* the clock *)
  replies : list reply;   (* what the host will answer *)
  calls : list call;      (* history: the calls made to the host *)
  opened : nat            (* streams opened so far; the next stream's name *)
}.

(** A call returns a value, returns an error, or is still waiting for the
    host when the oracle ends. *)
Inductive result (A : Type) :=
| Ok (a : A)
| Err (e : error)
| Waiting.
Arguments Ok {A} a.
Arguments Err {A} e.
Arguments Waiting {A}.

(** [RemoteTracer.connect], lines 239-260 *)
Fixpoint connect_from (ctx : context) (rs : list reply) (t : Z) (cs : list call) (k : nat)
  : result unit * net :=
  match rs with
  | [] => (Waiting, Net t [] cs k)
  | r :: rest =>
      let cs' := cs ++ [CConnect t] in
      let t1 := (t + rp_dur r)%Z in
      if rp_ok r then (Ok tt, Net t1 rest cs' k)
      else if cancelled ctx t1 then (Err ErrHost, Net t1 rest cs' k)
      else match backoff ctx (rp_tie r) t1 with
           | inl t2 => connect_from ctx rest t2 cs' k
           | inr tc => (Err ErrCanceled, Net tc rest cs' k)
           end
  end.

Definition connect (ctx : context) (n : net) : result unit * net :=
  connect_from ctx (replies n) (now n) (calls n) (opened n).

Lemma connect_from_replies ctx rs : forall t cs k,
  length (replies (connect_from ctx rs t cs k).2) <= length rs.
Proof.
  induction rs as [|r rs IH]; intros t cs k; simpl; [lia|].
  destruct (rp_ok r); simpl; [lia|].
  destruct (cancelled _ _); simpl; [lia|].
  destruct (backoff _ _ _) as [t2|tc]; simpl; [|lia].
  specialize (IH t2 (cs ++ [CConnect t]) k). lia.
Qed.

Lemma connect_replies ctx n r n1 :
  connect ctx n = (r, n1) -> length (replies n1) <= length (replies n).
Proof.
  unfold connect. intros H.
  pose proof (connect_from_replies ctx (replies n) (now n) (calls n) (opened n)) as Hle.
  by rewrite H in Hle.
Qed.

Definition inspect {A : Type} (x : A) : { y : A | x = y } := exist _ x eq_refl.

(** [RemoteTracer.openStream], lines 262-288 *)
Equations? openStream (ctx : context) (n : net) : result nat * net
  by wf (length (replies n)) lt :=
  openStream ctx n with inspect (connect ctx n) := {
    | exist _ (Err e, n1) _ => (Err e, n1);
    | exist _ (Waiting, n1) _ => (Waiting, n1);
    | exist _ (Ok _, n1) Hc with inspect (replies n1) := {
        | exist _ [] _ => (Waiting, n1);
        | exist _ (r :: rest) Hr =>
            let t1 := (now n1 + rp_dur r)%Z in
            let cs := calls n1 ++ [CNewStream (now n1)] in
            if rp_ok r then (Ok (opened n1), Net t1 rest cs (S (opened n1)))
            else if cancelled ctx t1 then (Err ErrHost, Net t1 rest cs (opened n1))
            else match backoff ctx (rp_tie r) t1 with
                 | inl t2 => openStream ctx (Net t2 rest cs (opened n1))
                 | inr tc => (Err ErrCanceled, Net tc rest cs (opened n1))
                 end } }.
Proof.
  simpl. apply connect_replies in Hc. rewrite Hr in Hc. simpl in Hc. lia.
Qed.

(** One attempt of [host.NewStream] in [openStream], once [connect] has
    returned: the result of [openStream] ([inl]), or the state in which the
    loop goes round again ([inr]). *)
Definition NewStream_attempt (ctx : context) (n1 : net) (r : reply) (rest : list reply)
  : (result nat * net) + net :=
  let t1 := (now n1 + rp_dur r)%Z in
  let cs := calls n1 ++ [CNewStream (now n1)] in
  if rp_ok r then inl (Ok (opened n1), Net t1 rest cs (S (opened n1)))
  else if cancelled ctx t1 then inl (Err ErrHost, Net t1 rest cs (opened n1))
  else match backoff ctx (rp_tie r) t1 with
       | inl t2 => inr (Net t2 rest cs (opened n1))
       | inr tc => inl (Err ErrCanceled, Net tc rest cs (opened n1))
       end.

(** [time.Sleep(d)] *)
Definition sleep (d : Z) (n : net) : net :=
  Net (now n + d)%Z (replies n) (calls n) (opened n).

(** ** The remote sink *)

Section Remote.
Context {Event : Type} `{!Runtime Event}.

Inductive rpc :=
| RInit                 (* at [s, err := t.openStream()], line 169 *)
| RRecv                 (* at [_, ok := <-t.ch] *)
| RClear (ok : bool)    (* at [for i := range buf { buf[i] = nil }] *)
| RSleep (ok : bool)    (* at [time.Sleep(time.Second)] *)
| RSwap (ok : bool)     (* at [t.mx.Lock()] *)
| RWriteMsg (ok : bool) (* at [batch.Batch = buf; err = w.WriteMsg(&batch)] *)
| RFlush (ok : bool)    (* at [err = gzipW.Flush()] *)
| REnd (ok : bool)      (* at the label [end] *)
| RReconnect            (* at [s, err = t.openStream()], line 228 *)
| RDone.                (* returned *)

(** What the loop does, in order. Streams are named by numbers; [None] is
    the nil stream. *)
Inductive effect :=
| ESwap (b : list Event)                              (* the swap gave batch [b] *)
| EGzipNew (s : nat)                                  (* [gzip.NewWriter(s)] *)
| EWriteMsg (s : option nat) (b : list Event) (r : option error)
| EFlush (s : option nat) (r : option error)
| EReset (s : option nat)                             (* [s.Reset()] *)
| EGzipClose (s : option nat)                         (* [gzipW.Close()] *)
| EFullClose (s : option nat)                         (* [helpers.FullClose(s)] *)
| EGzipReset (s : nat).                               (* [gzipW.Reset(s)] *)

Record rsys := RSys {
  r_mem : mem Event;
  r_pc : rpc;
  r_ctx : context;              (* [t.ctx] *)
  r_net : net;                  (* [t.host] towards [t.pi], and the clock *)
  r_s : option nat;             (* the variable [s] *)
  r_gz : option nat;            (* the stream [gzipW] writes to *)
  r_err : option error;         (* the variable [err] *)
  r_io : list (option error);   (* what the coming [WriteMsg] and [Flush] return *)
  r_trace : list effect;        (* history *)
  r_log : list error            (* the calls of [log.Errorf] *)
}.

Definition set_pc (p : rpc) (σ : rsys) : rsys :=
  RSys (r_mem σ) p (r_ctx σ) (r_net σ) (r_s σ) (r_gz σ) (r_err σ) (r_io σ) (r_trace σ) (r_log σ).
Definition set_mem (m : mem Event) (σ : rsys) : rsys :=
  RSys m (r_pc σ) (r_ctx σ) (r_net σ) (r_s σ) (r_gz σ) (r_err σ) (r_io σ) (r_trace σ) (r_log σ).
Definition set_net (n : net) (σ : rsys) : rsys :=
  RSys (r_mem σ) (r_pc σ) (r_ctx σ) n (r_s σ) (r_gz σ) (r_err σ) (r_io σ) (r_trace σ) (r_log σ).
Definition set_stream (s : option nat) (σ : rsys) : rsys :=
  RSys (r_mem σ) (r_pc σ) (r_ctx σ) (r_net σ) s (r_gz σ) (r_err σ) (r_io σ) (r_trace σ) (r_log σ).
Definition set_gz (g : option nat) (σ : rsys) : rsys :=
  RSys (r_mem σ) (r_pc σ) (r_ctx σ) (r_net σ) (r_s σ) g (r_err σ) (r_io σ) (r_trace σ) (r_log σ).
Definition set_err (e : option error) (σ : rsys) : rsys :=
  RSys (r_mem σ) (r_pc σ) (r_ctx σ) (r_net σ) (r_s σ) (r_gz σ) e (r_io σ) (r_trace σ) (r_log σ).
Definition set_io (io : list (option error)) (σ : rsys) : rsys :=
  RSys (r_mem σ) (r_pc σ) (r_ctx σ) (r_net σ) (r_s σ) (r_gz σ) (r_err σ) io (r_trace σ) (r_log σ).
Definition emit (l : list effect) (σ : rsys) : rsys :=
  RSys (r_mem σ) (r_pc σ) (r_ctx σ) (r_net σ) (r_s σ) (r_gz σ) (r_err σ) (r_io σ)
       (r_trace σ ++ l) (r_log σ).
Definition log_error (r : option error) (σ : rsys) : rsys :=
  RSys (r_mem σ) (r_pc σ) (r_ctx σ) (r_net σ) (r_s σ) (r_gz σ) (r_err σ) (r_io σ)
       (r_trace σ) (log_err r (r_log σ)).

(** the result of the next [WriteMsg] or [Flush]; success when the oracle
    says nothing *)
Definition pop_io (σ : rsys) : option error * rsys :=
  match r_io σ with
  | [] => (None, σ)
  | r :: rest => (r, set_io rest σ)
  end.

(** [RemoteTracer.doWrite], one step at a time *)
Definition RemoteTracer_doWrite (σ : rsys) : option rsys :=
  match r_pc σ with
  | RInit =>
      match openStream (r_ctx σ) (r_net σ) with
      | (Ok s, n) =>
          Some (set_pc RRecv (emit [EGzipNew s]
                 (set_gz (Some s) (set_err None (set_stream (Some s) (set_net n σ))))))
      | (Err e, n) =>
          Some (set_pc RDone (log_error (Some e) (set_err (Some e) (set_net n σ))))
      | (Waiting, _) => None
      end
  | RRecv =>
      match Chan.recv (ch (tracer (r_mem σ))) with
      | Some (c, ok) => Some (set_pc (RClear ok) (set_mem (set_ch c (r_mem σ)) σ))
      | None => None
      end
  | RClear ok => Some (set_pc (RSleep ok) (set_mem (clear_all (r_mem σ)) σ))
  | RSleep ok => Some (set_pc (RSwap ok) (set_net (sleep second (r_net σ)) σ))
  | RSwap ok =>
      let m := swap (r_mem σ) in
      Some (set_pc (if decide (s_len (lbuf m) = 0) then REnd ok else RWriteMsg ok)
                   (emit [ESwap (batch m)] (set_mem m σ)))
  | RWriteMsg ok =>
      let '(r, σ1) := pop_io σ in
      let σ2 := log_error r (emit [EWriteMsg (r_gz σ) (batch (r_mem σ)) r] (set_err r σ1)) in
      match r with
      | Some _ => Some (set_pc (REnd ok) σ2)
      | None => Some (set_pc (RFlush ok) σ2)
      end
  | RFlush ok =>
      let '(r, σ1) := pop_io σ in
      Some (set_pc (REnd ok) (log_error r (emit [EFlush (r_gz σ) r] (set_err r σ1))))
  | REnd ok =>
      if ok then
        match r_err σ with
        | Some _ => Some (set_pc RReconnect (emit [EReset (r_s σ)] σ))
        | None => Some (set_pc RRecv σ)
        end
      else
        match r_err σ with
        | Some _ => Some (set_pc RDone (emit [EReset (r_s σ)] σ))
        | None => Some (set_pc RDone (emit [EGzipClose (r_gz σ); EFullClose (r_s σ)] σ))
        end
  | RReconnect =>
      match openStream (r_ctx σ) (r_net σ) with
      | (Ok s, n) =>
          Some (set_pc RRecv (emit [EGzipReset s]
                 (set_gz (Some s) (set_err None (set_stream (Some s) (set_net n σ))))))
      | (Err e, n) =>
          Some (set_pc RDone (log_error (Some e)
                 (set_err (Some e) (set_stream None (set_net n σ)))))
      | (Waiting, _) => None
      end
  | RDone => None
  end.

(** [NewRemoteTracer(ctx, host, pi)]: the tracer and a nil error; the
    goroutine [tr.doWrite()] is spawned at its first line. [host] stands
    for the host and the peer [pi] behind it. *)
Definition new_remote (ctx : context) (host : net) (io : list (option error)) : rsys :=
  RSys new_mem RInit ctx host None None None io [] [].

Definition NewRemoteTracer (ctx : context) (host : net) (io : list (option error))
  : option rsys * option error :=
  (Some (new_remote ctx host io), None).

Definition rstep (a : action Event) (σ : rsys) : option rsys :=
  match a with
  | AWrite => RemoteTracer_doWrite σ
  | _ =>
      match mem_step a (r_mem σ) with
      | Some m => Some (set_mem m σ)
      | None => None
      end
  end.

Fixpoint rexec (acts : list (action Event)) (σ : rsys) : option rsys :=
  match acts with
  | [] => Some σ
  | a :: rest =>
      match rstep a σ with
      | Some σ' => rexec rest σ'
      | None => None
      end
  end.

(** *** Invariants of an execution *)

(** the batches the swaps gave, and the batches handed to [WriteMsg] *)
Definition swapped (tr : list effect) : list (list Event) :=
  omap (fun e => match e with ESwap b => Some b | _ => None end) tr.

Definition sent (tr : list effect) : list (list Event) :=
  omap (fun e => match e with EWriteMsg _ b _ => Some b | _ => None end) tr.

(** the batch that is about to be handed to [WriteMsg] *)
Definition inflight (σ : rsys) : list Event :=
  match r_pc σ with
  | RWriteMsg _ => batch (r_mem σ)
  | _ => []
  end.

(** The outcome of the last operation of the iteration: of the last
    [WriteMsg] or [Flush] since the swap, and success when there was none. *)
Definition last_result (tr : list effect) : option error :=
  match last tr with
  | Some (EWriteMsg _ _ r) | Some (EFlush _ r) => r
  | _ => None
  end.

(** does the effect touch the network? *)
Definition is_io (e : effect) : bool :=
  match e with
  | ESwap _ => false
  | _ => true
  end.

Definition rpc_ok (p : rpc) : bool :=
  match p with
  | RClear ok | RSleep ok | RSwap ok | RWriteMsg ok | RFlush ok | REnd ok => ok
  | RInit | RRecv | RReconnect => true
  | RDone => false
  end.

(** how many steps the iteration has left, at most *)
Definition rank (p : rpc) : nat :=
  match p with
  | RClear _ => 6
  | RSleep _ => 5
  | RSwap _ => 4
  | RWriteMsg _ => 3
  | RFlush _ => 2
  | REnd _ => 1
  | _ => 0
  end.

Record rinv (evs : list Event) (σ : rsys) : Prop := RInv {
  rinv_mem : mem_ok (r_mem σ);
  rinv_swapped : concat (swapped (r_trace σ)) ++ pending (r_mem σ) = evs;
  rinv_sent : concat (sent (r_trace σ)) ++ inflight σ ++ pending (r_mem σ) = evs;
  rinv_stream :
    match r_pc σ with
    | RInit | RReconnect | RDone => True
    | _ => exists sid, r_s σ = Some sid /\ r_gz σ = Some sid
    end;
  rinv_err :
    match r_pc σ with
    | RInit | RReconnect | RDone => True
    | REnd _ => r_err σ = last_result (r_trace σ)
    | _ => r_err σ = None
    end
}.

(** the stream in [s] is one the host has opened *)
Definition stream_known (σ : rsys) : Prop :=
  forall sid, r_s σ = Some sid -> sid < opened (r_net σ).

End Remote.

Arguments rsys : clear implicits.
Arguments effect : clear implicits.

(** ** Further notions, for the properties of Part V *)

(** the time that failed attempts and the waits after them take *)
Definition total_wait (rs : list reply) : Z :=
  foldr (fun r t => (rp_dur r + minute + t)%Z) 0%Z rs.

(** the calls of [host.Connect] that get the replies [rs], the first at [t],
    each of the others a minute after the failure before it *)
Fixpoint connect_calls (t : Z) (rs : list reply) : list call :=
  match rs with
  | [] => []
  | r :: rest => CConnect t :: connect_calls (t + rp_dur r + minute) rest
  end.

Section Further.
Context {Event : Type} `{!Runtime Event}.


(** The [Trace] calls in flight after [acts], when [n] were in flight
    before: those that have appended and not yet sent. [None] when a send
    comes with no append before it, which no [Trace] does. *)
Fixpoint in_flight (n : nat) (acts : list (action Event)) : option nat :=
  match acts with
  | [] => Some n
  | ATraceAppend _ :: rest => in_flight (S n) rest
  | ATraceSignal :: rest =>
      match n with
      | O => None
      | S k => in_flight k rest
      end
  | _ :: rest => in_flight n rest
  end.


(** the file is closed when the loop has returned, and not before; no call
    of the encoder has met a closed file *)
Definition closed_at_return (σ : fsys Event) : Prop :=
  (f_closed (w σ) = true <-> pc σ = FDone)
  /\ (ErrClosed ∉ errlog σ)
  /\ kept σ <> Some ErrClosed
  /\ Forall (fun p => p.2 <> Some ErrClosed) (encoded σ).

End Further.

Section FurtherInvariants.
Context {Event : Type} `{!Runtime Event}.

(** With [n] calls of [Trace] in flight: if events are pending then a wake
    is in the channel, or the file loop is about to swap, or a call in
    flight will send a wake, or the channel is closed. *)
Definition awake (n : nat) (σ : fsys Event) : Prop :=
  pending (fmem σ) <> [] ->
  Chan.len (chan_of σ) = Chan.cap
  \/ (exists ok, pc σ = FSwap ok)
  \/ 0 < n
  \/ Chan.closed (chan_of σ) = true.

(** the remote loop has received and not swapped yet *)
Definition before_swap (p : rpc) : bool :=
  match p with
  | RClear _ | RSleep _ | RSwap _ => true
  | _ => false
  end.

Definition rawake (n : nat) (σ : rsys Event) : Prop :=
  pending (r_mem σ) <> [] ->
  Chan.len (ch (tracer (r_mem σ))) = Chan.cap
  \/ before_swap (r_pc σ) = true
  \/ 0 < n
  \/ Chan.closed (ch (tracer (r_mem σ))) = true.

(** The slots of the file loop's buffer that it is done with hold nil. *)
Definition released (σ : fsys Event) : Prop :=
  match pc σ with
  | FRange _ i _ => take i (batch (fmem σ)) = replicate i zero
  | _ => batch (fmem σ) = replicate (length (batch (fmem σ))) zero
  end.

(** The remote loop has cleared its buffer when it is about to swap. *)
Definition rreleased (σ : rsys Event) : Prop :=
  match r_pc σ with
  | RInit | RSleep _ | RSwap _ =>
      batch (r_mem σ) = replicate (length (batch (r_mem σ))) zero
  | _ => True
  end.

End FurtherInvariants.

Section FurtherRemote.
Context {Event : Type} `{!Runtime Event}.

(** *** Termination measure of the remote loop: eight steps at most from
    a receive to the next, and one for the first [openStream] *)
Definition rphase (p : rpc) : nat :=
  match p with
  | RInit => 1
  | RRecv => 0
  | RClear _ => 7
  | RSleep _ => 6
  | RSwap _ => 5
  | RWriteMsg _ => 4
  | RFlush _ => 3
  | REnd _ => 2
  | RReconnect => 1
  | RDone => 0
  end.

Definition rpotential (σ : rsys Event) : nat :=
  let c := ch (tracer (r_mem σ)) in
  8 * Chan.len c
  + (if Chan.closed c && rpc_ok (r_pc σ) then 8 else 0)
  + rphase (r_pc σ).

Definition rweight (a : action Event) : nat :=
  match a with
  | ATraceSignal | AClose => 8
  | _ => 0
  end.

Definition rtotal_weight (acts : list (action Event)) : nat :=
  foldr (fun a n => rweight a + n) 0 acts.

(** the stream an effect is about *)
Definition effect_stream (e : effect Event) : option nat :=
  match e with
  | ESwap _ => None
  | EGzipNew s | EGzipReset s => Some s
  | EWriteMsg s _ _ | EFlush s _ | EReset s | EGzipClose s | EFullClose s => s
  end.

(** the streams that have been reset *)
Definition resets (tr : list (effect Event)) : list nat :=
  omap (fun e => match e with EReset s => s | _ => None end) tr.

(** no effect is about a stream that was reset before it *)
Definition reset_is_final (tr : list (effect Event)) : Prop :=
  forall pre e post sid,
    tr = pre ++ e :: post -> sid ∈ resets pre -> effect_stream e <> Some sid.

(** every stream reset so far is older than the stream in [s], and than
    any stream the host will open *)
Definition resets_are_old (σ : rsys Event) : Prop :=
  (forall sid, sid ∈ resets (r_trace σ) -> sid < opened (r_net σ))
  /\ match r_pc σ with
     | RInit | RReconnect | RDone => True
     | _ => forall sid cur, sid ∈ resets (r_trace σ) -> r_s σ = Some cur -> sid < cur
     end.

End FurtherRemote.

Section FurtherDelivery.
Context {Event : Type} `{!Runtime Event}.

(** the batches whose [WriteMsg] succeeded *)
Definition delivered (tr : list (effect Event)) : list (list Event) :=
  omap (fun e => match e with EWriteMsg _ b None => Some b | _ => None end) tr.

(** an effect of a run without failure, on the stream [sid] *)
Definition clean (sid : nat) (e : effect Event) : Prop :=
  match e with
  | ESwap _ => True
  | EGzipNew s => s = sid
  | EWriteMsg s _ r | EFlush s r => s = Some sid /\ r = None
  | EGzipClose s | EFullClose s => s = Some sid
  | EReset _ | EGzipReset _ => False
  end.

(** A remote loop that has met no failure: the first [openStream] gives
    the stream [sid] of [host], and no [WriteMsg] or [Flush] fails. *)
Record rhappy (host : net) (sid : nat) (σ : rsys Event) : Prop := RHappy {
  rhappy_io : Forall (fun r => r = None) (r_io σ);
  rhappy_log : r_log σ = [];
  rhappy_err : r_err σ = None;
  rhappy_pc : r_pc σ <> RReconnect;
  rhappy_init : r_pc σ = RInit -> r_net σ = host /\ r_trace σ = [];
  rhappy_stream : r_pc σ <> RInit -> r_s σ = Some sid /\ r_gz σ = Some sid;
  rhappy_trace : Forall (clean sid) (r_trace σ);
  rhappy_closed :
    rpc_ok (r_pc σ) = false -> Chan.closed (ch (tracer (r_mem σ))) = true;
  rhappy_done :
    r_pc σ = RDone ->
    exists pre, r_trace σ = pre ++ [EGzipClose (Some sid); EFullClose (Some sid)]
}.

(** Once the remote loop has seen the channel closed and swapped, nothing
    is pending (as long as no producer appends after [Close]). *)
Definition rsealed (σ : rsys Event) : Prop :=
  match r_pc σ with
  | RWriteMsg false | RFlush false | REnd false | RDone => pending (r_mem σ) = []
  | _ => True
  end.

End FurtherDelivery.

(** ** A small instance for examples: events are numbers *)

#[global] Instance nat_runtime : Runtime nat := {| zero := 0; grow := fun c => 2 * c |}.

(** a JSON codec for the numbers 1, 2 and 3 *)
Definition digit_marshal (n : nat) : option (list byte) :=
  match n with
  | 1 => Some [x31]
  | 2 => Some [x32]
  | 3 => Some [x33]
  | _ => None
  end.

Definition digit_unmarshal (bs : list byte) : option nat :=
  match bs with
  | [x31] => Some 1
  | [x32] => Some 2
  | [x33] => Some 3
  | _ => None
  end.

(** Three events appended by two producers before the first swap. *)
Definition two_producers : list (action nat) :=
  [ATraceAppend 1; ATraceAppend 2; ATraceSignal; ATraceSignal; AWrite;
   ATraceAppend 3; AWrite].

(** Trace(1); Trace(2); Trace(3); Close() interleaved with the write loop
    of a file sink, up to the return of the loop. *)
Definition one_producer_then_close : list (action nat) :=
  [ATraceAppend 1; ATraceSignal; AWrite; AWrite; ATraceAppend 2; AWrite; ATraceSignal;
   AWrite; ATraceAppend 3; ATraceSignal; AClose; AWrite; AWrite; AWrite; AWrite; AWrite;
   AWrite; AWrite; AWrite].

(** A batch whose second event cannot be serialised, up to the range loop. *)
Definition bad_event_in_batch : list (action nat) :=
  [ATraceAppend 1; ATraceAppend 7; ATraceAppend 3; ATraceSignal; AWrite; AWrite].

(** A host that answers every call but the third, in a few nanoseconds. *)
Definition good_host : net :=
  Net 0 [Reply true 5 false; Reply true 3 false; Reply false 7 false;
         Reply true 5 false; Reply true 3 false] [] 0.

(** The remote loop up to the close check, after a WriteMsg that fails,
    with the channel open. *)
Definition write_fails : list (action nat) :=
  [AWrite; ATraceAppend 1; ATraceSignal; AWrite; AWrite; AWrite; AWrite; AWrite].

(** One batch sent; then an event is appended, the channel is closed, and
    the WriteMsg of the last batch fails. Up to the close check. *)
Definition write_fails_closing : list (action nat) :=
  [AWrite; ATraceAppend 1; ATraceSignal; AWrite; AWrite; AWrite; AWrite; AWrite; AWrite;
   AWrite; ATraceAppend 2; AClose; AWrite; AWrite; AWrite; AWrite; AWrite].

(** Two wakes for one batch: the second finds nothing pending. *)
Definition second_wake_finds_nothing : list (action nat) :=
  [AWrite; ATraceAppend 1; ATraceSignal; AWrite; AWrite; AWrite; ATraceAppend 2;
   ATraceSignal; AWrite; AWrite; AWrite; AWrite; AWrite; AWrite; AWrite].

(** a delimited encoding of the numbers 1, 2 and 3: the length, then the
    digit *)
Definition digit_pb_frame (n : nat) : option (list byte) :=
  match digit_marshal n with
  | Some bs => Some (x01 :: bs)
  | None => None
  end.

(** One Trace, complete, before the loop has taken a step. *)
Definition one_trace : list (action nat) := [ATraceAppend 1; ATraceSignal].

(** The batch 1, 7, 3 handed to the encoder, event by event. *)
Definition bad_event_encoded : list (action nat) :=
  bad_event_in_batch ++ [AWrite; AWrite; AWrite].

(** The remote sink: Trace(1); Close(), and the loop up to its return. *)
Definition remote_trace_then_close : list (action nat) :=
  [AWrite; ATraceAppend 1; ATraceSignal; AClose;
   AWrite; AWrite; AWrite; AWrite; AWrite; AWrite; AWrite;
   AWrite; AWrite; AWrite; AWrite; AWrite].

(** A WriteMsg that fails, the reset of the stream, and the next stream. *)
Definition write_fails_then_reconnects : list (action nat) :=
  write_fails ++ [AWrite; AWrite].

(** The remote loop at its swap, with an event appended before its
    receive and another during its sleep. *)
Definition remote_before_swap : list (action nat) :=
  [AWrite; ATraceAppend 1; ATraceSignal; AWrite; AWrite; ATraceAppend 2; AWrite].

(** A batch of three events, up to the first call of the encoder. *)
Definition batch_of_three : list (action nat) :=
  [ATraceAppend 1; ATraceAppend 2; ATraceAppend 3; ATraceSignal; AWrite; AWrite; AWrite].


(** A host that refuses every call. *)
Definition dead_host : net := Net 0 [Reply false 7 false; Reply false 7 false] [] 0.

(** * Part II: facts about the model *)

(** ** The wake channel *)

Lemma chan_select_never_blocks c : Chan.select_send_default c <> Chan.WouldBlock.
Proof.
  unfold Chan.select_send_default, Chan.send.
  destruct (Chan.closed c); [discriminate|].
  destruct (Chan.len c <? Chan.cap); discriminate.
Qed.

Lemma chan_select_full_open c :
  Chan.closed c = false -> Chan.len c = Chan.cap -> Chan.select_send_default c = Chan.Proceed c.
Proof.
  intros Hc Hl. unfold Chan.select_send_default, Chan.send.
  rewrite Hc, Hl. reflexivity.
Qed.

Lemma chan_select_closed c : Chan.closed c = true -> Chan.select_send_default c = Chan.Panic.
Proof. intros Hc. unfold Chan.select_send_default, Chan.send. rewrite Hc. reflexivity. Qed.

Lemma chan_select_len c c' :
  Chan.len c <= Chan.cap -> Chan.select_send_default c = Chan.Proceed c' ->
  Chan.len c' = Chan.cap /\ Chan.closed c' = Chan.closed c.
Proof.
  unfold Chan.select_send_default, Chan.send, Chan.cap. intros Hle.
  destruct (Chan.closed c) eqn:Hc; [discriminate|].
  destruct (Chan.len c <? 1) eqn:Hl.
  - intros [= <-]. simpl. apply Nat.ltb_lt in Hl. split; [lia|done].
  - intros [= <-]. apply Nat.ltb_ge in Hl. split; [lia|done].
Qed.

Lemma chan_recv_len c c' ok : Chan.recv c = Some (c', ok) -> Chan.len c' <= Chan.len c.
Proof.
  unfold Chan.recv. destruct (Chan.len c) eqn:Hl.
  - destruct (Chan.closed c); [|discriminate]. intros [= <- <-]. lia.
  - intros [= <- <-]. simpl. lia.
Qed.

Lemma chan_recv_closed c c' : Chan.recv c = Some (c', false) -> Chan.closed c' = true.
Proof.
  unfold Chan.recv. destruct (Chan.len c); [|discriminate].
  destruct (Chan.closed c) eqn:Hc; [|discriminate]. by intros [= <-].
Qed.

Lemma chan_recv_keeps_closed c c' ok :
  Chan.recv c = Some (c', ok) -> Chan.closed c' = Chan.closed c.
Proof.
  unfold Chan.recv. destruct (Chan.len c).
  - destruct (Chan.closed c) eqn:Hc; [|discriminate]. intros [= <- <-]. by rewrite Hc.
  - by intros [= <- <-].
Qed.

(** ** Slices *)

Section SliceFacts.
Context {A : Type} `{!Runtime A}.
Implicit Types (h : list (list A)) (s : slice) (e x : A).

Lemma arr_of_insert_eq h a v : a < length h -> arr_of (<[a := v]> h) a = v.
Proof. intros H. unfold arr_of. by rewrite list_lookup_insert_eq. Qed.

Lemma arr_of_insert_ne h a b v : a <> b -> arr_of (<[a := v]> h) b = arr_of h b.
Proof. intros H. unfold arr_of. by rewrite list_lookup_insert_ne. Qed.

Lemma arr_of_app_l h k a : a < length h -> arr_of (h ++ k) a = arr_of h a.
Proof. intros H. unfold arr_of. by rewrite lookup_app_l. Qed.

Lemma arr_of_app_new h v : arr_of (h ++ [v]) (length h) = v.
Proof.
  unfold arr_of. rewrite lookup_app_r by lia.
  by rewrite Nat.sub_diag.
Qed.

Lemma view_length h s : wf_slice h s -> length (view h s) = s_len s.
Proof.
  unfold wf_slice, view. destruct (s_ptr s).
  - intros [_ H]. rewrite length_take. lia.
  - intros ->. done.
Qed.

Lemma view_nil_slice h : view h nil_slice = [].
Proof. done. Qed.

Lemma view_reslice0 h s : view h (reslice0 s) = [].
Proof. unfold view, reslice0. simpl. destruct (s_ptr s); [apply take_0|done]. Qed.

Lemma wf_reslice0 h s : wf_slice h s -> wf_slice h (reslice0 s).
Proof.
  unfold wf_slice, reslice0. simpl. destruct (s_ptr s); [|done].
  intros [? ?]. split; [done|lia].
Qed.

Lemma wf_nil_slice h : wf_slice h nil_slice.
Proof. done. Qed.

Lemma disjoint_sym s1 s2 : disjoint s1 s2 -> disjoint s2 s1.
Proof. unfold disjoint. intros H a H2 H1. by apply (H a). Qed.

Lemma disjoint_reslice0_l s1 s2 : disjoint s1 s2 -> disjoint (reslice0 s1) s2.
Proof. done. Qed.

Lemma disjoint_nil_l s : disjoint nil_slice s.
Proof. intros a. discriminate. Qed.

(** *** [append] on the slice itself *)

Lemma alloc_view h elems oldcap e :
  view (alloc h elems oldcap e).1 (alloc h elems oldcap e).2 = elems ++ [e].
Proof.
  unfold alloc, view. simpl. rewrite arr_of_app_new.
  rewrite (cons_middle e), app_assoc.
  apply take_app_length'. rewrite length_app. simpl. lia.
Qed.

Lemma alloc_wf h elems oldcap e :
  wf_slice (alloc h elems oldcap e).1 (alloc h elems oldcap e).2.
Proof.
  unfold alloc, wf_slice. simpl. rewrite arr_of_app_new.
  rewrite !length_app. simpl. lia.
Qed.

Lemma go_append_view h s e :
  wf_slice h s ->
  view (go_append h s e).1 (go_append h s e).2 = view h s ++ [e].
Proof.
  unfold go_append, wf_slice. destruct (s_ptr s) as [a|] eqn:Hp.
  - intros [Ha Hl]. case_decide as Hlt.
    + unfold view. simpl. rewrite Hp. rewrite arr_of_insert_eq by done.
      rewrite (take_S_r _ _ e).
      * by rewrite take_insert_ge by lia.
      * by apply list_lookup_insert_eq.
    + rewrite alloc_view. unfold view. by rewrite Hp.
  - intros _. rewrite alloc_view. unfold view. by rewrite Hp.
Qed.

Lemma go_append_wf h s e :
  wf_slice h s -> wf_slice (go_append h s e).1 (go_append h s e).2.
Proof.
  unfold go_append. destruct (s_ptr s) as [a|] eqn:Hp.
  - unfold wf_slice at 1. rewrite Hp. intros [Ha Hl]. case_decide as Hlt.
    + unfold wf_slice. simpl. rewrite length_insert.
      rewrite arr_of_insert_eq by done. rewrite length_insert. lia.
    + apply alloc_wf.
  - intros _. apply alloc_wf.
Qed.

(** *** [append] leaves every other well-formed slice alone *)

Lemma go_append_heap_length h s e : length h <= length (go_append h s e).1.
Proof.
  unfold go_append, alloc. destruct (s_ptr s); [case_decide|]; simpl;
    rewrite ?length_insert, ?length_app; simpl; lia.
Qed.

Lemma go_append_frame h s e s2 :
  wf_slice h s -> wf_slice h s2 -> disjoint s s2 ->
  view (go_append h s e).1 s2 = view h s2
  /\ wf_slice (go_append h s e).1 s2
  /\ disjoint (go_append h s e).2 s2.
Proof.
  intros Hs Hs2 Hd. destruct (s_ptr s2) as [b|] eqn:Hb.
  2:{ unfold wf_slice in Hs2. rewrite Hb in Hs2.
      unfold view, wf_slice, disjoint. rewrite Hb.
      split; [done|]. split; [exact Hs2|]. intros; discriminate. }
  unfold wf_slice in Hs2. rewrite Hb in Hs2. destruct Hs2 as [Hbl Hbn].
  assert (Hfresh : forall elems oldcap,
    view (alloc h elems oldcap e).1 s2 = view h s2
    /\ wf_slice (alloc h elems oldcap e).1 s2
    /\ disjoint (alloc h elems oldcap e).2 s2).
  { intros elems oldcap. unfold alloc, view, wf_slice, disjoint. simpl.
    rewrite Hb, length_app, arr_of_app_l by done. simpl.
    split; [done|]. split; [lia|]. intros a [= <-] [= ->]. lia. }
  unfold go_append. destruct (s_ptr s) as [a|] eqn:Hp; [|by apply Hfresh].
  case_decide; [|by apply Hfresh].
  assert (a <> b) as Hne.
  { intros ->. by apply (Hd b). }
  unfold view, wf_slice, disjoint. simpl.
  rewrite Hb, length_insert, arr_of_insert_ne by done.
  split; [done|]. split; [done|]. intros ? [= <-] [= ->]. done.
Qed.

(** *** element stores *)

Lemma store_view h s i x :
  wf_slice h s -> view (store h s i x) s = <[i := x]> (view h s).
Proof.
  unfold store, view, wf_slice. destruct (s_ptr s) as [a|]; [|done].
  intros [Ha Hl]. rewrite arr_of_insert_eq by done.
  rewrite take_insert. case_decide; [done|].
  by rewrite list_insert_ge by (rewrite length_take; lia).
Qed.

Lemma store_wf h s i x s2 : wf_slice h s2 -> wf_slice (store h s i x) s2.
Proof.
  unfold store, wf_slice. destruct (s_ptr s) as [a|]; [|done].
  destruct (s_ptr s2) as [b|]; [|done].
  intros [Hb Hl]. rewrite length_insert. split; [done|].
  destruct (decide (a = b)) as [->|Hne].
  - rewrite arr_of_insert_eq by done. by rewrite length_insert.
  - by rewrite arr_of_insert_ne.
Qed.

Lemma store_frame h s i x s2 :
  disjoint s s2 -> view (store h s i x) s2 = view h s2.
Proof.
  unfold store, view, disjoint. destruct (s_ptr s) as [a|]; [|done].
  destruct (s_ptr s2) as [b|]; [|done].
  intros Hd. rewrite arr_of_insert_ne; [done|].
  intros ->. by apply (Hd b).
Qed.

Lemma fill_wf h s n x s2 : wf_slice h s2 -> wf_slice (fill h s n x) s2.
Proof. intros H. induction n; simpl; [done|]. by apply store_wf. Qed.

Lemma fill_frame h s n x s2 :
  disjoint s s2 -> view (fill h s n x) s2 = view h s2.
Proof.
  intros Hd. induction n; simpl; [done|]. by rewrite store_frame.
Qed.

Lemma load_lookup h s i x : view h s !! i = Some x -> load h s i = x.
Proof. unfold load. by intros ->. Qed.

End SliceFacts.

(** ** The shared memory *)

Section TracerFacts.
Context {Event : Type} `{!Runtime Event}.
Implicit Types (m : mem Event) (σ : fsys Event) (evs : list Event) (e : Event).

Lemma new_mem_ok : mem_ok (new_mem (Event := Event)).
Proof.
  unfold mem_ok, new_mem. simpl.
  split; [done|]. split; [done|]. split; [apply disjoint_nil_l|].
  unfold Chan.cap. lia.
Qed.

Lemma set_ch_ok c m :
  mem_ok m -> Chan.len c <= Chan.cap -> mem_ok (set_ch c m).
Proof. unfold mem_ok, set_ch. simpl. tauto. Qed.

Lemma pending_set_ch c m : pending (set_ch c m) = pending m.
Proof. done. Qed.

Lemma batch_set_ch c m : batch (set_ch c m) = batch m.
Proof. done. Qed.

Lemma Trace_append_spec e m :
  mem_ok m ->
  mem_ok (Trace_append e m)
  /\ pending (Trace_append e m) = pending m ++ [e]
  /\ batch (Trace_append e m) = batch m
  /\ lbuf (Trace_append e m) = lbuf m
  /\ ch (tracer (Trace_append e m)) = ch (tracer m).
Proof.
  intros (Hb & Hl & Hd & Hc). unfold Trace_append, pending, batch, mem_ok.
  pose proof (go_append_view (heap m) (buf (tracer m)) e Hb) as Hv.
  pose proof (go_append_wf (heap m) (buf (tracer m)) e Hb) as Hw.
  pose proof (go_append_frame (heap m) (buf (tracer m)) e (lbuf m) Hb Hl Hd)
    as (Hf1 & Hf2 & Hf3).
  destruct (go_append (heap m) (buf (tracer m)) e) as [h b]. simpl in *.
  repeat split; done.
Qed.

Lemma swap_spec m :
  mem_ok m ->
  mem_ok (swap m)
  /\ pending (swap m) = []
  /\ batch (swap m) = pending m
  /\ s_len (lbuf (swap m)) = length (pending m)
  /\ ch (tracer (swap m)) = ch (tracer m).
Proof.
  intros (Hb & Hl & Hd & Hc). unfold swap, pending, batch, mem_ok. simpl.
  repeat split; try done.
  - by apply wf_reslice0.
  - apply disjoint_reslice0_l. by apply disjoint_sym.
  - apply view_reslice0.
  - by rewrite view_length.
Qed.

Lemma clear_spec i m :
  mem_ok m ->
  mem_ok (clear i m)
  /\ pending (clear i m) = pending m
  /\ batch (clear i m) = <[i := zero]> (batch m)
  /\ lbuf (clear i m) = lbuf m
  /\ tracer (clear i m) = tracer m.
Proof.
  intros (Hb & Hl & Hd & Hc). unfold clear, pending, batch, mem_ok. simpl.
  repeat split; try done.
  - by apply store_wf.
  - by apply store_wf.
  - apply store_frame. by apply disjoint_sym.
  - by apply store_view.
Qed.

Lemma clear_all_spec m :
  mem_ok m ->
  mem_ok (clear_all m)
  /\ pending (clear_all m) = pending m
  /\ lbuf (clear_all m) = lbuf m
  /\ tracer (clear_all m) = tracer m.
Proof.
  intros (Hb & Hl & Hd & Hc). unfold clear_all, pending, mem_ok. simpl.
  repeat split; try done.
  - by apply fill_wf.
  - by apply fill_wf.
  - apply fill_frame. by apply disjoint_sym.
Qed.

Lemma mem_step_ok a m m' :
  mem_ok m -> mem_step a m = Some m' ->
  mem_ok m'
  /\ pending m' = pending m ++ appended [a]
  /\ batch m' = batch m
  /\ lbuf m' = lbuf m.
Proof.
  intros Hm. destruct a as [e| | |]; simpl.
  - intros [= <-]. destruct (Trace_append_spec e m Hm) as (?&?&?&?&?). done.
  - unfold Trace_signal.
    destruct (Chan.select_send_default (ch (tracer m))) as [c| |] eqn:Hs; try discriminate.
    intros [= <-]. rewrite app_nil_r. split; [|done].
    apply set_ch_ok; [done|].
    destruct Hm as (_&_&_&Hc). destruct (chan_select_len _ _ Hc Hs) as [-> _]. done.
  - unfold Close, Chan.close. destruct (Chan.closed (ch (tracer m))); try discriminate.
    intros [= <-]. rewrite app_nil_r. split; [|done].
    apply set_ch_ok; [done|]. simpl. by destruct Hm as (_&_&_&Hc).
  - intros [= <-]. rewrite app_nil_r. done.
Qed.

End TracerFacts.

(** ** The write loop of the file sinks *)

Section FileSinkFacts.
Context {Event : Type} `{!Runtime Event}.
Variable enc : Event -> option error -> file -> file * option error * option error.
Implicit Types (m : mem Event) (σ : fsys Event) (evs : list Event) (e : Event).

Lemma open_sink_inv f : finv [] (open_sink (Event := Event) f).
Proof.
  split; simpl; try done. apply new_mem_ok.
Qed.

Lemma batch_length m : mem_ok m -> length (batch m) = s_len (lbuf m).
Proof. intros (_ & Hl & _). by apply view_length. Qed.

Lemma doWrite_step_inv evs σ σ' :
  finv evs σ -> doWrite_step enc σ = Some σ' -> finv evs σ'.
Proof.
  intros [Hm Hb He Hr Hc]. unfold doWrite_step.
  destruct σ as [m p f l bs es kp]; simpl in *. destruct p as [|ok|ok i n|]; simpl in *.
  - (* receive *)
    destruct (Chan.recv (ch (tracer m))) as [[c ok]|] eqn:Hrecv; [|discriminate].
    intros [= <-]. split; simpl; try done.
    + apply set_ch_ok; [done|]. destruct Hm as (_&_&_&Hl).
      pose proof (chan_recv_len _ _ _ Hrecv). lia.
    + intros ->. by apply chan_recv_closed in Hrecv.
  - (* swap *)
    intros [= <-]. destruct (swap_spec m Hm) as (Hm' & Hp & Hbt & Hlen & Hch).
    unfold unencoded in *. simpl in *.
    split; simpl.
    + done.
    + rewrite Hp, Hbt, concat_app. simpl. by rewrite !app_nil_r.
    + unfold unencoded. simpl. rewrite drop_0, Hp, Hbt, app_nil_r. done.
    + split; [done|lia].
    + done.
  - (* one event of the batch, or the end of the batch *)
    destruct Hr as [-> Hi]. unfold unencoded in He. simpl in He.
    case_decide as Hlt.
    + pose proof (batch_length m Hm) as Hlen.
      destruct (lookup_lt_is_Some_2 (batch m) i) as [evt Hevt]; [lia|].
      assert (load (heap m) (lbuf m) i = evt) as -> by by apply load_lookup.
      destruct (enc evt _ f) as [[f' k'] err]. intros [= <-].
      destruct (clear_spec i m Hm) as (Hm' & Hp & Hbt & Hlb & Htr).
      split; simpl.
      * done.
      * by rewrite Hp.
      * unfold unencoded. simpl. rewrite Hp, Hbt, fmap_app. simpl.
        rewrite drop_insert_lt by lia.
        rewrite (drop_S _ _ _ Hevt) in He. by rewrite <- app_assoc.
      * split; [done|lia].
      * done.
    + assert (drop i (batch m) = []) as Hnil.
      { apply drop_ge. rewrite batch_length by done. lia. }
      rewrite Hnil in He.
      destruct ok; intros [= <-]; split; simpl; try done.
  - discriminate.
Qed.

Lemma fstep_inv evs a σ σ' :
  finv evs σ -> fstep enc a σ = Some σ' -> finv (evs ++ appended [a]) σ'.
Proof.
  intros Hinv. destruct (is_producer a) eqn:Hprod.
  - assert (fstep enc a σ =
            match mem_step a (fmem σ) with
            | Some m => Some (FSys m (pc σ) (w σ) (errlog σ) (batches σ) (encoded σ) (kept σ))
            | None => None
            end) as -> by by destruct a.
    destruct (mem_step a (fmem σ)) as [m'|] eqn:Hstep; [|discriminate].
    intros [= <-]. destruct Hinv as [Hm Hb He Hr Hc].
    destruct (mem_step_ok a _ _ Hm Hstep) as (Hm' & Hp & Hbt & Hlb).
    split; simpl.
    + done.
    + rewrite Hp, app_assoc. by rewrite Hb.
    + unfold unencoded in *. simpl. rewrite Hp, Hbt, !app_assoc.
      rewrite <- (app_assoc _ _ (pending (fmem σ))). by rewrite He.
    + rewrite Hlb. done.
    + intros Hok. specialize (Hc Hok).
      destruct a as [e| | |]; simpl in Hstep.
      * injection Hstep as <-. by destruct (Trace_append_spec e _ Hm) as (_&_&_&_&->).
      * unfold Trace_signal in Hstep.
        rewrite chan_select_closed in Hstep by done. discriminate.
      * unfold Close, Chan.close in Hstep. rewrite Hc in Hstep. discriminate.
      * discriminate.
  - destruct a; try discriminate. simpl. rewrite app_nil_r.
    by apply doWrite_step_inv.
Qed.

Lemma appended_cons (a : action Event) acts :
  appended (a :: acts) = appended [a] ++ appended acts.
Proof. by destruct a. Qed.

Lemma appended_app (acts1 acts2 : list (action Event)) :
  appended (acts1 ++ acts2) = appended acts1 ++ appended acts2.
Proof. apply omap_app. Qed.

Lemma exec_app acts1 : forall acts2 σ,
  exec enc (acts1 ++ acts2) σ =
  match exec enc acts1 σ with Some σ1 => exec enc acts2 σ1 | None => None end.
Proof.
  induction acts1 as [|a acts1 IH]; intros acts2 σ; simpl; [done|].
  destruct (fstep enc a σ); [apply IH|done].
Qed.

Lemma exec_inv acts : forall evs σ σ',
  finv evs σ -> exec enc acts σ = Some σ' -> finv (evs ++ appended acts) σ'.
Proof.
  induction acts as [|a acts IH]; intros evs σ σ' Hinv Hex; simpl in Hex.
  - injection Hex as <-. by rewrite app_nil_r.
  - destruct (fstep enc a σ) as [σ1|] eqn:Hstep; [|discriminate].
    apply (fstep_inv _ _ _ _ Hinv) in Hstep.
    apply (IH _ _ _ Hstep) in Hex.
    by rewrite appended_cons, app_assoc.
Qed.

Lemma exec_reachable_inv f acts σ :
  exec enc acts (open_sink f) = Some σ -> finv (appended acts) σ.
Proof. intros Hex. apply (exec_inv acts [] _ _ (open_sink_inv f) Hex). Qed.

(** The swap hands the loop exactly what was pending, and leaves nothing. *)
Lemma swap_step evs σ ok :
  finv evs σ -> pc σ = FSwap ok ->
  exists σ', doWrite_step enc σ = Some σ'
    /\ batches σ' = batches σ ++ [pending (fmem σ)]
    /\ batch (fmem σ') = pending (fmem σ)
    /\ pending (fmem σ') = []
    /\ pc σ' = FRange ok 0 (length (pending (fmem σ))).
Proof.
  intros [Hm _ _ _ _] Hpc. unfold doWrite_step. rewrite Hpc.
  destruct (swap_spec _ Hm) as (_ & Hp & Hb & Hl & _).
  eexists. split; [done|]. simpl. rewrite Hb. repeat split; try done.
  f_equal. by rewrite <- Hl.
Qed.

(** One pass of [for i, evt := range buf]: the step is the same whether
    the encoder fails or not, up to the line added to the log. *)
Lemma range_step evs σ ok i n :
  finv evs σ -> pc σ = FRange ok i n -> i < n ->
  exists evt err f' k',
    batch (fmem σ) !! i = Some evt
    /\ enc evt (kept σ) (w σ) = (f', k', err)
    /\ doWrite_step enc σ =
       Some (FSys (clear i (fmem σ)) (FRange ok (S i) n) f' (log_err err (errlog σ))
                  (batches σ) (encoded σ ++ [(evt, err)]) k').
Proof.
  intros [Hm _ _ Hr _] Hpc Hlt. rewrite Hpc in Hr. destruct Hr as [-> _].
  destruct (lookup_lt_is_Some_2 (batch (fmem σ)) i) as [evt Hevt].
  { rewrite batch_length by done. lia. }
  destruct (enc evt (kept σ) (w σ)) as [[f' k'] err] eqn:Henc.
  exists evt, err, f', k'. split; [done|]. split; [done|].
  unfold doWrite_step. rewrite Hpc. rewrite decide_True by done.
  rewrite (load_lookup _ _ _ _ Hevt), Henc. done.
Qed.

(** The rest of a batch is handed to the encoder whatever the encoder
    answers, one log line per failure, and the loop then leaves the batch. *)
Lemma drain_batch evs k : forall σ ok i n,
  finv evs σ -> pc σ = FRange ok i n -> k = n - i ->
  exists σ' results,
    exec enc (replicate k AWrite) σ = Some σ'
    /\ finv evs σ'
    /\ pc σ' = FRange ok n n
    /\ encoded σ' = encoded σ ++ results
    /\ results.*1 = drop i (batch (fmem σ))
    /\ errlog σ' = errlog σ ++ omap snd results
    /\ pending (fmem σ') = pending (fmem σ).
Proof.
  induction k as [|k IH]; intros σ ok i n Hinv Hpc Hk.
  - pose proof (finv_range _ _ Hinv) as Hr. rewrite Hpc in Hr. destruct Hr as [Hn Hi].
    assert (i = n) as -> by lia.
    exists σ, []. simpl. rewrite !app_nil_r.
    do 4 (split; [done|]). split; [|done].
    symmetry. apply drop_ge. rewrite batch_length by apply Hinv. lia.
  - destruct (range_step _ _ _ _ _ Hinv Hpc) as (evt & err & f' & k' & Hevt & Henc & Hstep); [lia|].
    pose proof (doWrite_step_inv _ _ _ Hinv Hstep) as Hinv1.
    edestruct (IH _ ok (S i) n Hinv1) as (σ' & results & Hex & Hinv' & Hpc' & Henc' & Hres & Hlog & Hpend);
      [done|lia|].
    exists σ', ((evt, err) :: results).
    split; [simpl; by rewrite Hstep|]. split; [done|]. split; [done|].
    simpl in Henc', Hres, Hlog, Hpend.
    split; [by rewrite Henc', <- app_assoc|].
    destruct (clear_spec i (fmem σ) (finv_mem _ _ Hinv)) as (_ & Hp & Hb & _ & _).
    split.
    + rewrite fmap_cons, Hres, Hb, drop_insert_lt by lia.
      by rewrite (drop_S _ _ _ Hevt).
    + split; [|by rewrite Hpend, Hp].
      rewrite Hlog. destruct err as [e|]; [|done].
      change (omap snd ((evt, Some e) :: results)) with (e :: omap snd results).
      unfold log_err. by rewrite <- app_assoc.
Qed.

Lemma leave_batch σ ok n :
  pc σ = FRange ok n n ->
  doWrite_step enc σ =
  Some (if ok
        then FSys (fmem σ) FRecv (w σ) (errlog σ) (batches σ) (encoded σ) (kept σ)
        else FSys (fmem σ) FDone (file_Close (w σ)).1 (errlog σ) (batches σ) (encoded σ)
                  (kept σ)).
Proof.
  intros Hpc. unfold doWrite_step. rewrite Hpc.
  rewrite decide_False by lia. by destruct ok.
Qed.

(** *** Termination: every step of the loop lowers [potential] *)

Lemma pending_length m : mem_ok m -> length (pending m) = s_len (buf (tracer m)).
Proof. intros (Hb & _). by apply view_length. Qed.

Lemma potential_write evs σ σ' :
  finv evs σ -> doWrite_step enc σ = Some σ' -> S (potential σ') <= potential σ.
Proof.
  intros [Hm Hb He Hr Hc]. unfold doWrite_step, potential.
  destruct σ as [m p f l bs es kp]; simpl in *. destruct p as [|ok|ok i n|]; simpl in *.
  - unfold Chan.recv. destruct (ch (tracer m)) as [[|k] cl]; simpl.
    + destruct cl; [|discriminate]. intros [= <-]. simpl. lia.
    + intros [= <-]. simpl. rewrite !andb_true_r. destruct cl; lia.
  - intros [= <-]. simpl. lia.
  - case_decide.
    + destruct (enc _ _ f) as [[? ?] ?]. intros [= <-]. simpl. lia.
    + destruct ok; intros [= <-]; simpl; rewrite ?andb_true_r, ?andb_false_r; lia.
  - discriminate.
Qed.

Lemma potential_step evs a σ σ' :
  finv evs σ -> fstep enc a σ = Some σ' ->
  potential σ' + (if is_producer a then 0 else 1) <= potential σ + weight a.
Proof.
  intros Hinv. destruct a as [e| | |]; simpl.
  - intros [= <-]. unfold potential. simpl.
    destruct (Trace_append_spec e _ (finv_mem _ _ Hinv)) as (Hm' & Hp & _ & _ & ->).
    apply (f_equal length) in Hp. rewrite length_app in Hp. simpl in Hp.
    rewrite !pending_length in Hp by (done || apply Hinv). lia.
  - unfold Trace_signal. destruct (Chan.select_send_default _) as [c| |] eqn:Hs; try discriminate.
    intros [= <-]. unfold potential. simpl.
    destruct (chan_select_len _ _ (proj2 (proj2 (proj2 (finv_mem _ _ Hinv)))) Hs) as [-> ->].
    unfold Chan.cap. lia.
  - unfold Close, Chan.close. destruct (Chan.closed _) eqn:Hcl; try discriminate.
    intros [= <-]. unfold potential. simpl. rewrite Hcl. simpl.
    destruct (pc_ok (pc σ)); lia.
  - intros Hstep. pose proof (potential_write _ _ _ Hinv Hstep). lia.
Qed.

Lemma potential_exec acts : forall evs σ σ',
  finv evs σ -> exec enc acts σ = Some σ' ->
  potential σ' + loop_steps acts <= potential σ + total_weight acts.
Proof.
  induction acts as [|a acts IH]; intros evs σ σ' Hinv Hex; simpl in Hex.
  - injection Hex as <-. unfold loop_steps, total_weight. simpl. lia.
  - destruct (fstep enc a σ) as [σ1|] eqn:Hstep; [|discriminate].
    pose proof (potential_step _ _ _ _ Hinv Hstep) as Hpot.
    apply (fstep_inv _ _ _ _ Hinv) in Hstep.
    specialize (IH _ _ _ Hstep Hex).
    unfold loop_steps, total_weight in *. simpl.
    destruct (is_producer a); simpl; lia.
Qed.

End FileSinkFacts.

(** ** Writes at an offset *)

Lemma write_at_end (d bs : list byte) : write_at (length d) bs d = d ++ bs.
Proof.
  unfold write_at. rewrite firstn_all, Nat.sub_diag, drop_ge by lia.
  simpl. by rewrite app_nil_r.
Qed.


(** ** Runs of a file sink without failures *)

Section HappyRuns.
Context {Event : Type} `{!Runtime Event}.
Variable frame : Event -> option (list byte).
Implicit Types (m : mem Event) (σ : fsys Event) (evs : list Event) (e : Event).

Lemma open_sink_happy : happy frame (open_sink (Event := Event) (truncated_file [])).
Proof. split; simpl; done. Qed.

Lemma happy_write sticky evs σ σ' :
  finv evs σ -> happy frame σ -> Forall (fun e => is_Some (frame e)) evs ->
  doWrite_step (encode_with sticky frame) σ = Some σ' -> happy frame σ'.
Proof.
  intros Hinv [Hf Ho Hcl Hl Hk [Happ Hpos] Hd] Hall Hstep.
  destruct (pc σ) as [|ok|ok i n|] eqn:Hpc.
  - unfold doWrite_step in Hstep. rewrite Hpc in Hstep.
    destruct (Chan.recv _) as [[c ok]|]; [|discriminate].
    injection Hstep as <-. split; simpl; try done. intros _. by apply Ho.
  - unfold doWrite_step in Hstep. rewrite Hpc in Hstep.
    injection Hstep as <-. split; simpl; try done. intros _. by apply Ho.
  - destruct (decide (i < n)) as [Hlt|Hge].
    + destruct (range_step (encode_with sticky frame) _ _ _ _ _ Hinv Hpc Hlt)
        as (evt & err & f' & k' & Hevt & Henc & Hs).
      rewrite Hs in Hstep. injection Hstep as <-.
      assert (evt ∈ evs) as Hin.
      { rewrite <- (finv_encoded _ _ Hinv). unfold unencoded. rewrite Hpc.
        apply elem_of_app. right. apply elem_of_app. left.
        apply (list_elem_of_lookup_2 _ 0). rewrite lookup_drop, Nat.add_0_r. done. }
      rewrite Forall_forall in Hall. destruct (Hall _ Hin) as [bs Hbs].
      unfold encode_with, file_Write, file_put in Henc.
      rewrite Hk, Hbs, Ho, Hf, Happ, Hpos, write_at_end in Henc by done.
      assert (f' = File (f_data (w σ) ++ bs) (length (f_data (w σ)) + length bs)
                        false false []
              /\ k' = None /\ err = None) as (-> & -> & ->).
      { destruct sticky; by injection Henc as <- <- <-. }
      split; simpl; try done.
      * split; [done|]. by rewrite length_app.
      * rewrite fmap_app, map_app, concat_app, Hd. simpl.
        rewrite app_nil_r.
        replace (frame_bytes frame evt) with bs; [done|].
        unfold frame_bytes. by rewrite Hbs.
    + pose proof (finv_range _ _ Hinv) as Hr. rewrite Hpc in Hr.
      assert (i = n) as -> by lia.
      rewrite (leave_batch (encode_with sticky frame) _ _ _ Hpc) in Hstep.
      injection Hstep as <-.
      destruct ok; split; simpl; try done;
        try (intros _; by apply Ho);
        unfold file_Close; by rewrite Ho.
  - unfold doWrite_step in Hstep. rewrite Hpc in Hstep. discriminate.
Qed.

Lemma happy_step sticky evs a σ σ' :
  finv evs σ -> happy frame σ -> Forall (fun e => is_Some (frame e)) evs ->
  fstep (encode_with sticky frame) a σ = Some σ' -> happy frame σ'.
Proof.
  intros Hinv Hh Hall. destruct a; simpl;
    try (destruct (lift _) as [m'|]; [|discriminate]);
    try (intros [= <-]; destruct Hh; split; simpl; done).
  by apply happy_write with evs.
Qed.

Lemma happy_exec sticky acts : forall evs σ σ',
  finv evs σ -> happy frame σ ->
  Forall (fun e => is_Some (frame e)) (evs ++ appended acts) ->
  exec (encode_with sticky frame) acts σ = Some σ' -> happy frame σ'.
Proof.
  induction acts as [|a acts IH]; intros evs σ σ' Hinv Hh Hall Hex; simpl in Hex.
  - by injection Hex as <-.
  - destruct (fstep _ a σ) as [σ1|] eqn:Hstep; [|discriminate].
    rewrite appended_cons, app_assoc in Hall.
    apply (IH (evs ++ appended [a]) σ1); try done.
    + by apply (fstep_inv (encode_with sticky frame) evs a σ σ1).
    + apply (happy_step sticky evs a σ); try done.
      apply Forall_app in Hall as [Hall _]. by apply Forall_app in Hall as [Hall _].
Qed.

End HappyRuns.

(** ** Reading newline-delimited records back *)

Lemma split_records_frame bs : forall cur rest,
  newline ∉ bs ->
  split_records cur (bs ++ newline :: rest) =
  match split_records [] rest with
  | Some recs => Some ((rev cur ++ bs) :: recs)
  | None => None
  end.
Proof.
  induction bs as [|b bs IH]; intros cur rest Hnl; simpl.
  - by rewrite app_nil_r.
  - apply not_elem_of_cons in Hnl as [Hb Hbs].
    destruct (Byte.eqb b newline) eqn:Heq.
    + apply byte_dec_bl in Heq. congruence.
    + rewrite IH by done. simpl. by rewrite <- app_assoc.
Qed.

Lemma ndjson_roundtrip {Event} (marshal : Event -> option (list byte)) unmarshal evs :
  Forall (json_codec_ok marshal unmarshal) evs ->
  ndjson_decode unmarshal (concat (map (frame_bytes (json_frame marshal)) evs)) = Some evs.
Proof.
  unfold ndjson_decode. induction 1 as [|e evs (bs & Hm & Hnl & Hu) _ IH]; simpl; [done|].
  unfold frame_bytes at 1, json_frame at 1. rewrite Hm. simpl.
  rewrite <- app_assoc. simpl. rewrite split_records_frame by done.
  destruct (split_records [] _) as [recs|]; [|done].
  simpl. rewrite Hu. by rewrite IH.
Qed.

(** ** From [Close] to the return of the loop *)

Section Shutdown.
Context {Event : Type} `{!Runtime Event}.
Variable enc : Event -> option error -> file -> file * option error * option error.
Implicit Types (m : mem Event) (σ : fsys Event) (evs : list Event) (e : Event).
Implicit Types (a : action Event) (acts : list (action Event)).

Lemma closed_step a σ σ' :
  fstep enc a σ = Some σ' ->
  Chan.closed (chan_of σ) = true -> Chan.closed (chan_of σ') = true.
Proof.
  unfold chan_of. destruct a as [e| | |]; simpl.
  - intros [= <-]. simpl. unfold Trace_append. by destruct (go_append _ _ _).
  - intros Hs Hc. unfold Trace_signal in Hs.
    rewrite chan_select_closed in Hs by done. discriminate.
  - intros Hs Hc. unfold Close, Chan.close in Hs. rewrite Hc in Hs. discriminate.
  - unfold doWrite_step. destruct (pc σ) as [|ok|ok i n|].
    + destruct (Chan.recv _) as [[c ok]|] eqn:Hr; [|discriminate].
      intros [= <-] Hc. simpl. by rewrite (chan_recv_keeps_closed _ _ _ Hr).
    + by intros [= <-].
    + case_decide; [destruct (enc _ _ _) as [[? ?] ?]|destruct ok]; by intros [= <-].
    + discriminate.
Qed.

Lemma closed_exec acts : forall σ σ',
  exec enc acts σ = Some σ' ->
  Chan.closed (chan_of σ) = true -> Chan.closed (chan_of σ') = true.
Proof.
  induction acts as [|a acts IH]; intros σ σ' Hex Hc; simpl in Hex.
  - by injection Hex as <-.
  - destruct (fstep enc a σ) as [σ1|] eqn:Hstep; [|discriminate].
    apply (IH σ1); [done|]. by apply (closed_step a σ).
Qed.

Lemma Close_step σ σ' :
  fstep enc AClose σ = Some σ' ->
  Chan.closed (chan_of σ) = false
  /\ Chan.closed (chan_of σ') = true
  /\ pc σ' = pc σ /\ pending (fmem σ') = pending (fmem σ).
Proof.
  unfold chan_of. simpl. unfold Close, Chan.close.
  destruct (Chan.closed _) eqn:Hc; [discriminate|].
  by intros [= <-].
Qed.

Lemma sealed_open evs σ :
  finv evs σ -> Chan.closed (chan_of σ) = false -> sealed σ.
Proof.
  intros Hinv Hc. pose proof (finv_closed _ _ Hinv) as Hcl.
  unfold sealed, chan_of in *.
  destruct (pc σ) as [|ok|[] i n|]; simpl in *; try done.
  - rewrite Hcl in Hc by done. discriminate.
  - rewrite Hcl in Hc by done. discriminate.
Qed.

Lemma sealed_write evs σ σ' :
  finv evs σ -> sealed σ -> doWrite_step enc σ = Some σ' -> sealed σ'.
Proof.
  intros Hinv Hs. unfold doWrite_step, sealed in *.
  destruct (pc σ) as [|ok|ok i n|] eqn:Hpc.
  - destruct (Chan.recv _) as [[c ok]|]; [|discriminate]. by intros [= <-].
  - intros [= <-]. simpl.
    destruct (swap_spec _ (finv_mem _ _ Hinv)) as (_ & -> & _). by destruct ok.
  - case_decide.
    + destruct (enc _ _ _) as [[? ?] ?]. intros [= <-]. simpl.
      destruct (clear_spec i _ (finv_mem _ _ Hinv)) as (_ & -> & _). done.
    + destruct ok; by intros [= <-].
  - discriminate.
Qed.

Lemma sealed_writes acts : forall evs σ σ',
  Forall (fun a => is_producer a = false) acts ->
  finv evs σ -> sealed σ -> exec enc acts σ = Some σ' ->
  sealed σ' /\ finv evs σ'.
Proof.
  induction acts as [|a acts IH]; intros evs σ σ' Hall Hinv Hs Hex; simpl in Hex.
  - by injection Hex as <-.
  - apply Forall_cons in Hall as [Ha Hall].
    destruct a; try discriminate. simpl in Hex.
    destruct (doWrite_step enc σ) as [σ1|] eqn:Hstep; [|discriminate].
    apply (IH evs σ1); try done.
    + by apply (doWrite_step_inv enc evs σ).
    + by apply (sealed_write evs σ).
Qed.

(** With the channel closed, the loop is never blocked: it runs until it
    has returned. *)
Lemma stuck_closed σ :
  Chan.closed (chan_of σ) = true -> doWrite_step enc σ = None -> pc σ = FDone.
Proof.
  unfold chan_of, doWrite_step. intros Hc.
  destruct (pc σ) as [|ok|ok i n|]; try done.
  - unfold Chan.recv. rewrite Hc. by destruct (Chan.len _).
  - case_decide; [destruct (enc _ _ _) as [[? ?] ?]|destruct ok]; done.
Qed.

(** *** Counting the actions of an execution *)

Lemma producer_actions_split acts : forall l x,
  producer_actions acts = l ++ [x] ->
  exists acts1 acts2,
    acts = acts1 ++ x :: acts2
    /\ producer_actions acts1 = l
    /\ Forall (fun a => is_producer a = false) acts2.
Proof.
  unfold producer_actions.
  induction acts as [|a acts IH] using rev_ind; intros l x Hf.
  - by destruct l.
  - rewrite List.filter_app in Hf. simpl in Hf.
    destruct (is_producer a) eqn:Ha.
    + apply app_inj_tail in Hf as [Hl ->].
      exists acts, []. by rewrite Hl.
    + rewrite app_nil_r in Hf.
      destruct (IH _ _ Hf) as (acts1 & acts2 & -> & Hl & Hall).
      exists acts1, (acts2 ++ [a]). rewrite <- app_assoc. split; [done|].
      split; [done|]. apply Forall_app. split; [done|]. by apply Forall_singleton.
Qed.

Lemma total_weight_producers acts :
  total_weight acts = total_weight (producer_actions acts).
Proof.
  unfold total_weight, producer_actions.
  induction acts as [|a acts IH]; simpl; [done|].
  destruct a; simpl; lia.
Qed.

Lemma appended_producers acts : appended acts = appended (producer_actions acts).
Proof.
  unfold producer_actions. induction acts as [|a acts IH]; [done|].
  rewrite appended_cons. destruct a; simpl; by rewrite ?IH.
Qed.

Lemma length_actions acts :
  length acts = length (producer_actions acts) + loop_steps acts.
Proof.
  unfold producer_actions, loop_steps.
  induction acts as [|a acts IH]; simpl; [done|].
  destruct (is_producer a); simpl; lia.
Qed.

Lemma Trace_calls_facts evs :
  appended (Trace_calls evs ++ [AClose]) = evs
  /\ total_weight (Trace_calls evs ++ [AClose]) = 4 * length evs + 3
  /\ length (Trace_calls evs ++ [AClose]) = 2 * length evs + 1.
Proof.
  induction evs as [|e evs (IH1 & IH2 & IH3)]; [done|].
  unfold total_weight in *. simpl in *. rewrite IH2, IH3.
  split; [|lia]. unfold appended in *. simpl. by rewrite IH1.
Qed.

End Shutdown.

(** ** A producer, then [Close]: the file sink drains and returns *)

Section Drain.
Context {Event : Type} `{!Runtime Event}.
Variable frame : Event -> option (list byte).
Implicit Types (σ : fsys Event) (evs : list Event).
Implicit Types (acts : list (action Event)).

Lemma file_sink_drains sticky evs acts σ :
  Forall (fun e => is_Some (frame e)) evs ->
  exec (encode_with sticky frame) acts (open_sink (truncated_file [])) = Some σ ->
  producer_actions acts = Trace_calls evs ++ [AClose] ->
  length acts <= 6 * length evs + 4
  /\ (doWrite_step (encode_with sticky frame) σ = None ->
      pc σ = FDone
      /\ f_closed (w σ) = true
      /\ f_data (w σ) = concat (map (frame_bytes frame) evs)
      /\ errlog σ = []).
Proof.
  intros Hall Hex Hprod.
  destruct (Trace_calls_facts evs) as (Happ & Hw & Hlen).
  assert (appended acts = evs) as Hevs.
  { by rewrite appended_producers, Hprod. }
  pose proof (exec_reachable_inv _ _ _ _ Hex) as Hinv. rewrite Hevs in Hinv.
  split.
  - pose proof (potential_exec _ _ _ _ _ (open_sink_inv _) Hex) as Hpot.
    rewrite total_weight_producers, Hprod, Hw in Hpot.
    rewrite length_actions, Hprod, Hlen.
    change (potential (open_sink (truncated_file []))) with 0 in Hpot. lia.
  - intros Hstuck.
    assert (happy frame σ) as Hh.
    { apply (happy_exec frame sticky acts [] _ _ (open_sink_inv _) (open_sink_happy frame));
        [|done].
      simpl. by rewrite Hevs. }
    destruct (producer_actions_split _ _ _ Hprod) as (acts1 & acts2 & -> & _ & Hw2).
    rewrite exec_app in Hex.
    destruct (exec _ acts1 _) as [σ1|] eqn:Hex1; [|discriminate].
    cbn [exec] in Hex.
    destruct (fstep _ AClose σ1) as [σ2|] eqn:Hcl; [|discriminate].
    pose proof (exec_reachable_inv _ _ _ _ Hex1) as Hinv1.
    pose proof (fstep_inv _ _ _ _ _ Hinv1 Hcl) as Hinv2.
    destruct (Close_step _ _ _ Hcl) as (Hopen & Hclosed & Hpc & Hpend).
    assert (sealed σ2) as Hs2.
    { pose proof (sealed_open _ _ Hinv1 Hopen) as Hs1.
      unfold sealed in *. by rewrite Hpc, Hpend. }
    destruct (sealed_writes _ _ _ _ _ Hw2 Hinv2 Hs2 Hex) as [Hs _].
    pose proof (closed_exec _ _ _ _ Hex Hclosed) as Hc.
    pose proof (stuck_closed _ _ Hc Hstuck) as Hdone.
    split; [done|]. split; [by apply (happy_closed _ _ Hh)|].
    split; [|by apply (happy_log _ _ Hh)].
    rewrite (happy_data _ _ Hh). do 2 f_equal.
    pose proof (finv_encoded _ _ Hinv) as He.
    unfold sealed, unencoded in *. rewrite Hdone in *.
    rewrite Hs in He. by rewrite !app_nil_r in He.
Qed.

End Drain.

(** ** The connection manager *)

Lemma openStream_eq ctx n :
  openStream ctx n =
  match connect ctx n with
  | (Err e, n1) => (Err e, n1)
  | (Waiting, n1) => (Waiting, n1)
  | (Ok _, n1) =>
      match replies n1 with
      | [] => (Waiting, n1)
      | r :: rest =>
          match NewStream_attempt ctx n1 r rest with
          | inl res => res
          | inr n2 => openStream ctx n2
          end
      end
  end.
Proof.
  destruct (connect ctx n) as [r0 n0] eqn:H0.
  rewrite openStream_equation_1.
  destruct (inspect (connect ctx n)) as [[r n1] H].
  assert (r = r0 /\ n1 = n0) as [-> ->] by (rewrite H0 in H; by injection H).
  simpl. clear H0.
  destruct r0 as [[]| |]; try done.
  destruct (replies n0) as [|rp0 rest0] eqn:H2; simpl;
    destruct (inspect (replies n0)) as [[|rp rest] H1]; simpl;
    rewrite H2 in H1; try done.
  injection H1 as <- <-.
  unfold NewStream_attempt.
  destruct (rp_ok rp0); [done|]. destruct (cancelled _ _); [done|].
  destruct (backoff _ _ _); done.
Qed.

Lemma minute_pos : (0 < minute)%Z.
Proof. done. Qed.

(** While the context lives through the wait, the timer fires, a minute
    after the failure. *)
Lemma backoff_alive ctx tie t :
  cancelled ctx (t + minute) = false -> backoff ctx tie t = inl (t + minute)%Z.
Proof.
  unfold cancelled, backoff. destruct (cancel_at ctx) as [c|]; [|done].
  intros Hc. apply Z.leb_gt in Hc.
  destruct (c <? t + minute)%Z eqn:H1; [apply Z.ltb_lt in H1; lia|].
  destruct (c =? t + minute)%Z eqn:H2; [apply Z.eqb_eq in H2; lia|]. done.
Qed.

Lemma cancelled_mono ctx t t' :
  (t <= t')%Z -> cancelled ctx t' = false -> cancelled ctx t = false.
Proof.
  unfold cancelled. destruct (cancel_at ctx) as [c|]; [|done].
  intros Hle Hc. apply Z.leb_gt in Hc. apply Z.leb_gt. lia.
Qed.

(** Cancelled during the wait: [ctx.Done()] wins, at the instant of the
    cancellation. *)
Lemma backoff_cancelled ctx tie t c :
  cancel_at ctx = Some c -> (t < c < t + minute)%Z -> backoff ctx tie t = inr c.
Proof.
  unfold backoff. intros -> [H1 H2].
  destruct (c <? t + minute)%Z eqn:H3; [|apply Z.ltb_ge in H3; lia].
  f_equal. lia.
Qed.

Lemma connect_retry ctx t r rest cs k :
  rp_ok r = false ->
  cancelled ctx (t + rp_dur r + minute) = false ->
  connect ctx (Net t (r :: rest) cs k) =
  connect ctx (Net (t + rp_dur r + minute) rest (cs ++ [CConnect t]) k).
Proof.
  intros Hok Hc. unfold connect. simpl. rewrite Hok.
  rewrite (cancelled_mono ctx (t + rp_dur r) (t + rp_dur r + minute)) by (done || (pose proof minute_pos; lia)).
  by rewrite backoff_alive.
Qed.

Lemma connect_cancelled ctx t r rest cs k :
  rp_ok r = false ->
  cancelled ctx (t + rp_dur r) = true ->
  connect ctx (Net t (r :: rest) cs k) =
  (Err ErrHost, Net (t + rp_dur r) rest (cs ++ [CConnect t]) k).
Proof.
  intros Hok Hc. unfold connect. simpl. by rewrite Hok, Hc.
Qed.

Lemma connect_cancelled_waiting ctx t r rest cs k c :
  rp_ok r = false ->
  cancel_at ctx = Some c ->
  (t + rp_dur r < c < t + rp_dur r + minute)%Z ->
  connect ctx (Net t (r :: rest) cs k) =
  (Err ErrCanceled, Net c rest (cs ++ [CConnect t]) k).
Proof.
  intros Hok Hc Hlt. unfold connect. simpl. rewrite Hok.
  assert (cancelled ctx (t + rp_dur r) = false) as ->.
  { unfold cancelled. rewrite Hc. apply Z.leb_gt. lia. }
  by rewrite (backoff_cancelled ctx _ _ c).
Qed.

Lemma connect_ok ctx t r rest cs k :
  rp_ok r = true ->
  connect ctx (Net t (r :: rest) cs k) =
  (Ok tt, Net (t + rp_dur r) rest (cs ++ [CConnect t]) k).
Proof. intros Hok. unfold connect. simpl. by rewrite Hok. Qed.

Lemma openStream_retry ctx n n1 r rest :
  connect ctx n = (Ok tt, n1) ->
  replies n1 = r :: rest ->
  rp_ok r = false ->
  cancelled ctx (now n1 + rp_dur r + minute) = false ->
  openStream ctx n =
  openStream ctx (Net (now n1 + rp_dur r + minute) rest
                      (calls n1 ++ [CNewStream (now n1)]) (opened n1)).
Proof.
  intros Hc Hr Hok Hal. rewrite openStream_eq, Hc, Hr.
  unfold NewStream_attempt. rewrite Hok.
  rewrite (cancelled_mono ctx (now n1 + rp_dur r) (now n1 + rp_dur r + minute))
    by (done || (pose proof minute_pos; lia)).
  by rewrite backoff_alive.
Qed.

Lemma openStream_cancelled ctx n n1 r rest :
  connect ctx n = (Ok tt, n1) ->
  replies n1 = r :: rest ->
  rp_ok r = false ->
  cancelled ctx (now n1 + rp_dur r) = true ->
  openStream ctx n =
  (Err ErrHost, Net (now n1 + rp_dur r) rest
                    (calls n1 ++ [CNewStream (now n1)]) (opened n1)).
Proof.
  intros Hc Hr Hok Hal. rewrite openStream_eq, Hc, Hr.
  unfold NewStream_attempt. by rewrite Hok, Hal.
Qed.

Lemma openStream_cancelled_waiting ctx n n1 r rest c :
  connect ctx n = (Ok tt, n1) ->
  replies n1 = r :: rest ->
  rp_ok r = false ->
  cancel_at ctx = Some c ->
  (now n1 + rp_dur r < c < now n1 + rp_dur r + minute)%Z ->
  openStream ctx n =
  (Err ErrCanceled, Net c rest (calls n1 ++ [CNewStream (now n1)]) (opened n1)).
Proof.
  intros Hc Hr Hok Hca Hlt. rewrite openStream_eq, Hc, Hr.
  unfold NewStream_attempt. rewrite Hok.
  assert (cancelled ctx (now n1 + rp_dur r) = false) as ->.
  { unfold cancelled. rewrite Hca. apply Z.leb_gt. lia. }
  by rewrite (backoff_cancelled ctx _ _ c).
Qed.

(** A context that is never cancelled: neither loop ever gives up. *)
Lemma connect_never_gives_up ctx rs : forall t cs k e,
  cancel_at ctx = None -> (connect_from ctx rs t cs k).1 <> Err e.
Proof.
  induction rs as [|r rs IH]; intros t cs k e Hc; simpl; [done|].
  destruct (rp_ok r); [done|].
  unfold cancelled, backoff. rewrite Hc. by apply IH.
Qed.

Lemma openStream_never_gives_up ctx e :
  cancel_at ctx = None -> forall n, (openStream ctx n).1 <> Err e.
Proof.
  intros Hc n. remember (length (replies n)) as len eqn:Hlen.
  revert n Hlen. induction (lt_wf len) as [len _ IH]. intros n ->.
  rewrite openStream_eq.
  destruct (connect ctx n) as [[[]|e'|] n1] eqn:Hcon; simpl; [| |done].
  - destruct (replies n1) as [|r rest] eqn:Hr; [done|].
    unfold NewStream_attempt, cancelled, backoff. rewrite Hc.
    destruct (rp_ok r); [done|].
    apply (IH (length rest)); [|done].
    apply connect_replies in Hcon. rewrite Hr in Hcon. simpl in Hcon. lia.
  - pose proof (connect_never_gives_up ctx (replies n) (now n) (calls n) (opened n) e' Hc) as Hn.
    unfold connect in Hcon. by rewrite Hcon in Hn.
Qed.

(** Streams are named in the order in which the host opens them. *)
Lemma connect_from_opened ctx rs : forall t cs k,
  opened (connect_from ctx rs t cs k).2 = k.
Proof.
  induction rs as [|r rs IH]; intros t cs k; simpl; [done|].
  destruct (rp_ok r); [done|]. destruct (cancelled _ _); [done|].
  destruct (backoff _ _ _); [apply IH|done].
Qed.

Lemma openStream_opened ctx : forall n,
  opened n <= opened (openStream ctx n).2
  /\ forall s, (openStream ctx n).1 = Ok s ->
       opened n <= s /\ opened (openStream ctx n).2 = S s.
Proof.
  intros n. remember (length (replies n)) as len eqn:Hlen.
  revert n Hlen. induction (lt_wf len) as [len _ IH]. intros n ->.
  rewrite openStream_eq.
  pose proof (connect_from_opened ctx (replies n) (now n) (calls n) (opened n)) as Hk.
  fold (connect ctx n) in Hk.
  destruct (connect ctx n) as [[[]|e'|] n1] eqn:Hcon; simpl in *;
    [|split; [lia|done]|split; [lia|done]].
  destruct (replies n1) as [|r rest] eqn:Hr; simpl; [split; [lia|done]|].
  unfold NewStream_attempt.
  destruct (rp_ok r); simpl; [split; [lia|]; intros s [= <-]; lia|].
  destruct (cancelled _ _); simpl; [split; [lia|done]|].
  destruct (backoff _ _ _) as [t2|tc]; simpl; [|split; [lia|done]].
  assert (length rest < length (replies n)) as Hlt.
  { apply connect_replies in Hcon. rewrite Hr in Hcon. simpl in Hcon. lia. }
  destruct (IH (length rest) Hlt
              (Net t2 rest (calls n1 ++ [CNewStream (now n1)]) (opened n1)) eq_refl)
    as [H1 H2].
  simpl in *. split; [lia|]. intros s Hs. specialize (H2 s Hs). lia.
Qed.

(** ** The write loop of the remote sink *)

Section RemoteFacts.
Context {Event : Type} `{!Runtime Event}.
Implicit Types (m : mem Event) (σ : rsys Event) (evs : list Event) (e : Event).
Implicit Types (a : action Event) (acts : list (action Event)).
Implicit Types (tr : list (effect Event)).

Lemma swapped_snoc tr (x : effect Event) :
  swapped (tr ++ [x]) = swapped tr ++ match x with ESwap b => [b] | _ => [] end.
Proof. unfold swapped. rewrite omap_app. by destruct x. Qed.

Lemma sent_snoc tr (x : effect Event) :
  sent (tr ++ [x]) = sent tr ++ match x with EWriteMsg _ b _ => [b] | _ => [] end.
Proof. unfold sent. rewrite omap_app. by destruct x. Qed.

Lemma last_result_snoc tr (x : effect Event) :
  last_result (tr ++ [x]) =
  match x with EWriteMsg _ _ r | EFlush _ r => r | _ => None end.
Proof. unfold last_result. by rewrite last_snoc. Qed.

Lemma new_remote_inv ctx host io : rinv [] (new_remote (Event := Event) ctx host io).
Proof. split; simpl; try done. apply new_mem_ok. Qed.

Lemma batch_nil m : mem_ok m -> s_len (lbuf m) = 0 -> batch m = [].
Proof.
  intros Hm Hl. apply length_zero_iff_nil. by rewrite batch_length.
Qed.

Lemma RemoteTracer_doWrite_inv evs σ σ' :
  rinv evs σ -> RemoteTracer_doWrite σ = Some σ' -> rinv evs σ'.
Proof.
  intros [Hm Hsw Hse Hst Her]. unfold RemoteTracer_doWrite.
  destruct σ as [m p ctx n s g er io tr lg]; simpl in *.
  unfold inflight in Hse; simpl in Hse.
  destruct p as [| |ok|ok|ok|ok|ok|ok| |]; simpl in *.
  - (* the first openStream *)
    destruct (openStream ctx n) as [[sid|e|] n1]; [| |discriminate]; intros [= <-];
      split; simpl; try done.
    + by rewrite swapped_snoc, app_nil_r.
    + by rewrite sent_snoc, app_nil_r.
    + by exists sid.
  - (* receive *)
    destruct (Chan.recv _) as [[c ok]|] eqn:Hrecv; [|discriminate].
    intros [= <-]. split; simpl; try done.
    apply set_ch_ok; [done|]. destruct Hm as (_&_&_&Hl).
    pose proof (chan_recv_len _ _ _ Hrecv). lia.
  - (* nil out the old batch *)
    intros [= <-]. destruct (clear_all_spec m Hm) as (Hm' & Hp & _).
    split; simpl; try done.
    + by rewrite Hp.
    + unfold inflight. simpl. by rewrite Hp.
  - (* sleep *)
    by intros [= <-].
  - (* swap *)
    intros [= <-]. destruct (swap_spec m Hm) as (Hm' & Hp & Hb & Hl & _).
    split; simpl.
    + done.
    + rewrite swapped_snoc, concat_app, Hp, Hb. simpl. by rewrite !app_nil_r.
    + rewrite sent_snoc, app_nil_r, Hp, app_nil_r. unfold inflight. simpl.
      case_decide as Hz; simpl.
      * rewrite app_nil_r. rewrite <- Hb, (batch_nil _ Hm' Hz) in Hse.
        by rewrite app_nil_r in Hse.
      * by rewrite Hb.
    + by case_decide.
    + case_decide; simpl; [|done]. by rewrite last_result_snoc.
  - (* WriteMsg *)
    unfold pop_io. simpl.
    destruct io as [|r io']; simpl.
    + intros [= <-]. split; simpl; try done.
      * by rewrite swapped_snoc, app_nil_r.
      * rewrite sent_snoc, concat_app. simpl.
        unfold inflight. simpl. by rewrite app_nil_r, <- app_assoc.
    + destruct r as [e|]; intros [= <-]; split; simpl; try done;
        try (by rewrite swapped_snoc, app_nil_r);
        try (rewrite sent_snoc, concat_app; simpl;
             unfold inflight; simpl; by rewrite app_nil_r, <- app_assoc).
      by rewrite last_result_snoc.
  - (* Flush *)
    unfold pop_io. simpl.
    destruct io as [|r io']; simpl; intros [= <-]; split; simpl; try done;
      try (by rewrite swapped_snoc, app_nil_r);
      try (by rewrite sent_snoc, app_nil_r);
      by rewrite last_result_snoc.
  - (* the label end *)
    destruct ok, er as [e|]; intros [= <-]; split; simpl; try done;
      try (by rewrite swapped_snoc, app_nil_r);
      try (by rewrite sent_snoc, app_nil_r).
    + unfold swapped in *. rewrite omap_app. simpl. by rewrite app_nil_r.
    + unfold sent in *. rewrite omap_app. simpl. by rewrite app_nil_r.
  - (* openStream after a failure *)
    destruct (openStream ctx n) as [[sid|e|] n1]; [| |discriminate]; intros [= <-];
      split; simpl; try done.
    + by rewrite swapped_snoc, app_nil_r.
    + by rewrite sent_snoc, app_nil_r.
    + by exists sid.
  - discriminate.
Qed.

Lemma rstep_inv evs a σ σ' :
  rinv evs σ -> rstep a σ = Some σ' -> rinv (evs ++ appended [a]) σ'.
Proof.
  intros Hinv. destruct (is_producer a) eqn:Hprod.
  - assert (rstep a σ =
            match mem_step a (r_mem σ) with
            | Some m => Some (set_mem m σ)
            | None => None
            end) as -> by by destruct a.
    destruct (mem_step a (r_mem σ)) as [m'|] eqn:Hstep; [|discriminate].
    intros [= <-]. destruct Hinv as [Hm Hsw Hse Hst Her].
    destruct (mem_step_ok a _ _ Hm Hstep) as (Hm' & Hp & Hbt & Hlb).
    split; simpl; try done.
    + rewrite Hp, app_assoc. by rewrite Hsw.
    + unfold inflight in *. simpl. rewrite Hp, Hbt, !app_assoc.
      rewrite <- (app_assoc _ _ (pending (r_mem σ))). by rewrite Hse.
  - destruct a; try discriminate. simpl. rewrite app_nil_r.
    by apply RemoteTracer_doWrite_inv.
Qed.

Lemma rexec_inv acts : forall evs σ σ',
  rinv evs σ -> rexec acts σ = Some σ' -> rinv (evs ++ appended acts) σ'.
Proof.
  induction acts as [|a acts IH]; intros evs σ σ' Hinv Hex; simpl in Hex.
  - injection Hex as <-. by rewrite app_nil_r.
  - destruct (rstep a σ) as [σ1|] eqn:Hstep; [|discriminate].
    apply (rstep_inv _ _ _ _ Hinv) in Hstep.
    apply (IH _ _ _ Hstep) in Hex.
    by rewrite appended_cons, app_assoc.
Qed.

Lemma rexec_reachable_inv ctx host io acts σ :
  rexec acts (new_remote ctx host io) = Some σ -> rinv (appended acts) σ.
Proof. intros Hex. apply (rexec_inv acts [] _ _ (new_remote_inv _ _ _) Hex). Qed.

(** Once the loop has seen the channel closed, nothing blocks it, and
    every step brings it nearer to its return. *)
Lemma closing_progress σ :
  rpc_ok (r_pc σ) = false -> r_pc σ <> RDone ->
  exists σ', RemoteTracer_doWrite σ = Some σ'
    /\ rank (r_pc σ') < rank (r_pc σ)
    /\ rpc_ok (r_pc σ') = false.
Proof.
  unfold RemoteTracer_doWrite.
  destruct (r_pc σ) as [| |ok|ok|ok|ok|ok|ok| |]; simpl; try done; intros -> _.
  - eexists. split; [done|]. simpl. split; [lia|done].
  - eexists. split; [done|]. simpl. split; [lia|done].
  - eexists. split; [done|]. simpl. case_decide; simpl; split; (lia || done).
  - destruct (pop_io σ) as [[e|] σ1]; eexists; (split; [done|]); simpl; split; (lia || done).
  - destruct (pop_io σ) as [r σ1]; eexists; (split; [done|]); simpl; split; (lia || done).
  - destruct (r_err σ); eexists; (split; [done|]); simpl; split; (lia || done).
Qed.

(** The close check when the channel is closed: two ways to tear down. *)
Lemma end_closing evs σ :
  rinv evs σ -> r_pc σ = REnd false ->
  exists sid σ',
    r_s σ = Some sid /\ r_gz σ = Some sid
    /\ RemoteTracer_doWrite σ = Some σ'
    /\ r_pc σ' = RDone
    /\ r_trace σ' = r_trace σ ++
         match last_result (r_trace σ) with
         | None => [EGzipClose (Some sid); EFullClose (Some sid)]
         | Some _ => [EReset (Some sid)]
         end.
Proof.
  intros Hinv Hpc.
  pose proof (rinv_stream _ _ Hinv) as Hst. pose proof (rinv_err _ _ Hinv) as Her.
  rewrite Hpc in Hst, Her. destruct Hst as (sid & Hs & Hg).
  unfold RemoteTracer_doWrite. rewrite Hpc, Her, Hs, Hg.
  exists sid. destruct (last_result (r_trace σ)); eexists; by repeat split.
Qed.

(** The close check after an error, when the channel is not closed. *)
Lemma end_error evs σ :
  rinv evs σ -> r_pc σ = REnd true -> last_result (r_trace σ) <> None ->
  exists sid σ1,
    r_s σ = Some sid
    /\ RemoteTracer_doWrite σ = Some σ1
    /\ σ1 = set_pc RReconnect (emit [EReset (Some sid)] σ).
Proof.
  intros Hinv Hpc Hlast.
  pose proof (rinv_stream _ _ Hinv) as Hst. pose proof (rinv_err _ _ Hinv) as Her.
  rewrite Hpc in Hst, Her. destruct Hst as (sid & Hs & Hg).
  unfold RemoteTracer_doWrite. rewrite Hpc, Her, Hs.
  exists sid. destruct (last_result (r_trace σ)); [|done].
  eexists. by repeat split.
Qed.

(** The close check after a success, when the channel is not closed. *)
Lemma end_success evs σ :
  rinv evs σ -> r_pc σ = REnd true -> last_result (r_trace σ) = None ->
  RemoteTracer_doWrite σ = Some (set_pc RRecv σ).
Proof.
  intros Hinv Hpc Hlast. pose proof (rinv_err _ _ Hinv) as Her.
  rewrite Hpc in Her. unfold RemoteTracer_doWrite. by rewrite Hpc, Her, Hlast.
Qed.

Lemma RemoteTracer_doWrite_known σ σ' :
  stream_known σ -> RemoteTracer_doWrite σ = Some σ' -> stream_known σ'.
Proof.
  unfold stream_known, RemoteTracer_doWrite. intros Hk.
  destruct σ as [m p ctx n s g er io tr lg]; simpl in *.
  destruct p as [| |ok|ok|ok|ok|ok|ok| |]; simpl.
  - pose proof (openStream_opened ctx n) as [Hle Hs].
    destruct (openStream ctx n) as [[sid|e|] n1]; [| |discriminate]; intros [= <-]; simpl in *.
    + intros ? [= <-]. destruct (Hs sid eq_refl). lia.
    + intros sid Hsid. specialize (Hk sid Hsid). lia.
  - destruct (Chan.recv _) as [[c ok]|]; [|discriminate]. by intros [= <-].
  - by intros [= <-].
  - by intros [= <-].
  - by intros [= <-].
  - unfold pop_io. simpl. destruct io as [|[e|] io']; by intros [= <-].
  - unfold pop_io. simpl. destruct io as [|r io']; by intros [= <-].
  - destruct ok, er; by intros [= <-].
  - pose proof (openStream_opened ctx n) as [Hle Hs].
    destruct (openStream ctx n) as [[sid|e|] n1]; [| |discriminate]; intros [= <-]; simpl in *.
    + intros ? [= <-]. destruct (Hs sid eq_refl). lia.
    + done.
  - discriminate.
Qed.

Lemma RemoteTracer_doWrite_ctx σ σ' :
  RemoteTracer_doWrite σ = Some σ' -> r_ctx σ' = r_ctx σ.
Proof.
  unfold RemoteTracer_doWrite.
  destruct σ as [m p ctx n s g er io tr lg]; simpl in *.
  destruct p as [| |ok|ok|ok|ok|ok|ok| |]; simpl.
  - destruct (openStream ctx n) as [[sid|e|] n1]; [| |discriminate]; by intros [= <-].
  - destruct (Chan.recv _) as [[c ok]|]; [|discriminate]. by intros [= <-].
  - by intros [= <-].
  - by intros [= <-].
  - by intros [= <-].
  - unfold pop_io. simpl. destruct io as [|[e|] io']; by intros [= <-].
  - unfold pop_io. simpl. destruct io as [|r io']; by intros [= <-].
  - destruct ok, er; by intros [= <-].
  - destruct (openStream ctx n) as [[sid|e|] n1]; [| |discriminate]; by intros [= <-].
  - discriminate.
Qed.

Lemma rexec_ctx acts : forall σ σ',
  rexec acts σ = Some σ' -> r_ctx σ' = r_ctx σ.
Proof.
  induction acts as [|a acts IH]; intros σ σ' Hex; simpl in Hex.
  - by injection Hex as <-.
  - destruct (rstep a σ) as [σ1|] eqn:Hstep; [|discriminate].
    rewrite (IH _ _ Hex).
    destruct a; simpl in Hstep;
      try (destruct (lift _) as [m'|]; [|discriminate]);
      try (by injection Hstep as <-).
    by apply RemoteTracer_doWrite_ctx.
Qed.

Lemma rexec_known acts : forall σ σ',
  stream_known σ -> rexec acts σ = Some σ' -> stream_known σ'.
Proof.
  induction acts as [|a acts IH]; intros σ σ' Hk Hex; simpl in Hex.
  - by injection Hex as <-.
  - destruct (rstep a σ) as [σ1|] eqn:Hstep; [|discriminate].
    apply (IH σ1); [|done].
    destruct a; simpl in Hstep;
      try (destruct (lift _) as [m'|]; [|discriminate]);
      try (injection Hstep as <-; exact Hk).
    by apply (RemoteTracer_doWrite_known σ).
Qed.

Lemma swap_empty evs σ ok :
  rinv evs σ -> r_pc σ = RSwap ok -> pending (r_mem σ) = [] ->
  RemoteTracer_doWrite σ =
  Some (set_pc (REnd ok) (emit [ESwap []] (set_mem (swap (r_mem σ)) σ)))
  /\ r_err σ = None.
Proof.
  intros Hinv Hpc Hp. pose proof (rinv_err _ _ Hinv) as Her. rewrite Hpc in Her.
  split; [|done]. unfold RemoteTracer_doWrite. rewrite Hpc.
  destruct (swap_spec _ (rinv_mem _ _ Hinv)) as (_ & _ & Hb & Hl & _).
  rewrite Hb, Hp. rewrite Hp in Hl. simpl in Hl. by rewrite decide_True.
Qed.

End RemoteFacts.

(** * Part III: the claims *)

Section Claims.
Context {Event : Type} `{!Runtime Event}.
Implicit Types (m : mem Event) (evt : Event).
Implicit Types (acts : list (action Event)).

(** C1. Whatever the interleaving of the producers' appends with the
    steps of the write loop, the batches that the swaps hand to the loop,
    one after the other, followed by what is still pending, are exactly the
    events appended, each once and in the order of the appends; so are the
    events the encoder is given (in the remote sink: the batches handed to
    WriteMsg). A swap hands over exactly what is pending and leaves
    nothing. This holds for the file sinks with any encoder, and for the
    remote sink. *)
Theorem swap_takes_each_event_once acts :
  (forall enc f (σ : fsys Event),
     exec enc acts (open_sink f) = Some σ ->
     concat (batches σ) ++ pending (fmem σ) = appended acts
     /\ (encoded σ).*1 ++ unencoded σ ++ pending (fmem σ) = appended acts
     /\ forall ok, pc σ = FSwap ok ->
          exists σ', doWrite_step enc σ = Some σ'
            /\ batches σ' = batches σ ++ [pending (fmem σ)]
            /\ batch (fmem σ') = pending (fmem σ)
            /\ pending (fmem σ') = [])
  /\ (forall ctx host io (σ : rsys Event),
       rexec acts (new_remote ctx host io) = Some σ ->
       concat (swapped (r_trace σ)) ++ pending (r_mem σ) = appended acts
       /\ concat (sent (r_trace σ)) ++ inflight σ ++ pending (r_mem σ) = appended acts
       /\ forall ok, r_pc σ = RSwap ok ->
            exists σ', RemoteTracer_doWrite σ = Some σ'
              /\ swapped (r_trace σ') = swapped (r_trace σ) ++ [pending (r_mem σ)]
              /\ batch (r_mem σ') = pending (r_mem σ)
              /\ pending (r_mem σ') = []
              /\ (pending (r_mem σ) <> [] -> r_pc σ' = RWriteMsg ok)).
Proof.
  split.
  - intros enc f σ Hex. pose proof (exec_reachable_inv enc f acts σ Hex) as Hinv.
    split; [apply Hinv|]. split; [apply Hinv|].
    intros ok Hpc.
    destruct (swap_step enc _ _ _ Hinv Hpc) as (σ' & Hs & Hb & Hbt & Hp & _).
    by exists σ'.
  - intros ctx host io σ Hex.
    pose proof (rexec_reachable_inv ctx host io acts σ Hex) as Hinv.
    split; [apply Hinv|]. split; [apply Hinv|].
    intros ok Hpc.
    destruct (swap_spec _ (rinv_mem _ _ Hinv)) as (_ & Hp & Hb & Hl & _).
    unfold RemoteTracer_doWrite. rewrite Hpc.
    eexists. split; [done|]. simpl.
    rewrite swapped_snoc, Hb. do 3 (split; [done|]).
    intros Hne. rewrite decide_False; [done|].
    simpl in Hl. rewrite Hl. intros Hz. by apply length_zero_iff_nil in Hz.
Qed.

(** C2. A JSON sink made by NewJSONTracer on a file that takes every write;
    [json_unmarshal] reads back what [json_marshal] writes for A, B and C.
    One producer calls Trace(A), Trace(B), Trace(C) and then Close(),
    interleaved in any way with the write loop. Then the execution has at
    most 22 actions, and once the loop can take no further step it has
    returned, the file is closed, nothing was logged, and the file reads
    back as the three records A, B, C in that order. *)
Theorem json_sink_writes_A_B_C_then_closes
  (json_marshal : Event -> option (list byte))
  (json_unmarshal : list byte -> option Event)
  (A B C : Event) (σ0 : fsys Event) acts (σ : fsys Event) :
  json_codec_ok json_marshal json_unmarshal A ->
  json_codec_ok json_marshal json_unmarshal B ->
  json_codec_ok json_marshal json_unmarshal C ->
  NewJSONTracer (inr []) = (Some σ0, None) ->
  exec (json_Encode json_marshal) acts σ0 = Some σ ->
  producer_actions acts = Trace_calls [A; B; C] ++ [AClose] ->
  length acts <= 22
  /\ (JSONTracer_doWrite json_marshal σ = None ->
      pc σ = FDone
      /\ f_closed (w σ) = true
      /\ errlog σ = []
      /\ ndjson_decode json_unmarshal (f_data (w σ)) = Some [A; B; C]).
Proof.
  intros HA HB HC [= <-] Hex Hprod.
  assert (Forall (json_codec_ok json_marshal json_unmarshal) [A; B; C]) as Hcodec.
  { repeat constructor; done. }
  assert (Forall (fun e => is_Some (json_frame json_marshal e)) [A; B; C]) as Hall.
  { eapply Forall_impl; [exact Hcodec|]. intros e (bs & Hm & _).
    unfold json_frame. rewrite Hm. by eexists. }
  destruct (file_sink_drains (json_frame json_marshal) true [A; B; C] acts σ
              Hall Hex Hprod)
    as [Hlen Hdone].
  split; [exact Hlen|].
  intros Hstuck. destruct (Hdone Hstuck) as (Hpc & Hcl & Hdata & Hlog).
  split; [done|]. split; [done|]. split; [done|].
  rewrite Hdata. by apply ndjson_roundtrip.
Qed.

(** C3, as amended. While the wake channel is not closed, Trace returns
    normally, having stored the event; and no action of a producer touches
    the file or the error log of the sink: the failures of the encoder stay
    in the write loop. *)
Theorem Trace_returns_while_open m evt :
  Chan.closed (ch (tracer m)) = false ->
  (exists m', Trace evt m = Returned m'
     /\ (mem_ok m -> pending m' = pending m ++ [evt]))
  /\ returned (Trace_signal m) = true
  /\ (forall enc a (σ σ' : fsys Event),
        is_producer a = true -> fstep enc a σ = Some σ' ->
        errlog σ' = errlog σ /\ w σ' = w σ).
Proof.
  intros Hopen. split; [|split].
  - unfold Trace, Trace_signal.
    assert (ch (tracer (Trace_append evt m)) = ch (tracer m)) as Hch.
    { unfold Trace_append. by destruct (go_append _ _ _). }
    rewrite Hch. unfold Chan.select_send_default, Chan.send. rewrite Hopen.
    destruct (Chan.len _ <? Chan.cap); eexists; (split; [done|]);
      intros Hm; rewrite pending_set_ch;
      by destruct (Trace_append_spec evt m Hm) as (_ & -> & _).
  - unfold Trace_signal, Chan.select_send_default, Chan.send. rewrite Hopen.
    by destruct (Chan.len _ <? Chan.cap).
  - intros enc a σ σ' Hprod. destruct a; try discriminate; simpl;
      try (destruct (lift _) as [m'|]; [|discriminate]); by intros [= <-].
Qed.

(** C4. The channel never holds more than one wake, in any execution of a
    file sink or of the remote sink. A Trace that finds the slot full
    leaves the channel as it was and stores its event all the same; its
    send never blocks, and it returns normally unless the channel was
    closed. *)
Theorem wake_is_coalesced m evt :
  mem_ok m ->
  Chan.len (ch (tracer m)) = Chan.cap ->
  (ch (tracer (outcome_state (Trace evt m))) = ch (tracer m)
   /\ pending (outcome_state (Trace evt m)) = pending m ++ [evt]
   /\ Chan.select_send_default (ch (tracer (Trace_append evt m))) <> Chan.WouldBlock
   /\ (Chan.closed (ch (tracer m)) = false ->
       Trace evt m = Returned (Trace_append evt m)))
  /\ (forall enc f acts (σ : fsys Event),
        exec enc acts (open_sink f) = Some σ -> Chan.len (chan_of σ) <= Chan.cap)
  /\ (forall ctx host io acts (σ : rsys Event),
        rexec acts (new_remote ctx host io) = Some σ ->
        Chan.len (ch (tracer (r_mem σ))) <= Chan.cap).
Proof.
  intros Hm Hfull.
  destruct (Trace_append_spec evt m Hm) as (Hm' & Hp & _ & _ & Hch).
  split; [|split].
  - assert (match Chan.select_send_default (ch (tracer m)) with
            | Chan.Proceed c => c = ch (tracer m)
            | Chan.WouldBlock => False
            | Chan.Panic => Chan.closed (ch (tracer m)) = true
            end) as Hsel.
    { unfold Chan.select_send_default, Chan.send. rewrite Hfull.
      by destruct (Chan.closed _). }
    unfold Trace, Trace_signal. rewrite Hch.
    split; [|split; [|split]].
    + destruct (Chan.select_send_default (ch (tracer m))) as [c| |]; simpl; done.
    + destruct (Chan.select_send_default (ch (tracer m))) as [c| |]; simpl; done.
    + apply chan_select_never_blocks.
    + intros Hopen.
      destruct (Chan.select_send_default (ch (tracer m))) as [c| |]; try congruence; [|done].
      subst c. f_equal. unfold set_ch. rewrite <- Hch.
      by destruct (Trace_append evt m) as [h [c b] l].
  - intros enc f acts σ Hex.
    pose proof (exec_reachable_inv enc f acts σ Hex) as Hinv.
    by destruct (finv_mem _ _ Hinv) as (_ & _ & _ & Hl).
  - intros ctx host io acts σ Hex.
    pose proof (rexec_reachable_inv ctx host io acts σ Hex) as Hinv.
    by destruct (rinv_mem _ _ Hinv) as (_ & _ & _ & Hl).
Qed.

(** C5. Once the remote loop has received from the closed channel, no step
    of it blocks and each brings its return nearer (six steps at most). At
    the close check it returns, and what it does to the stream depends on
    the last operation of the iteration alone: if the last WriteMsg or
    Flush since the swap failed, the stream is reset; if it succeeded, or
    the batch was empty and nothing was written, the compressor is closed
    and then the stream is fully closed. *)
Theorem closed_signal_tears_down ctx host io acts (σ : rsys Event) :
  rexec acts (new_remote ctx host io) = Some σ ->
  rpc_ok (r_pc σ) = false ->
  r_pc σ <> RDone ->
  (exists σ', RemoteTracer_doWrite σ = Some σ'
     /\ rank (r_pc σ') < rank (r_pc σ)
     /\ rpc_ok (r_pc σ') = false)
  /\ (r_pc σ = REnd false ->
      exists sid σ',
        r_s σ = Some sid /\ r_gz σ = Some sid
        /\ RemoteTracer_doWrite σ = Some σ'
        /\ r_pc σ' = RDone
        /\ r_trace σ' = r_trace σ ++
             match last_result (r_trace σ) with
             | None => [EGzipClose (Some sid); EFullClose (Some sid)]
             | Some _ => [EReset (Some sid)]
             end).
Proof.
  intros Hex Hok Hnd. split.
  - by apply closing_progress.
  - intros Hpc. apply (end_closing (appended acts)); [|done].
    by apply (rexec_reachable_inv ctx host io).
Qed.

(** C6. In any execution of the remote sink, the batches handed to
    WriteMsg, failed or not, followed by the batch about to be handed and
    by what is pending, are the events appended, each once: a batch is
    never handed to WriteMsg again. A failed WriteMsg (no Flush follows)
    or a failed Flush is logged and leads to the close check with the
    error. There, when the channel is not closed, the stream is reset, and
    then openStream is called: when it gives a stream, it is a new one, the
    compressor is reset over it, the error is cleared and the loop goes
    back to the receive; when it fails, the error is logged and the loop
    returns. *)
Theorem write_error_drops_batch_and_reconnects ctx host io acts (σ : rsys Event) :
  rexec acts (new_remote ctx host io) = Some σ ->
  concat (sent (r_trace σ)) ++ inflight σ ++ pending (r_mem σ) = appended acts
  /\ (forall ok e rest,
        r_pc σ = RWriteMsg ok -> r_io σ = Some e :: rest ->
        exists σ1, RemoteTracer_doWrite σ = Some σ1
          /\ r_pc σ1 = REnd ok
          /\ r_trace σ1 = r_trace σ ++ [EWriteMsg (r_gz σ) (batch (r_mem σ)) (Some e)]
          /\ r_log σ1 = r_log σ ++ [e])
  /\ (forall ok e rest,
        r_pc σ = RFlush ok -> r_io σ = Some e :: rest ->
        exists σ1, RemoteTracer_doWrite σ = Some σ1
          /\ r_pc σ1 = REnd ok
          /\ r_trace σ1 = r_trace σ ++ [EFlush (r_gz σ) (Some e)]
          /\ r_log σ1 = r_log σ ++ [e])
  /\ (r_pc σ = REnd true -> last_result (r_trace σ) <> None ->
      exists sid σ1,
        r_s σ = Some sid
        /\ RemoteTracer_doWrite σ = Some σ1
        /\ r_pc σ1 = RReconnect
        /\ r_trace σ1 = r_trace σ ++ [EReset (Some sid)]
        /\ match openStream ctx (r_net σ) with
           | (Ok s', n') =>
               s' <> sid
               /\ RemoteTracer_doWrite σ1 =
                  Some (set_pc RRecv (emit [EGzipReset s']
                         (set_gz (Some s') (set_err None
                           (set_stream (Some s') (set_net n' σ1))))))
           | (Err e, n') =>
               RemoteTracer_doWrite σ1 =
               Some (set_pc RDone (log_error (Some e)
                      (set_err (Some e) (set_stream None (set_net n' σ1)))))
           | (Waiting, _) => RemoteTracer_doWrite σ1 = None
           end).
Proof.
  intros Hex. pose proof (rexec_reachable_inv ctx host io acts σ Hex) as Hinv.
  split; [apply Hinv|]. split; [|split].
  - intros ok e rest Hpc Hio. unfold RemoteTracer_doWrite, pop_io.
    rewrite Hpc, Hio. eexists. split; [done|]. by simpl.
  - intros ok e rest Hpc Hio. unfold RemoteTracer_doWrite, pop_io.
    rewrite Hpc, Hio. eexists. split; [done|]. by simpl.
  - intros Hpc Hlast.
    destruct (end_error _ _ Hinv Hpc Hlast) as (sid & σ1 & Hs & Hstep & ->).
    exists sid. eexists. split; [done|]. split; [done|]. split; [done|]. split; [done|].
    pose proof (rexec_ctx _ _ _ Hex) as Hctx. simpl in Hctx.
    unfold RemoteTracer_doWrite. simpl. rewrite Hctx.
    pose proof (openStream_opened ctx (r_net σ)) as [_ Hfresh].
    pose proof (rexec_known acts (new_remote ctx host io) σ) as Hknown.
    destruct (openStream ctx (r_net σ)) as [[s'|e|] n']; try done.
    split; [|done]. destruct (Hfresh s' eq_refl) as [Hle _].
    assert (sid < opened (r_net σ)) as Hlt.
    { apply Hknown; [|done|done]. intros ? [=]. }
    lia.
Qed.

(** C8. When the swap of the remote loop finds nothing pending, the
    iteration goes straight to the close check: the trace grows by the
    empty swap only, so nothing is written and nothing is flushed; the
    stream, the compressor, the host and the results to come are as
    before, and [err] is nil. If the channel is not closed the close check
    then goes back to the receive without doing anything. *)
Theorem empty_batch_does_no_io ctx host io acts (σ : rsys Event) ok :
  rexec acts (new_remote ctx host io) = Some σ ->
  r_pc σ = RSwap ok ->
  pending (r_mem σ) = [] ->
  exists σ1,
    RemoteTracer_doWrite σ = Some σ1
    /\ r_pc σ1 = REnd ok
    /\ r_trace σ1 = r_trace σ ++ [ESwap []]
    /\ List.filter is_io (r_trace σ1) = List.filter is_io (r_trace σ)
    /\ r_s σ1 = r_s σ /\ r_gz σ1 = r_gz σ /\ r_net σ1 = r_net σ /\ r_io σ1 = r_io σ
    /\ r_err σ1 = None
    /\ (ok = true -> RemoteTracer_doWrite σ1 = Some (set_pc RRecv σ1)).
Proof.
  intros Hex Hpc Hp. pose proof (rexec_reachable_inv ctx host io acts σ Hex) as Hinv.
  destruct (swap_empty _ _ _ Hinv Hpc Hp) as [Hstep Herr].
  eexists. split; [exact Hstep|]. simpl.
  split; [done|]. split; [done|].
  split; [rewrite List.filter_app; simpl; by rewrite app_nil_r|].
  do 4 (split; [done|]). split; [done|].
  intros ->. unfold RemoteTracer_doWrite. simpl. by rewrite Herr.
Qed.

(** C10. NewRemoteTracer returns a tracer and a nil error, whatever the
    context, the host and the peer: it makes no call to the host and opens
    no stream. The goroutine it spawns starts at openStream, and only
    there is a failure to connect seen: it is logged and the loop
    returns. *)
Theorem NewRemoteTracer_never_fails ctx host io :
  exists tr : rsys Event,
    NewRemoteTracer ctx host io = (Some tr, None)
    /\ r_pc tr = RInit
    /\ r_net tr = host
    /\ r_s tr = None
    /\ r_trace tr = []
    /\ r_log tr = []
    /\ match openStream ctx host with
       | (Ok s, n) =>
           exists σ, RemoteTracer_doWrite tr = Some σ
             /\ r_pc σ = RRecv /\ r_s σ = Some s /\ r_gz σ = Some s /\ r_net σ = n
       | (Err e, n) =>
           exists σ, RemoteTracer_doWrite tr = Some σ
             /\ r_pc σ = RDone /\ r_log σ = [e] /\ r_net σ = n
       | (Waiting, _) => RemoteTracer_doWrite tr = None
       end.
Proof.
  eexists. split; [reflexivity|]. simpl. do 5 (split; [done|]).
  unfold RemoteTracer_doWrite. simpl.
  destruct (openStream ctx host) as [[s|e|] n]; [| |done]; eexists; by repeat split.
Qed.

(** C9. The JSON sink after a write has failed. The one encoder made
    before the loop keeps the error of the write, and from then on, in any
    execution, no event handed to it is encoded: in this batch and in the
    batches that follow, each call returns the kept error, which is logged,
    and nothing more is written to the file. *)
Theorem json_sink_encodes_nothing_after_a_write_error
  (json_marshal : Event -> option (list byte)) acts (σ σ' : fsys Event) e :
  kept σ = Some e ->
  exec (json_Encode json_marshal) acts σ = Some σ' ->
  kept σ' = Some e
  /\ f_data (w σ') = f_data (w σ)
  /\ exists later,
       encoded σ' = encoded σ ++ later
       /\ Forall (fun p => p.2 = Some e) later
       /\ errlog σ' = errlog σ ++ omap snd later.
Proof.
  revert σ. induction acts as [|a acts IH]; intros σ Hk Hex; simpl in Hex.
  - injection Hex as <-. split; [done|]. split; [done|].
    exists []. by rewrite !app_nil_r.
  - destruct (fstep _ a σ) as [σ1|] eqn:Hstep; [|discriminate].
    assert (kept σ1 = Some e /\ f_data (w σ1) = f_data (w σ)
            /\ exists l, encoded σ1 = encoded σ ++ l
                 /\ Forall (fun p => p.2 = Some e) l
                 /\ errlog σ1 = errlog σ ++ omap snd l) as (Hk1 & Hd1 & l1 & He1 & Hl1 & Hg1).
    { assert (forall τ : fsys Event,
                kept τ = kept σ -> w τ = w σ -> encoded τ = encoded σ ->
                errlog τ = errlog σ ->
                kept τ = Some e /\ f_data (w τ) = f_data (w σ)
                /\ exists l, encoded τ = encoded σ ++ l
                     /\ Forall (fun p => p.2 = Some e) l
                     /\ errlog τ = errlog σ ++ omap snd l) as Hsame.
      { intros τ -> -> -> ->. split; [done|]. split; [done|].
        exists []. by rewrite !app_nil_r. }
      destruct a; simpl in Hstep;
        try (destruct (lift _) as [m'|]; [|discriminate]);
        try (injection Hstep as <-; by apply Hsame).
      unfold doWrite_step in Hstep. destruct (pc σ) as [|ok|ok i n|].
      - destruct (Chan.recv _) as [[c ok]|]; [|discriminate].
        injection Hstep as <-. by apply Hsame.
      - injection Hstep as <-. by apply Hsame.
      - case_decide.
        + unfold json_Encode, encode_with in Hstep. rewrite Hk in Hstep.
          injection Hstep as <-. simpl. split; [done|]. split; [done|].
          eexists [(_, Some e)]. split; [done|]. split; [by apply Forall_singleton|done].
        + destruct ok; injection Hstep as <-; [by apply Hsame|]. simpl.
          split; [done|]. split; [unfold file_Close; by destruct (f_closed (w σ))|].
          exists []. by rewrite !app_nil_r.
      - discriminate. }
    destruct (IH σ1 Hk1 Hex) as (Hk' & Hd' & l & He & Hl & Hg).
    split; [done|]. split; [by rewrite Hd', Hd1|].
    exists (l1 ++ l). split; [by rewrite He, He1, app_assoc|].
    split; [by apply Forall_app|]. by rewrite Hg, Hg1, omap_app, app_assoc.
Qed.

End Claims.

(** C7. A failed attempt of [connect] or of [openStream]: while the parent
    context lives through the wait, the loop goes round again exactly one
    minute after the failure; when the context is cancelled by the time the
    attempt has failed, the call returns the error at once, with no further
    call to the host; when it is cancelled during the wait, the call
    returns the context's error at that instant. With a context that is
    never cancelled neither call ever returns an error. *)
Theorem failed_attempts_retry_each_minute_until_cancelled ctx :
  (forall t r rest cs k,
     rp_ok r = false ->
     (cancelled ctx (t + rp_dur r + minute) = false ->
      connect ctx (Net t (r :: rest) cs k) =
      connect ctx (Net (t + rp_dur r + minute) rest (cs ++ [CConnect t]) k))
     /\ (cancelled ctx (t + rp_dur r) = true ->
         connect ctx (Net t (r :: rest) cs k) =
         (Err ErrHost, Net (t + rp_dur r) rest (cs ++ [CConnect t]) k))
     /\ (forall c, cancel_at ctx = Some c ->
         (t + rp_dur r < c < t + rp_dur r + minute)%Z ->
         connect ctx (Net t (r :: rest) cs k) =
         (Err ErrCanceled, Net c rest (cs ++ [CConnect t]) k)))
  /\ (forall n n1 r rest,
        connect ctx n = (Ok tt, n1) ->
        replies n1 = r :: rest ->
        rp_ok r = false ->
        (cancelled ctx (now n1 + rp_dur r + minute) = false ->
         openStream ctx n =
         openStream ctx (Net (now n1 + rp_dur r + minute) rest
                             (calls n1 ++ [CNewStream (now n1)]) (opened n1)))
        /\ (cancelled ctx (now n1 + rp_dur r) = true ->
            openStream ctx n =
            (Err ErrHost, Net (now n1 + rp_dur r) rest
                              (calls n1 ++ [CNewStream (now n1)]) (opened n1)))
        /\ (forall c, cancel_at ctx = Some c ->
            (now n1 + rp_dur r < c < now n1 + rp_dur r + minute)%Z ->
            openStream ctx n =
            (Err ErrCanceled, Net c rest (calls n1 ++ [CNewStream (now n1)]) (opened n1))))
  /\ (cancel_at ctx = None ->
      forall n e, (connect ctx n).1 <> Err e /\ (openStream ctx n).1 <> Err e).
Proof.
  split; [|split].
  - intros t r rest cs k Hok. split; [|split].
    + by apply connect_retry.
    + by apply connect_cancelled.
    + intros c. by apply connect_cancelled_waiting.
  - intros n n1 r rest Hc Hr Hok. split; [|split].
    + by apply openStream_retry.
    + by apply openStream_cancelled.
    + intros c. by apply openStream_cancelled_waiting.
  - intros Hnever n e. split.
    + by apply connect_never_gives_up.
    + by apply openStream_never_gives_up.
Qed.

(** * Part IV: the claims at work on small executions *)

Lemma swap_takes_each_event_once_witness :
  (exists σ : fsys nat,
     exec (json_Encode digit_marshal) two_producers (open_sink (truncated_file [])) = Some σ
     /\ batches σ = [[1; 2; 3]]
     /\ concat (batches σ) ++ pending (fmem σ) = [1; 2; 3])
  /\ (exists σ σ' : rsys nat,
       rexec remote_before_swap (new_remote (Ctx None) good_host []) = Some σ
       /\ r_pc σ = RSwap true
       /\ pending (r_mem σ) = [1; 2]
       /\ RemoteTracer_doWrite σ = Some σ'
       /\ swapped (r_trace σ') = [[1; 2]]
       /\ batch (r_mem σ') = [1; 2]
       /\ pending (r_mem σ') = []
       /\ r_pc σ' = RWriteMsg true).
Proof.
  split.
  - eexists. split; [vm_compute; reflexivity|]. split; [vm_compute; reflexivity|].
    refine (proj1 (proj1 (swap_takes_each_event_once two_producers)
                         (json_Encode digit_marshal) (truncated_file []) _ _)).
    vm_compute. reflexivity.
  - eexists.
    lazymatch goal with
    | |- exists σ', ?E = Some ?s /\ _ =>
        assert (E = Some s) as Hex by (vm_compute; reflexivity);
        destruct (proj2 (swap_takes_each_event_once remote_before_swap)
                        (Ctx None) good_host [] s Hex) as (_ & _ & Hswap)
    end.
    destruct (Hswap true eq_refl) as (σ' & Hstep & Hsw & Hb & Hp & Hpc).
    exists σ'. split; [exact Hex|]. split; [reflexivity|]. split; [reflexivity|].
    split; [exact Hstep|]. split; [exact Hsw|]. split; [exact Hb|]. split; [exact Hp|].
    apply Hpc. discriminate.
Defined.

Lemma digit_codec_ok n : n = 1 \/ n = 2 \/ n = 3 ->
  json_codec_ok digit_marshal digit_unmarshal n.
Proof.
  intros [-> | [-> | ->]]; eexists; (split; [reflexivity|]); (split; [|reflexivity]);
    intros Hin; apply list_elem_of_singleton in Hin; discriminate.
Qed.

Lemma json_sink_writes_A_B_C_then_closes_witness :
  exists σ0 σ : fsys nat,
    NewJSONTracer (inr []) = (Some σ0, None)
    /\ exec (json_Encode digit_marshal) one_producer_then_close σ0 = Some σ
    /\ f_data (w σ) = [x31; x0a; x32; x0a; x33; x0a]
    /\ length one_producer_then_close <= 22
    /\ pc σ = FDone
    /\ f_closed (w σ) = true
    /\ errlog σ = []
    /\ ndjson_decode digit_unmarshal (f_data (w σ)) = Some [1; 2; 3].
Proof.
  exists (open_sink (truncated_file [])). eexists.
  split; [reflexivity|]. split; [vm_compute; reflexivity|].
  split; [vm_compute; reflexivity|].
  lazymatch goal with
  | |- _ /\ pc ?s = _ /\ _ =>
      destruct (json_sink_writes_A_B_C_then_closes
                  digit_marshal digit_unmarshal 1 2 3
                  (open_sink (truncated_file [])) one_producer_then_close s)
        as [Hlen Hdone]
  end.
  - apply digit_codec_ok. tauto.
  - apply digit_codec_ok. tauto.
  - apply digit_codec_ok. tauto.
  - reflexivity.
  - vm_compute. reflexivity.
  - vm_compute. reflexivity.
  - split; [exact Hlen|]. apply Hdone. vm_compute. reflexivity.
Defined.

(** After [Close], [Trace] panics on its send. *)
Lemma Trace_after_Close_panics :
  exists m : mem nat,
    Close new_mem = Returned m
    /\ Chan.closed (ch (tracer m)) = true
    /\ returned (Trace 1 m) = false.
Proof. eexists. split; [reflexivity|]. split; reflexivity. Defined.

Lemma Trace_returns_while_open_witness :
  returned (Trace_signal (new_mem (Event := nat))) = true
  /\ exists m', Trace 1 (new_mem (Event := nat)) = Returned m'.
Proof.
  destruct (Trace_returns_while_open (new_mem (Event := nat)) 1 eq_refl)
    as ((m' & Hret & _) & Hsig & _).
  split; [exact Hsig|]. by exists m'.
Defined.

Lemma wake_is_coalesced_witness :
  exists m : mem nat,
    Trace 1 new_mem = Returned m
    /\ ch (tracer (outcome_state (Trace 2 m))) = ch (tracer m)
    /\ pending (outcome_state (Trace 2 m)) = [1; 2].
Proof.
  eexists. split; [vm_compute; reflexivity|].
  lazymatch goal with
  | |- ch (tracer (outcome_state (Trace 2 ?m))) = _ /\ _ =>
      destruct (wake_is_coalesced m 2) as ((Hch & Hp & _) & _)
  end.
  - unfold mem_ok, wf_slice, disjoint, Chan.cap. simpl.
    split; [split; lia|]. split; [reflexivity|]. split; [|lia].
    intros a _ Hnil. discriminate Hnil.
  - reflexivity.
  - split; [exact Hch|exact Hp].
Defined.

Lemma closed_signal_tears_down_witness :
  exists σ σ' : rsys nat,
    rexec write_fails_closing (new_remote (Ctx None) good_host [None; None; Some ErrIO]) = Some σ
    /\ r_pc σ = REnd false
    /\ RemoteTracer_doWrite σ = Some σ'
    /\ r_pc σ' = RDone
    /\ r_trace σ' = r_trace σ ++ [EReset (Some 0)].
Proof.
  eexists.
  lazymatch goal with
  | |- exists σ', ?E = Some ?s /\ _ =>
      assert (E = Some s) as Hex by (vm_compute; reflexivity);
      destruct (closed_signal_tears_down _ _ _ _ s Hex) as [_ Hend];
        [reflexivity|discriminate|]
  end.
  destruct (Hend eq_refl) as (sid & σ' & Hs & Hg & Hstep & Hpc & Htr).
  exists σ'. split; [exact Hex|]. split; [reflexivity|]. split; [exact Hstep|].
  split; [exact Hpc|]. injection Hs as <-. exact Htr.
Defined.

Lemma write_error_drops_batch_and_reconnects_witness :
  exists σ σ1 : rsys nat,
    rexec write_fails (new_remote (Ctx None) good_host [Some ErrIO]) = Some σ
    /\ r_pc σ = REnd true
    /\ concat (sent (r_trace σ)) = [1]
    /\ RemoteTracer_doWrite σ = Some σ1
    /\ r_pc σ1 = RReconnect
    /\ r_trace σ1 = r_trace σ ++ [EReset (Some 0)].
Proof.
  eexists.
  lazymatch goal with
  | |- exists σ1, ?E = Some ?s /\ _ =>
      assert (E = Some s) as Hex by (vm_compute; reflexivity);
      destruct (write_error_drops_batch_and_reconnects _ _ _ _ s Hex)
        as (_ & _ & _ & Hend)
  end.
  destruct (Hend eq_refl) as (sid & σ1 & Hs & Hstep & Hpc & Htr & _); [discriminate|].
  exists σ1. split; [exact Hex|]. split; [reflexivity|]. split; [reflexivity|].
  split; [exact Hstep|]. split; [exact Hpc|]. injection Hs as <-. exact Htr.
Defined.

Lemma failed_attempts_retry_each_minute_until_cancelled_witness :
  connect (Ctx None) (Net 0 [Reply false 7 false; Reply true 5 false] [] 0)
  = (Ok tt, Net (7 + minute + 5) [] [CConnect 0; CConnect (7 + minute)] 0)
  /\ connect (Ctx (Some 3%Z)) (Net 0 [Reply false 7 false; Reply true 5 false] [] 0)
     = (Err ErrHost, Net 7 [Reply true 5 false] [CConnect 0] 0).
Proof.
  destruct (failed_attempts_retry_each_minute_until_cancelled (Ctx None))
    as (Hconnect & _ & _).
  destruct (failed_attempts_retry_each_minute_until_cancelled (Ctx (Some 3%Z)))
    as (Hcancel & _ & _).
  split.
  - rewrite (proj1 (Hconnect 0%Z (Reply false 7 false) [Reply true 5 false] [] 0 eq_refl) eq_refl).
    reflexivity.
  - exact (proj1 (proj2 (Hcancel 0%Z (Reply false 7 false) [Reply true 5 false] [] 0 eq_refl))
                 eq_refl).
Defined.

Lemma empty_batch_does_no_io_witness :
  exists σ σ1 : rsys nat,
    rexec second_wake_finds_nothing (new_remote (Ctx None) good_host []) = Some σ
    /\ r_pc σ = RSwap true
    /\ RemoteTracer_doWrite σ = Some σ1
    /\ r_pc σ1 = REnd true
    /\ r_trace σ1 = r_trace σ ++ [ESwap []]
    /\ RemoteTracer_doWrite σ1 = Some (set_pc RRecv σ1).
Proof.
  eexists.
  lazymatch goal with
  | |- exists σ1, ?E = Some ?s /\ _ =>
      assert (E = Some s) as Hex by (vm_compute; reflexivity);
      destruct (empty_batch_does_no_io _ _ _ _ s true Hex)
        as (σ1 & Hstep & Hpc & Htr & _ & _ & _ & _ & _ & _ & Hnext);
        [reflexivity|reflexivity|]
  end.
  exists σ1. split; [exact Hex|]. split; [reflexivity|]. split; [exact Hstep|].
  split; [exact Hpc|]. split; [exact Htr|]. by apply Hnext.
Defined.

Lemma json_sink_encodes_nothing_after_a_write_error_witness :
  exists σ σ' ρ : fsys nat,
    exec (json_Encode digit_marshal) batch_of_three (open_sink (truncated_file [true]))
    = Some σ
    /\ encoded σ = [(1, Some ErrIO)]
    /\ kept σ = Some ErrIO
    /\ exec (json_Encode digit_marshal) [AWrite; AWrite] σ = Some σ'
    /\ encoded σ' = [(1, Some ErrIO); (2, Some ErrIO); (3, Some ErrIO)]
    /\ errlog σ' = [ErrIO; ErrIO; ErrIO]
    /\ f_data (w σ') = []
    /\ exec (pb_WriteMsg digit_pb_frame) (batch_of_three ++ [AWrite; AWrite])
            (open_sink (truncated_file [true])) = Some ρ
    /\ encoded ρ = [(1, Some ErrIO); (2, None); (3, None)]
    /\ f_data (w ρ) = [x01; x32; x01; x33].
Proof.
  eexists.
  lazymatch goal with
  | |- exists σ' ρ, ?E = Some ?s /\ _ =>
      assert (E = Some s) as Hex by (vm_compute; reflexivity)
  end.
  eexists. eexists. split; [exact Hex|]. split; [reflexivity|]. split; [reflexivity|].
  lazymatch goal with
  | |- exec ?enc ?l ?s0 = Some ?s /\ _ =>
      assert (exec enc l s0 = Some s) as Hex' by (vm_compute; reflexivity);
      split; [exact Hex'|];
      destruct (json_sink_encodes_nothing_after_a_write_error digit_marshal l s0 s ErrIO
                  eq_refl Hex') as (_ & Hdata & _)
  end.
  split; [reflexivity|]. split; [reflexivity|]. split; [exact Hdata|].
  split; [vm_compute; reflexivity|]. split; reflexivity.
Defined.

(** * Part V: further properties of the code *)

(** ** The connection manager *)

Lemma total_wait_nonneg rs :
  Forall (fun x => rp_ok x = false /\ (0 <= rp_dur x)%Z) rs -> (0 <= total_wait rs)%Z.
Proof.
  induction 1 as [|x rs [_ Hx] _ IH]; simpl; [done|].
  pose proof minute_pos. lia.
Qed.

(** X1. [connect] with a host that fails k times and then accepts, under a
    context that is not cancelled before the last wait is over: it returns
    nil after the k+1 calls, the first at the start and each of the others
    exactly a minute after the failure before it, and the time it has taken
    is that of the attempts plus k minutes. *)
Theorem connect_succeeds_after_failures ctx fails : forall t r rest cs k,
  Forall (fun x => rp_ok x = false /\ (0 <= rp_dur x)%Z) fails ->
  rp_ok r = true ->
  cancelled ctx (t + total_wait fails) = false ->
  connect ctx (Net t (fails ++ r :: rest) cs k) =
  (Ok tt, Net (t + total_wait fails + rp_dur r) rest
              (cs ++ connect_calls t fails ++ [CConnect (t + total_wait fails)]) k).
Proof.
  induction fails as [|x fails IH]; intros t r rest cs k Hall Hok Hal.
  - simpl. rewrite connect_ok by done. by rewrite Z.add_0_r.
  - apply Forall_cons in Hall as [[Hx Hdur] Hall].
    pose proof (total_wait_nonneg fails Hall) as Hnn.
    replace (t + total_wait (x :: fails))%Z
      with (t + rp_dur x + minute + total_wait fails)%Z in * by (simpl; lia).
    change ((x :: fails) ++ r :: rest) with (x :: (fails ++ r :: rest)).
    rewrite connect_retry; [|done|].
    + rewrite IH by done. simpl. by rewrite <- app_assoc.
    + eapply cancelled_mono; [|exact Hal]. lia.
Qed.

Lemma backoff_done ctx tie t tc :
  backoff ctx tie t = inr tc -> cancelled ctx tc = true.
Proof.
  unfold backoff, cancelled. destruct (cancel_at ctx) as [c|]; [|done].
  destruct (c <? t + minute)%Z.
  - intros [= <-]. apply Z.leb_le. lia.
  - destruct (c =? t + minute)%Z; [destruct tie|]; try done.
    intros [= <-]. apply Z.leb_le. lia.
Qed.

Lemma connect_from_error ctx rs : forall t cs k e n',
  connect_from ctx rs t cs k = (Err e, n') -> cancelled ctx (now n') = true.
Proof.
  induction rs as [|r rs IH]; intros t cs k e n'; simpl; [done|].
  destruct (rp_ok r); [done|].
  destruct (cancelled ctx (t + rp_dur r)) eqn:Hc; [by intros [= <- <-]|].
  destruct (backoff ctx (rp_tie r) (t + rp_dur r)) as [t2|tc] eqn:Hb; [apply IH|].
  intros [= <- <-]. simpl. by apply backoff_done in Hb.
Qed.

(** X2. [connect] and [openStream] return an error only when the parent
    context is cancelled at the time they return: as long as the context
    lives, a failing host is never a reason to give up. *)
Theorem errors_only_when_cancelled ctx n e n' :
  (connect ctx n = (Err e, n') -> cancelled ctx (now n') = true)
  /\ (openStream ctx n = (Err e, n') -> cancelled ctx (now n') = true).
Proof.
  split; [apply connect_from_error|].
  remember (length (replies n)) as len eqn:Hlen.
  revert n Hlen. induction (lt_wf len) as [len _ IH]. intros n ->.
  rewrite openStream_eq.
  destruct (connect ctx n) as [[[]|e'|] n1] eqn:Hcon; [| |done].
  - destruct (replies n1) as [|r rest] eqn:Hr; [done|].
    assert (length rest < length (replies n)) as Hlt.
    { apply connect_replies in Hcon. rewrite Hr in Hcon. simpl in Hcon. lia. }
    unfold NewStream_attempt. destruct (rp_ok r); [done|].
    destruct (cancelled ctx (now n1 + rp_dur r)) eqn:Hc; [by intros [= <- <-]|].
    destruct (backoff ctx (rp_tie r) (now n1 + rp_dur r)) as [t2|tc] eqn:Hb.
    + by apply (IH (length rest) Hlt
                  (Net t2 rest (calls n1 ++ [CNewStream (now n1)]) (opened n1)) eq_refl).
    + intros [= <- <-]. simpl. by apply backoff_done in Hb.
  - intros [= <- <-]. by apply connect_from_error in Hcon.
Qed.

(** ** The file sinks *)

Section FileSinkMore.
Context {Event : Type} `{!Runtime Event}.
Variable frame : Event -> option (list byte).
Implicit Types (σ : fsys Event) (acts : list (action Event)).


Lemma encode_with_data sticky evt k f f' k' err :
  encode_with sticky frame evt k f = (f', k', err) ->
  f_append f' = f_append f
  /\ match err with
     | None =>
         f' = file_put (frame_bytes frame evt) f (tail (f_faults f))
         /\ f_closed f = false
     | Some _ => f_data f' = f_data f /\ f_pos f' = f_pos f /\ f_closed f' = f_closed f
     end
  /\ (f_closed f = false -> k <> Some ErrClosed ->
      err <> Some ErrClosed /\ k' <> Some ErrClosed).
Proof.
  unfold encode_with, frame_bytes, file_Write, file_put.
  destruct sticky, k as [e|]; simpl;
    try (intros [= <- <- <-]; by repeat split; try congruence);
    (destruct (frame evt) as [bs|]; [|intros [= <- <- <-]; by repeat split]);
    (destruct (f_closed f) eqn:Hcl; [intros [= <- <- <-]; by repeat split|]);
    destruct (f_faults f) as [|[] r], (f_append f); simpl; intros [= <- <- <-];
    by repeat split.
Qed.




Lemma closed_at_return_step sticky a σ σ' :
  closed_at_return σ -> fstep (encode_with sticky frame) a σ = Some σ' ->
  closed_at_return σ'.
Proof.
  unfold closed_at_return. intros ([H1 H2] & H3 & H4 & H5).
  destruct a; simpl;
    try (destruct (lift _) as [m'|]; [|discriminate]);
    try (intros [= <-]; done).
  unfold doWrite_step. destruct (pc σ) as [|ok|ok i n|] eqn:Hpc.
  - destruct (Chan.recv _) as [[c ok]|]; [|discriminate]. intros [= <-]. simpl.
    split; [|done]. split; [intros Hcl; by specialize (H1 Hcl)|done].
  - intros [= <-]. simpl.
    split; [|done]. split; [intros Hcl; by specialize (H1 Hcl)|done].
  - assert (f_closed (w σ) = false) as Hopen.
    { destruct (f_closed (w σ)); [by specialize (H1 eq_refl)|done]. }
    case_decide.
    + destruct (encode_with sticky frame _ (kept σ) (w σ)) as [[f' k'] err] eqn:Henc.
      intros [= <-].
      destruct (encode_with_data _ _ _ _ _ _ _ Henc) as (_ & Hd' & Hcl'). simpl.
      destruct (Hcl' Hopen H4) as [Hne Hk'].
      assert (f_closed f' = false) as Hopen'.
      { destruct err; [destruct Hd' as (_ & _ & ->); done|].
        destruct Hd' as [-> _]. unfold file_put. by destruct (f_append (w σ)). }
      split; [split; [by rewrite Hopen'|done]|]. split; [|split; [done|]].
      * unfold log_err. destruct err as [e|]; [|done].
        intros Hin. apply elem_of_app in Hin as [Hin|Hin]; [done|].
        apply list_elem_of_singleton in Hin. congruence.
      * apply Forall_app. split; [done|]. by apply Forall_singleton.
    + destruct ok; intros [= <-]; simpl.
      * split; [|done]. split; [intros Hcl; by specialize (H1 Hcl)|done].
      * split; [|done]. split; [done|]. intros _. unfold file_Close. by rewrite Hopen.
  - discriminate.
Qed.

Lemma closed_at_return_exec sticky acts : forall σ σ',
  closed_at_return σ -> exec (encode_with sticky frame) acts σ = Some σ' ->
  closed_at_return σ'.
Proof.
  induction acts as [|a acts IH]; intros σ σ' Hw Hex; simpl in Hex.
  - by injection Hex as <-.
  - destruct (fstep _ a σ) as [σ1|] eqn:Hstep; [|discriminate].
    apply (IH σ1); [|done]. by apply (closed_at_return_step sticky a σ).
Qed.


(** X4. A file sink on a file that is open: the file is closed exactly when
    the loop has returned, and the loop never writes to the file it has
    closed (no write ever fails because the file is closed). *)
Theorem loop_closes_the_file_when_it_returns sticky f acts σ :
  f_closed f = false ->
  exec (encode_with sticky frame) acts (open_sink f) = Some σ ->
  (f_closed (w σ) = true <-> pc σ = FDone)
  /\ (ErrClosed ∉ errlog σ)
  /\ Forall (fun p => p.2 <> Some ErrClosed) (encoded σ).
Proof.
  intros Hf Hex.
  assert (closed_at_return (open_sink (Event := Event) f)) as H0.
  { unfold closed_at_return. simpl. rewrite Hf.
    split; [done|]. split; [apply not_elem_of_nil|]. by split. }
  destruct (closed_at_return_exec sticky acts _ _ H0 Hex) as (Hiff & Hno & _ & Hall).
  done.
Qed.

End FileSinkMore.

(** X5. The write loop of a file sink never spins: in an execution the
    loop takes at most one step for each event appended and three for each
    send of a wake and for the close of the channel. *)
Theorem file_loop_never_spins {Event} `{!Runtime Event}
  (enc : Event -> option error -> file -> file * option error * option error)
  f (acts : list (action Event)) σ :
  exec enc acts (open_sink f) = Some σ ->
  loop_steps acts <= total_weight acts.
Proof.
  intros Hex. pose proof (potential_exec enc acts [] _ _ (open_sink_inv f) Hex) as Hpot.
  change (potential (open_sink f)) with 0 in Hpot. lia.
Qed.

(** ** No wake is lost *)

Section Wakes.
Context {Event : Type} `{!Runtime Event}.
Variable enc : Event -> option error -> file -> file * option error * option error.
Implicit Types (σ : fsys Event) (acts : list (action Event)).

Lemma awake_step evs n k a σ σ' :
  finv evs σ -> awake n σ -> fstep enc a σ = Some σ' ->
  in_flight n [a] = Some k -> awake k σ'.
Proof.
  intros Hinv Haw Hstep Hfl.
  destruct a as [e| | |]; simpl in Hfl.
  - injection Hfl as <-. intros _. right. right. left. lia.
  - destruct n as [|n']; [discriminate|]. injection Hfl as <-.
    simpl in Hstep. unfold Trace_signal in Hstep.
    destruct (Chan.select_send_default _) as [c| |] eqn:Hs; try discriminate.
    injection Hstep as <-. intros _. left. unfold chan_of. simpl.
    destruct (finv_mem _ _ Hinv) as (_ & _ & _ & Hle).
    by destruct (chan_select_len _ _ Hle Hs).
  - injection Hfl as <-. apply Close_step in Hstep as (_ & Hc & _). intros _. by do 3 right.
  - injection Hfl as <-. simpl in Hstep. unfold awake, chan_of in *.
    unfold doWrite_step in Hstep. destruct (pc σ) as [|ok|ok i m|] eqn:Hpc.
    + destruct (Chan.recv _) as [[c ok]|]; [|discriminate]. injection Hstep as <-.
      intros _. right. left. by exists ok.
    + injection Hstep as <-. simpl.
      destruct (swap_spec _ (finv_mem _ _ Hinv)) as (_ & -> & _). done.
    + case_decide.
      * destruct (enc _ _ _) as [[? ?] ?]. injection Hstep as <-. simpl.
        destruct (clear_spec i _ (finv_mem _ _ Hinv)) as (_ & -> & _).
        intros Hp. destruct (Haw Hp) as [?|[[? ?]|[?|?]]]; auto; discriminate.
      * destruct ok; injection Hstep as <-; simpl;
          intros Hp; destruct (Haw Hp) as [?|[[? ?]|[?|?]]]; auto; discriminate.
    + discriminate.
Qed.

Lemma in_flight_cons n a acts :
  in_flight n (a :: acts) =
  match in_flight n [a] with Some m => in_flight m acts | None => None end.
Proof. destruct a; try done. simpl. by destruct n. Qed.

Lemma awake_exec acts : forall evs n k σ σ',
  finv evs σ -> awake n σ -> exec enc acts σ = Some σ' ->
  in_flight n acts = Some k -> awake k σ'.
Proof.
  induction acts as [|a acts IH]; intros evs n k σ σ' Hinv Haw Hex Hfl.
  - simpl in *. injection Hex as <-. by injection Hfl as <-.
  - simpl in Hex. destruct (fstep enc a σ) as [σ1|] eqn:Hstep; [|discriminate].
    rewrite in_flight_cons in Hfl.
    destruct (in_flight n [a]) as [m|] eqn:Hm; [|discriminate].
    apply (IH (evs ++ appended [a]) m k σ1); try done.
    + by apply (fstep_inv enc evs a σ).
    + by apply (awake_step evs n m a σ).
Qed.

(** X6. No wake is lost in a file sink: when every Trace that has appended
    has also done its send, and events are pending, the loop is not parked
    at its receive: a wake is in the channel or the channel is closed, so
    that the loop goes on to swap and takes the events. *)
Theorem no_wake_is_lost f acts σ :
  exec enc acts (open_sink f) = Some σ ->
  in_flight 0 acts = Some 0 ->
  pending (fmem σ) <> [] ->
  pc σ = FRecv ->
  exists c ok, Chan.recv (chan_of σ) = Some (c, ok)
    /\ doWrite_step enc σ =
       Some (FSys (set_ch c (fmem σ)) (FSwap ok) (w σ) (errlog σ) (batches σ) (encoded σ)
                  (kept σ)).
Proof.
  intros Hex Hfl Hp Hpc.
  assert (awake 0 (open_sink (Event := Event) f)) as Haw0 by (intros Hne; by destruct Hne).
  pose proof (awake_exec acts [] 0 0 _ σ (open_sink_inv f) Haw0 Hex Hfl) as Haw.
  unfold doWrite_step. rewrite Hpc.
  destruct (Haw Hp) as [Hl|[[ok Hsw]|[Hn|Hc]]]; [| congruence | lia |];
    unfold chan_of, Chan.recv in *.
  - rewrite Hl. simpl. by do 2 eexists.
  - rewrite Hc. destruct (Chan.len _); by do 2 eexists.
Qed.

(** *** What the loop keeps of the events it has written *)

Lemma released_write evs σ σ' :
  finv evs σ -> released σ -> doWrite_step enc σ = Some σ' -> released σ'.
Proof.
  intros Hinv Hrel. unfold released, doWrite_step in *.
  destruct (pc σ) as [|ok|ok i n|] eqn:Hpc.
  - destruct (Chan.recv _) as [[c ok]|]; [|discriminate]. by intros [= <-].
  - intros [= <-]. simpl. by rewrite take_0.
  - pose proof (finv_range _ _ Hinv) as Hr. rewrite Hpc in Hr. destruct Hr as [-> Hi].
    pose proof (batch_length _ (finv_mem _ _ Hinv)) as Hlen.
    case_decide as Hlt.
    + destruct (enc _ _ _) as [[? ?] ?]. intros [= <-]. simpl.
      destruct (clear_spec i _ (finv_mem _ _ Hinv)) as (_ & _ & -> & _).
      rewrite (take_S_r _ _ zero).
      * rewrite take_insert_ge by lia. rewrite Hrel.
        symmetry. apply replicate_S_end.
      * apply list_lookup_insert_eq. lia.
    + assert (i = s_len (lbuf (fmem σ))) as -> by lia.
      rewrite <- Hlen, firstn_all in Hrel.
      destruct ok; intros [= <-]; simpl; exact Hrel.
  - discriminate.
Qed.

Lemma released_step evs a σ σ' :
  finv evs σ -> released σ -> fstep enc a σ = Some σ' -> released σ'.
Proof.
  intros Hinv Hrel. destruct (is_producer a) eqn:Hprod.
  - assert (fstep enc a σ =
            match mem_step a (fmem σ) with
            | Some m => Some (FSys m (pc σ) (w σ) (errlog σ) (batches σ) (encoded σ) (kept σ))
            | None => None
            end) as -> by by destruct a.
    destruct (mem_step a (fmem σ)) as [m'|] eqn:Hstep; [|discriminate].
    intros [= <-].
    destruct (mem_step_ok a _ _ (finv_mem _ _ Hinv) Hstep) as (_ & _ & Hb & _).
    unfold released in *. simpl. by rewrite Hb.
  - destruct a; try discriminate. by apply (released_write evs).
Qed.

Lemma released_exec acts : forall evs σ σ',
  finv evs σ -> released σ -> exec enc acts σ = Some σ' -> released σ'.
Proof.
  induction acts as [|a acts IH]; intros evs σ σ' Hinv Hrel Hex; simpl in Hex.
  - by injection Hex as <-.
  - destruct (fstep enc a σ) as [σ1|] eqn:Hstep; [|discriminate].
    apply (IH (evs ++ appended [a]) σ1); try done.
    + by apply (fstep_inv enc evs a σ).
    + by apply (released_step evs a σ).
Qed.

(** X7. A file loop keeps no event it has handed to the encoder: whenever
    it waits at its receive, is about to swap, or has returned, every slot
    of its buffer is nil, whatever the producers did in between; and in the
    middle of a batch the slots before the current one are nil. *)
Theorem file_loop_releases_events f acts σ :
  exec enc acts (open_sink f) = Some σ ->
  match pc σ with
  | FRange _ i _ => take i (batch (fmem σ)) = replicate i zero
  | _ => Forall (fun e => e = zero) (batch (fmem σ))
  end.
Proof.
  intros Hex.
  assert (released (open_sink (Event := Event) f)) as Hrel0 by done.
  pose proof (released_exec acts [] _ σ (open_sink_inv f) Hrel0 Hex) as Hrel.
  unfold released in Hrel.
  destruct (pc σ); try done; rewrite Hrel; apply Forall_replicate; done.
Qed.

End Wakes.

(** ** A producer, then [Close]: what the file sinks leave in the file *)

Section FileSinksOnClose.
Context {Event : Type} `{!Runtime Event}.
Implicit Types (σ : fsys Event) (evs : list Event) (acts : list (action Event)).

(** X8. A protobuf sink made by NewPBTracer on a file that takes every
    write; every event of a list can be serialised. One producer calls
    Trace for each event and then Close, interleaved in any way with the
    write loop. Then the execution has at most six actions for each event
    and four more, and once the loop can take no further step it has
    returned, the file is closed, nothing was logged, and the file holds
    the delimited messages of the events, in order and once each. *)
Theorem pb_sink_writes_every_event_then_closes
  (pb_frame : Event -> option (list byte)) evs σ0 acts σ :
  Forall (fun e => is_Some (pb_frame e)) evs ->
  NewPBTracer (inr []) = (Some σ0, None) ->
  exec (pb_WriteMsg pb_frame) acts σ0 = Some σ ->
  producer_actions acts = Trace_calls evs ++ [AClose] ->
  length acts <= 6 * length evs + 4
  /\ (PBTracer_doWrite pb_frame σ = None ->
      pc σ = FDone
      /\ f_closed (w σ) = true
      /\ errlog σ = []
      /\ f_data (w σ) = concat (map (frame_bytes pb_frame) evs)).
Proof.
  intros Hall [= <-] Hex Hprod.
  destruct (file_sink_drains pb_frame false evs acts σ Hall Hex Hprod) as [Hlen Hdone].
  split; [exact Hlen|].
  intros Hstuck. destruct (Hdone Hstuck) as (Hpc & Hcl & Hdata & Hlog). done.
Qed.

(** X9. The round trip of the JSON sink, for any list of events that
    [json_unmarshal] reads back: after Trace for each event and Close, in
    any interleaving with the write loop, once the loop can take no further
    step the file is closed and reads back, line by line, as the list of
    the events traced. *)
Theorem json_sink_reads_back_every_event
  (json_marshal : Event -> option (list byte))
  (json_unmarshal : list byte -> option Event) evs σ0 acts σ :
  Forall (json_codec_ok json_marshal json_unmarshal) evs ->
  NewJSONTracer (inr []) = (Some σ0, None) ->
  exec (json_Encode json_marshal) acts σ0 = Some σ ->
  producer_actions acts = Trace_calls evs ++ [AClose] ->
  JSONTracer_doWrite json_marshal σ = None ->
  pc σ = FDone
  /\ f_closed (w σ) = true
  /\ errlog σ = []
  /\ ndjson_decode json_unmarshal (f_data (w σ)) = Some evs.
Proof.
  intros Hcodec [= <-] Hex Hprod Hstuck.
  assert (Forall (fun e => is_Some (json_frame json_marshal e)) evs) as Hall.
  { eapply Forall_impl; [exact Hcodec|]. intros e (bs & Hm & _).
    unfold json_frame. rewrite Hm. by eexists. }
  destruct (file_sink_drains (json_frame json_marshal) true evs acts σ Hall Hex Hprod)
    as [_ Hdone].
  destruct (Hdone Hstuck) as (Hpc & Hcl & Hdata & Hlog).
  split; [done|]. split; [done|]. split; [done|].
  rewrite Hdata. by apply ndjson_roundtrip.
Qed.

End FileSinksOnClose.

(** ** The whole batch goes to the encoder *)

Section WholeBatch.
Context {Event : Type} `{!Runtime Event}.
Implicit Types (acts : list (action Event)).

(** X18. In the write loop of a file sink, whatever encoder it runs (the
    JSON one, the protobuf one) and whatever the encoder answers: from the
    start of a batch of n events the loop takes n steps, none blocked; the
    encoder is called with every event of the batch, in order; each failure
    adds its line to the log and nothing else; and the next step leaves the
    batch, back to the receive when the channel was not closed. *)
Theorem loop_calls_the_encoder_for_every_event
  (enc : Event -> option error -> file -> file * option error * option error)
  f acts (σ : fsys Event) ok n :
  exec enc acts (open_sink f) = Some σ ->
  pc σ = FRange ok 0 n ->
  exists σ' results,
    exec enc (replicate n AWrite) σ = Some σ'
    /\ n = length (batch (fmem σ))
    /\ results.*1 = batch (fmem σ)
    /\ encoded σ' = encoded σ ++ results
    /\ errlog σ' = errlog σ ++ omap snd results
    /\ doWrite_step enc σ' =
       Some (if ok
             then FSys (fmem σ') FRecv (w σ') (errlog σ') (batches σ') (encoded σ')
                       (kept σ')
             else FSys (fmem σ') FDone (file_Close (w σ')).1 (errlog σ')
                       (batches σ') (encoded σ') (kept σ')).
Proof.
  intros Hex Hpc. pose proof (exec_reachable_inv enc f acts σ Hex) as Hinv.
  destruct (drain_batch enc _ n σ ok 0 n Hinv Hpc) as
    (σ' & results & Hrun & Hinv' & Hpc' & Henc & Hres & Hlog & _); [lia|].
  exists σ', results. split; [done|].
  pose proof (finv_range _ _ Hinv) as Hr. rewrite Hpc in Hr. destruct Hr as [Hn _].
  split; [by rewrite (batch_length _ (finv_mem _ _ Hinv))|].
  rewrite drop_0 in Hres. do 3 (split; [done|]).
  by apply (leave_batch enc σ' ok n).
Qed.

End WholeBatch.

(** ** The remote sink *)

Section SliceFill.
Context {A : Type} `{!Runtime A}.

Lemma fill_view (h : list (list A)) s x k :
  wf_slice h s -> k <= s_len s ->
  view (fill h s k x) s = replicate k x ++ drop k (view h s).
Proof.
  intros Hwf. induction k as [|k IH]; intros Hk; simpl; [by rewrite drop_0|].
  rewrite store_view by (by apply fill_wf). rewrite IH by lia.
  pose proof (view_length h s Hwf) as Hlen.
  destruct (lookup_lt_is_Some_2 (view h s) k) as [y Hy]; [lia|].
  rewrite (drop_S _ _ _ Hy).
  rewrite insert_app_r_alt by (rewrite length_replicate; lia).
  rewrite length_replicate, Nat.sub_diag. simpl.
  rewrite (cons_middle x), app_assoc. by rewrite <- replicate_S_end.
Qed.

End SliceFill.

Section RemoteMore.
Context {Event : Type} `{!Runtime Event}.
Implicit Types (σ : rsys Event) (acts : list (action Event)).
Implicit Types (tr : list (effect Event)).

Lemma clear_all_batch (m : mem Event) :
  mem_ok m -> batch (clear_all m) = replicate (length (batch m)) zero.
Proof.
  intros (Hb & Hl & _). unfold batch, clear_all. simpl.
  rewrite fill_view by done. rewrite view_length by done.
  rewrite drop_ge by (rewrite view_length by done; lia). by rewrite app_nil_r.
Qed.

Lemma rpotential_write σ σ' :
  RemoteTracer_doWrite σ = Some σ' -> S (rpotential σ') <= rpotential σ.
Proof.
  unfold RemoteTracer_doWrite, rpotential.
  destruct σ as [m p ctx n s g er io tr lg]; simpl.
  destruct p as [| |ok|ok|ok|ok|ok|ok| |]; simpl.
  - destruct (openStream ctx n) as [[sid|e|] n1]; [| |discriminate]; intros [= <-]; simpl;
      rewrite ?andb_true_r, ?andb_false_r; [lia|]. destruct (Chan.closed _); lia.
  - unfold Chan.recv. destruct (ch (tracer m)) as [[|k] cl]; simpl.
    + destruct cl; [|discriminate]. intros [= <-]. simpl. lia.
    + intros [= <-]. simpl. rewrite !andb_true_r. destruct cl; lia.
  - intros [= <-]. simpl. lia.
  - intros [= <-]. simpl. lia.
  - intros [= <-]. simpl. case_decide; simpl; lia.
  - unfold pop_io. simpl. destruct io as [|[e|] io']; intros [= <-]; simpl; lia.
  - unfold pop_io. simpl. destruct io as [|r io']; intros [= <-]; simpl; lia.
  - destruct ok, er; intros [= <-]; simpl; rewrite ?andb_true_r, ?andb_false_r; lia.
  - destruct (openStream ctx n) as [[sid|e|] n1]; [| |discriminate]; intros [= <-]; simpl;
      rewrite ?andb_true_r, ?andb_false_r; [lia|]. destruct (Chan.closed _); lia.
  - discriminate.
Qed.

Lemma rpotential_step a σ σ' :
  rstep a σ = Some σ' ->
  rpotential σ' + (if is_producer a then 0 else 1) <= rpotential σ + rweight a.
Proof.
  destruct a as [e| | |]; simpl.
  - intros [= <-]. unfold rpotential. simpl.
    assert (ch (tracer (Trace_append e (r_mem σ))) = ch (tracer (r_mem σ))) as ->; [|lia].
    unfold Trace_append. by destruct (go_append _ _ _).
  - unfold Trace_signal, Chan.select_send_default, Chan.send.
    destruct (Chan.closed _) eqn:Hc; [discriminate|].
    destruct (Chan.len _ <? Chan.cap) eqn:Hl; intros [= <-]; unfold rpotential; simpl;
      rewrite ?Hc; simpl; lia.
  - unfold Close, Chan.close. destruct (Chan.closed _) eqn:Hcl; try discriminate.
    intros [= <-]. unfold rpotential. simpl. rewrite Hcl. simpl.
    destruct (rpc_ok (r_pc σ)); lia.
  - intros Hstep. pose proof (rpotential_write _ _ Hstep). lia.
Qed.

Lemma rpotential_exec acts : forall σ σ',
  rexec acts σ = Some σ' ->
  rpotential σ' + loop_steps acts <= rpotential σ + rtotal_weight acts.
Proof.
  induction acts as [|a acts IH]; intros σ σ' Hex; simpl in Hex.
  - injection Hex as <-. unfold loop_steps, rtotal_weight. simpl. lia.
  - destruct (rstep a σ) as [σ1|] eqn:Hstep; [|discriminate].
    pose proof (rpotential_step _ _ _ Hstep) as Hpot.
    specialize (IH _ _ Hex). unfold loop_steps, rtotal_weight in *. simpl.
    destruct (is_producer a); simpl; lia.
Qed.

(** X10. The remote loop never spins: in an execution it takes at most one
    step for the first openStream and eight for each send of a wake and for
    the close of the channel. *)
Theorem remote_loop_never_spins ctx host io acts σ :
  rexec acts (new_remote ctx host io) = Some σ ->
  loop_steps acts <= 1 + rtotal_weight acts.
Proof.
  intros Hex. pose proof (rpotential_exec _ _ _ Hex) as Hgen.
  change (rpotential (new_remote ctx host io)) with 1 in Hgen. lia.
Qed.

(** *** No wake is lost *)

Lemma rawake_step evs n k a σ σ' :
  rinv evs σ -> rawake n σ -> rstep a σ = Some σ' ->
  in_flight n [a] = Some k -> rawake k σ'.
Proof.
  intros Hinv Haw Hstep Hfl.
  destruct a as [e| | |]; simpl in Hfl.
  - injection Hfl as <-. intros _. right. right. left. lia.
  - destruct n as [|n']; [discriminate|]. injection Hfl as <-.
    simpl in Hstep. unfold Trace_signal in Hstep.
    destruct (Chan.select_send_default _) as [c| |] eqn:Hs; try discriminate.
    injection Hstep as <-. intros _. left. simpl.
    destruct (rinv_mem _ _ Hinv) as (_ & _ & _ & Hle).
    by destruct (chan_select_len _ _ Hle Hs).
  - injection Hfl as <-. simpl in Hstep. unfold Close, Chan.close in Hstep.
    destruct (Chan.closed _); [discriminate|]. injection Hstep as <-.
    intros _. by do 3 right.
  - injection Hfl as <-. simpl in Hstep. unfold rawake in *.
    unfold RemoteTracer_doWrite in Hstep.
    destruct σ as [m p ctx nt s g er io tr lg]; simpl in *.
    destruct p as [| |ok|ok|ok|ok|ok|ok| |]; simpl in *.
    + destruct (openStream ctx nt) as [[sid|e|] n1]; [| |discriminate];
        injection Hstep as <-; simpl; intros Hp;
        destruct (Haw Hp) as [?|[?|[?|?]]]; auto; discriminate.
    + destruct (Chan.recv _) as [[c ok]|]; [|discriminate]. injection Hstep as <-.
      intros _. right. by left.
    + injection Hstep as <-. intros _. right. by left.
    + injection Hstep as <-. intros _. right. by left.
    + injection Hstep as <-. simpl.
      destruct (swap_spec _ (rinv_mem _ _ Hinv)) as (_ & Hp0 & _). simpl in Hp0.
      by rewrite Hp0.
    + unfold pop_io in Hstep. simpl in Hstep.
      destruct io as [|[e|] io']; injection Hstep as <-; simpl; intros Hp;
        destruct (Haw Hp) as [?|[?|[?|?]]]; auto; discriminate.
    + unfold pop_io in Hstep. simpl in Hstep.
      destruct io as [|r io']; injection Hstep as <-; simpl; intros Hp;
        destruct (Haw Hp) as [?|[?|[?|?]]]; auto; discriminate.
    + destruct ok, er; injection Hstep as <-; simpl; intros Hp;
        destruct (Haw Hp) as [?|[?|[?|?]]]; auto; discriminate.
    + destruct (openStream ctx nt) as [[sid|e|] n1]; [| |discriminate];
        injection Hstep as <-; simpl; intros Hp;
        destruct (Haw Hp) as [?|[?|[?|?]]]; auto; discriminate.
    + discriminate.
Qed.

Lemma rawake_exec acts : forall evs n k σ σ',
  rinv evs σ -> rawake n σ -> rexec acts σ = Some σ' ->
  in_flight n acts = Some k -> rawake k σ'.
Proof.
  induction acts as [|a acts IH]; intros evs n k σ σ' Hinv Haw Hex Hfl.
  - simpl in *. injection Hex as <-. by injection Hfl as <-.
  - simpl in Hex. destruct (rstep a σ) as [σ1|] eqn:Hstep; [|discriminate].
    rewrite in_flight_cons in Hfl.
    destruct (in_flight n [a]) as [m|] eqn:Hm; [|discriminate].
    apply (IH (evs ++ appended [a]) m k σ1); try done.
    + by apply (rstep_inv evs a σ).
    + by apply (rawake_step evs n m a σ).
Qed.

(** X11. No wake is lost in the remote sink: when every Trace that has
    appended has also done its send, and events are pending, the loop is
    not parked at its receive. *)
Theorem no_wake_is_lost_remote ctx host io acts σ :
  rexec acts (new_remote ctx host io) = Some σ ->
  in_flight 0 acts = Some 0 ->
  pending (r_mem σ) <> [] ->
  r_pc σ = RRecv ->
  exists c ok, Chan.recv (ch (tracer (r_mem σ))) = Some (c, ok)
    /\ RemoteTracer_doWrite σ = Some (set_pc (RClear ok) (set_mem (set_ch c (r_mem σ)) σ)).
Proof.
  intros Hex Hfl Hp Hpc.
  assert (rawake 0 (new_remote (Event := Event) ctx host io)) as Haw0
    by (intros Hne; by destruct Hne).
  pose proof (rawake_exec acts [] 0 0 _ σ (new_remote_inv _ _ _) Haw0 Hex Hfl) as Haw.
  unfold RemoteTracer_doWrite. rewrite Hpc.
  destruct (Haw Hp) as [Hl|[Hsw|[Hn|Hc]]]; [| by rewrite Hpc in Hsw | lia |];
    unfold Chan.recv in *.
  - rewrite Hl. simpl. by do 2 eexists.
  - rewrite Hc. destruct (Chan.len _); by do 2 eexists.
Qed.

End RemoteMore.

Section RemoteStreams.
Context {Event : Type} `{!Runtime Event}.
Implicit Types (σ : rsys Event) (acts : list (action Event)).
Implicit Types (tr : list (effect Event)).

(** *** What the remote loop keeps of the events it has sent *)

Lemma rreleased_step evs a σ σ' :
  rinv evs σ -> rreleased σ -> rstep a σ = Some σ' -> rreleased σ'.
Proof.
  intros Hinv Hrel. destruct (is_producer a) eqn:Hprod.
  - assert (rstep a σ =
            match mem_step a (r_mem σ) with
            | Some m => Some (set_mem m σ)
            | None => None
            end) as -> by by destruct a.
    destruct (mem_step a (r_mem σ)) as [m'|] eqn:Hstep; [|discriminate].
    intros [= <-].
    destruct (mem_step_ok a _ _ (rinv_mem _ _ Hinv) Hstep) as (_ & _ & Hb & _).
    unfold rreleased in *. simpl. by rewrite Hb.
  - destruct a; try discriminate. simpl.
    unfold rreleased, RemoteTracer_doWrite in *.
    destruct σ as [m p ctx nt s g er io tr lg]; simpl in *.
    destruct p as [| |ok|ok|ok|ok|ok|ok| |]; simpl in *.
    + destruct (openStream ctx nt) as [[sid|e|] n1]; [| |discriminate]; by intros [= <-].
    + destruct (Chan.recv _) as [[c ok]|]; [|discriminate]. by intros [= <-].
    + intros [= <-]. simpl. rewrite clear_all_batch by apply Hinv.
      by rewrite length_replicate.
    + by intros [= <-].
    + intros [= <-]. simpl. by case_decide.
    + unfold pop_io. simpl. destruct io as [|[e|] io']; by intros [= <-].
    + unfold pop_io. simpl. destruct io as [|r io']; by intros [= <-].
    + destruct ok, er; by intros [= <-].
    + destruct (openStream ctx nt) as [[sid|e|] n1]; [| |discriminate]; by intros [= <-].
    + discriminate.
Qed.

Lemma rreleased_exec acts : forall evs σ σ',
  rinv evs σ -> rreleased σ -> rexec acts σ = Some σ' -> rreleased σ'.
Proof.
  induction acts as [|a acts IH]; intros evs σ σ' Hinv Hrel Hex; simpl in Hex.
  - by injection Hex as <-.
  - destruct (rstep a σ) as [σ1|] eqn:Hstep; [|discriminate].
    apply (IH (evs ++ appended [a]) σ1); try done.
    + by apply (rstep_inv evs a σ).
    + by apply (rreleased_step evs a σ).
Qed.

(** X12. The remote loop hands the producers a cleared array: when it
    sleeps before its swap and when it swaps, every slot of its buffer is
    nil, whatever the producers did since the loop cleared it. *)
Theorem remote_loop_releases_events ctx host io acts σ ok :
  rexec acts (new_remote ctx host io) = Some σ ->
  r_pc σ = RSleep ok \/ r_pc σ = RSwap ok ->
  Forall (fun e => e = zero) (batch (r_mem σ)).
Proof.
  intros Hex Hpc.
  assert (rreleased (new_remote (Event := Event) ctx host io)) as Hrel0 by done.
  pose proof (rreleased_exec acts [] _ σ (new_remote_inv _ _ _) Hrel0 Hex) as Hrel.
  unfold rreleased in Hrel.
  destruct Hpc as [Hpc|Hpc]; rewrite Hpc in Hrel; rewrite Hrel;
    by apply Forall_replicate.
Qed.

(** *** When the loop has returned *)

Lemma rstep_done a σ σ' :
  r_pc σ = RDone -> rstep a σ = Some σ' ->
  exists m', mem_step a (r_mem σ) = Some m' /\ σ' = set_mem m' σ /\ is_producer a = true.
Proof.
  intros Hpc. destruct a; simpl;
    try (destruct (mem_step _ _) as [m'|] eqn:Hm; [|discriminate]; intros [= <-]; by eexists).
  - intros [= <-]. by eexists.
  - unfold Trace_signal. destruct (Chan.select_send_default _) as [c| |]; try discriminate.
    intros [= <-]. by eexists.
  - unfold Close. destruct (Chan.close _) as [c| |]; try discriminate.
    intros [= <-]. by eexists.
  - unfold RemoteTracer_doWrite. by rewrite Hpc.
Qed.

(** X13. Once the remote loop has returned (its context was cancelled, or
    the channel was closed), nothing is sent any more: the trace, the log
    and the host stay as they are, and every event traced from then on
    stays in the buffer, which only grows. *)
Theorem returned_remote_loop_only_buffers ctx host io acts0 σ acts σ' :
  rexec acts0 (new_remote ctx host io) = Some σ ->
  r_pc σ = RDone ->
  rexec acts σ = Some σ' ->
  r_pc σ' = RDone
  /\ r_trace σ' = r_trace σ
  /\ r_log σ' = r_log σ
  /\ r_net σ' = r_net σ
  /\ pending (r_mem σ') = pending (r_mem σ) ++ appended acts.
Proof.
  intros Hex0 Hpc Hex.
  pose proof (rexec_reachable_inv ctx host io acts0 σ Hex0) as Hinv.
  clear Hex0. revert σ Hinv Hpc Hex. generalize (appended acts0) as evs.
  induction acts as [|a acts IH]; intros evs σ Hinv Hpc Hex; simpl in Hex.
  - injection Hex as <-. by rewrite app_nil_r.
  - destruct (rstep a σ) as [σ1|] eqn:Hstep; [|discriminate].
    pose proof (rstep_inv _ _ _ _ Hinv Hstep) as Hinv1.
    destruct (rstep_done _ _ _ Hpc Hstep) as (m' & Hm & -> & _).
    destruct (mem_step_ok a _ _ (rinv_mem _ _ Hinv) Hm) as (_ & Hp & _).
    destruct (IH _ _ Hinv1 Hpc Hex) as (H1 & H2 & H3 & H4 & H5).
    do 4 (split; [done|]). simpl in H5.
    by rewrite H5, Hp, (appended_cons a acts), app_assoc.
Qed.

(** X14. If the first openStream fails (the context is cancelled before
    the host gives a stream), the remote sink never sends anything: no
    effect on any stream, the error logged once, and every event traced
    stays in the buffer. *)
Theorem failed_first_connect_sends_nothing ctx host io e n acts σ :
  openStream ctx host = (Err e, n) ->
  rexec acts (new_remote ctx host io) = Some σ ->
  r_trace σ = []
  /\ pending (r_mem σ) = appended acts
  /\ ((r_pc σ = RInit /\ r_log σ = [] /\ r_net σ = host)
      \/ (r_pc σ = RDone /\ r_log σ = [e] /\ r_net σ = n)).
Proof.
  intros Hos Hex.
  pose proof (rexec_reachable_inv ctx host io acts σ Hex) as Hinv.
  assert (r_trace σ = []
          /\ ((r_pc σ = RInit /\ r_log σ = [] /\ r_net σ = host)
              \/ (r_pc σ = RDone /\ r_log σ = [e] /\ r_net σ = n))) as [Htr Hpc].
  { pose proof (rexec_ctx acts _ _ Hex) as Hctx. simpl in Hctx. clear Hinv.
    assert (forall l (τ τ' : rsys Event),
              r_ctx τ = ctx ->
              (r_trace τ = []
               /\ ((r_pc τ = RInit /\ r_log τ = [] /\ r_net τ = host)
                   \/ (r_pc τ = RDone /\ r_log τ = [e] /\ r_net τ = n))) ->
              rexec l τ = Some τ' ->
              r_trace τ' = []
              /\ ((r_pc τ' = RInit /\ r_log τ' = [] /\ r_net τ' = host)
                  \/ (r_pc τ' = RDone /\ r_log τ' = [e] /\ r_net τ' = n))) as Hgen.
    { induction l as [|a l IH]; intros τ τ' Hc Hτ Hr; simpl in Hr.
      - by injection Hr as <-.
      - destruct (rstep a τ) as [τ1|] eqn:Hstep; [|discriminate].
        apply (IH τ1 τ'); [| |done].
        + destruct a; simpl in Hstep;
            try (destruct (lift _) as [m'|]; [|discriminate]);
            try (by injection Hstep as <-).
          by rewrite (RemoteTracer_doWrite_ctx _ _ Hstep).
        + destruct Hτ as [Ht Hp].
          destruct a; simpl in Hstep;
            try (destruct (lift _) as [m'|]; [|discriminate]);
            try (by injection Hstep as <-).
          unfold RemoteTracer_doWrite in Hstep.
          destruct Hp as [(Hp & Hl & Hn)|(Hp & Hl & Hn)]; rewrite Hp in Hstep;
            [|discriminate].
          rewrite Hc, Hn, Hos in Hstep. injection Hstep as <-. simpl.
          split; [done|]. right. by rewrite Hl. }
    apply (Hgen acts (new_remote ctx host io) σ); [done| |done].
    split; [done|]. left. done. }
  split; [done|]. split; [|done].
  pose proof (rinv_swapped _ _ Hinv) as Hsw. by rewrite Htr in Hsw.
Qed.

(** *** A stream that was reset is never used again *)

Lemma resets_snoc tr (x : effect Event) :
  resets (tr ++ [x]) = resets tr ++ match x with EReset (Some s) => [s] | _ => [] end.
Proof. unfold resets. rewrite omap_app. by destruct x as [| | | |[]| | |]. Qed.

Lemma reset_is_final_snoc tr (x : effect Event) :
  reset_is_final tr ->
  (forall sid, sid ∈ resets tr -> effect_stream x <> Some sid) ->
  reset_is_final (tr ++ [x]).
Proof.
  intros Hfin Hx pre e post sid Heq Hin.
  destruct post as [|y post _] using rev_ind.
  - apply app_inj_tail in Heq as [-> ->]. by apply Hx.
  - rewrite app_comm_cons, app_assoc in Heq. apply app_inj_tail in Heq as [Heq _].
    by apply (Hfin pre e post sid).
Qed.

Lemma resets_are_old_write evs σ σ' :
  rinv evs σ -> stream_known σ -> resets_are_old σ -> reset_is_final (r_trace σ) ->
  RemoteTracer_doWrite σ = Some σ' ->
  resets_are_old σ' /\ reset_is_final (r_trace σ').
Proof.
  intros Hinv Hk [Hold Hcur] Hfin. pose proof (rinv_stream _ _ Hinv) as Hst.
  unfold resets_are_old, stream_known, RemoteTracer_doWrite in *.
  destruct σ as [m p ctx nt s g er io tr lg]; simpl in *.
  destruct p as [| |ok|ok|ok|ok|ok|ok| |]; simpl in *.
  - pose proof (openStream_opened ctx nt) as [Hle Hs].
    destruct (openStream ctx nt) as [[sid|e|] n1]; [| |discriminate]; intros [= <-]; simpl in *.
    + destruct (Hs sid eq_refl) as [Hge Hop].
      split; [split|].
      * intros x. rewrite resets_snoc, app_nil_r. intros Hx. specialize (Hold x Hx). lia.
      * intros x cur. rewrite resets_snoc, app_nil_r. intros Hx [= <-].
        specialize (Hold x Hx). lia.
      * apply reset_is_final_snoc; [done|]. intros x Hx [= ->].
        specialize (Hold x Hx). lia.
    + split; [split; [|done]|done]. intros x Hx. specialize (Hold x Hx). lia.
  - destruct (Chan.recv _) as [[c ok]|]; [|discriminate]. by intros [= <-].
  - by intros [= <-].
  - by intros [= <-].
  - intros [= <-]. simpl. rewrite resets_snoc, app_nil_r.
    split; [split; [done|by case_decide]|].
    apply reset_is_final_snoc; [done|]. by intros.
  - destruct Hst as (cur & -> & ->).
    unfold pop_io. simpl.
    destruct io as [|r io']; [|destruct r as [e|]]; intros [= <-]; simpl;
      rewrite resets_snoc, app_nil_r; (split; [done|]);
      (apply reset_is_final_snoc; [done|]); intros x Hx [= ->];
      specialize (Hcur x x Hx eq_refl); lia.
  - destruct Hst as (cur & -> & ->).
    unfold pop_io. simpl.
    destruct io as [|r io']; intros [= <-]; simpl;
      rewrite resets_snoc, app_nil_r; (split; [done|]);
      (apply reset_is_final_snoc; [done|]); intros x Hx [= ->];
      specialize (Hcur x x Hx eq_refl); lia.
  - destruct Hst as (cur & -> & ->).
    assert (forall x, x ∈ resets tr -> x <> cur) as Hne.
    { intros x Hx ->. specialize (Hcur cur cur Hx eq_refl). lia. }
    specialize (Hk cur eq_refl).
    destruct ok, er; intros [= <-]; simpl.
    + rewrite resets_snoc. split; [split; [|done]|].
      * intros x Hx. apply elem_of_app in Hx as [Hx|Hx]; [by apply Hold|].
        apply list_elem_of_singleton in Hx as ->. done.
      * apply reset_is_final_snoc; [done|]. intros x Hx [= <-]. by apply (Hne cur).
    + done.
    + rewrite resets_snoc. split; [split; [|done]|].
      * intros x Hx. apply elem_of_app in Hx as [Hx|Hx]; [by apply Hold|].
        apply list_elem_of_singleton in Hx as ->. done.
      * apply reset_is_final_snoc; [done|]. intros x Hx [= <-]. by apply (Hne cur).
    + change (tr ++ [EGzipClose (Some cur); EFullClose (Some cur)])
        with (tr ++ [EGzipClose (Some cur)] ++ [EFullClose (Some cur)]).
      rewrite app_assoc, !resets_snoc, !app_nil_r. split; [done|].
      apply reset_is_final_snoc; [apply reset_is_final_snoc; [done|]|].
      * intros x Hx [= <-]. by apply (Hne cur).
      * rewrite resets_snoc, app_nil_r. intros x Hx [= <-]. by apply (Hne cur).
  - pose proof (openStream_opened ctx nt) as [Hle Hs].
    destruct (openStream ctx nt) as [[sid|e|] n1]; [| |discriminate]; intros [= <-]; simpl in *.
    + destruct (Hs sid eq_refl) as [Hge Hop].
      split; [split|].
      * intros x. rewrite resets_snoc, app_nil_r. intros Hx. specialize (Hold x Hx). lia.
      * intros x cur. rewrite resets_snoc, app_nil_r. intros Hx [= <-].
        specialize (Hold x Hx). lia.
      * apply reset_is_final_snoc; [done|]. intros x Hx [= ->].
        specialize (Hold x Hx). lia.
    + split; [split; [|done]|done]. intros x Hx. specialize (Hold x Hx). lia.
  - discriminate.
Qed.

Lemma resets_are_old_exec acts : forall evs σ σ',
  rinv evs σ -> stream_known σ -> resets_are_old σ -> reset_is_final (r_trace σ) ->
  rexec acts σ = Some σ' ->
  reset_is_final (r_trace σ').
Proof.
  induction acts as [|a acts IH]; intros evs σ σ' Hinv Hk Hold Hfin Hex; simpl in Hex.
  - by injection Hex as <-.
  - destruct (rstep a σ) as [σ1|] eqn:Hstep; [|discriminate].
    pose proof (rstep_inv _ _ _ _ Hinv Hstep) as Hinv1.
    assert (stream_known σ1) as Hk1.
    { apply (rexec_known [a] σ σ1 Hk). simpl. by rewrite Hstep. }
    assert (resets_are_old σ1 /\ reset_is_final (r_trace σ1)) as [Hold1 Hfin1].
    { destruct a; simpl in Hstep;
        try (destruct (lift _) as [m'|]; [|discriminate]);
        try (by injection Hstep as <-).
      by apply (resets_are_old_write evs σ). }
    by apply (IH (evs ++ appended [a]) σ1 σ').
Qed.

(** X15. The remote loop never uses a stream it has reset: in the trace of
    an execution no effect (a write, a flush, a close, a reset, a
    compressor set over a stream) is about a stream that was reset before
    it. After an error the batches go to the stream opened next. *)
Theorem reset_stream_is_never_used_again ctx host io acts σ :
  rexec acts (new_remote ctx host io) = Some σ ->
  forall pre e post sid,
    r_trace σ = pre ++ e :: post ->
    EReset (Some sid) ∈ pre ->
    effect_stream e <> Some sid.
Proof.
  intros Hex pre e post sid Heq Hin.
  assert (reset_is_final (r_trace σ)) as Hfin.
  { apply (resets_are_old_exec acts [] (new_remote ctx host io) σ); try done.
    - apply new_remote_inv.
    - split; [|done]. intros x Hx. simpl in Hx. by apply elem_of_nil in Hx.
    - intros pre' e' post' sid' Heq'. by destruct pre'. }
  apply (Hfin pre e post sid Heq).
  unfold resets. apply (list_elem_of_omap _ pre sid). exists (EReset (Some sid)). by split.
Qed.

End RemoteStreams.

(** ** A producer, then [Close]: the remote sink sends everything *)

Section RemoteDelivery.
Context {Event : Type} `{!Runtime Event}.
Implicit Types (σ : rsys Event) (acts : list (action Event)) (evs : list Event).

Lemma rexec_app acts1 acts2 σ :
  rexec (acts1 ++ acts2) σ =
  match rexec acts1 σ with Some σ1 => rexec acts2 σ1 | None => None end.
Proof.
  revert σ. induction acts1 as [|a acts1 IH]; intros σ; simpl; [done|].
  by destruct (rstep a σ).
Qed.

Lemma mem_step_keeps_closed (a : action Event) m m' :
  mem_step a m = Some m' ->
  Chan.closed (ch (tracer m)) = true -> Chan.closed (ch (tracer m')) = true.
Proof.
  destruct a as [e| | |]; simpl.
  - intros [= <-]. unfold Trace_append. by destruct (go_append _ _ _).
  - intros Hs Hc. unfold Trace_signal in Hs.
    rewrite chan_select_closed in Hs by done. discriminate.
  - intros Hs Hc. unfold Close, Chan.close in Hs. rewrite Hc in Hs. discriminate.
  - by intros [= <-].
Qed.

Lemma delivered_clean sid (tr : list (effect Event)) :
  Forall (clean sid) tr -> delivered tr = sent tr /\ resets tr = [].
Proof.
  unfold delivered, sent, resets.
  induction 1 as [|e tr He _ [IH1 IH2]]; [done|].
  destruct e as [b|s|s b r|s r|s|s|s|s]; simpl in *; try done.
  destruct He as [_ ->]. split; [f_equal; exact IH1|exact IH2].
Qed.

Lemma rhappy_write host sid n evs σ σ' :
  openStream (r_ctx σ) host = (Ok sid, n) ->
  rinv evs σ -> rhappy host sid σ ->
  RemoteTracer_doWrite σ = Some σ' -> rhappy host sid σ'.
Proof.
  intros Hos Hinv [Hio Hlog Herr Hpc Hinit Hst Htr Hcl Hdone].
  unfold RemoteTracer_doWrite.
  destruct σ as [m p ctx nt s g er io tr lg]; simpl in *.
  assert (forall x : effect Event, clean sid x -> Forall (clean sid) (tr ++ [x])) as Hsnoc.
  { intros x Hx. apply Forall_app. split; [done|]. by apply Forall_singleton. }
  destruct p as [| |ok|ok|ok|ok|ok|ok| |]; simpl in *;
    [|destruct (Hst ltac:(done)) as [-> ->]..].
  - destruct (Hinit eq_refl) as [-> ->]. rewrite Hos. intros [= <-].
    split; simpl; try done.
    by repeat constructor.
  - destruct (Chan.recv _) as [[c ok]|] eqn:Hr; [|discriminate]. intros [= <-].
    split; simpl; try done.
    intros ->. by apply (chan_recv_closed _ _ Hr).
  - intros [= <-]. by split.
  - intros [= <-]. by split.
  - intros [= <-].
    split; simpl; try done; first [by case_decide|by apply Hsnoc].
  - unfold pop_io. simpl. destruct io as [|r io'].
    + intros [= <-]. split; simpl; try done. by apply Hsnoc.
    + apply Forall_cons in Hio as [-> Hio]. intros [= <-]. split; simpl; try done.
      by apply Hsnoc.
  - unfold pop_io. simpl. destruct io as [|r io'].
    + intros [= <-]. split; simpl; try done. by apply Hsnoc.
    + apply Forall_cons in Hio as [-> Hio]. intros [= <-]. split; simpl; try done.
      by apply Hsnoc.
  - subst er. destruct ok; intros [= <-]; split; simpl; try done.
    + change (tr ++ [EGzipClose (Some sid); EFullClose (Some sid)])
        with (tr ++ [EGzipClose (Some sid)] ++ [EFullClose (Some sid)]).
      rewrite app_assoc. apply Forall_app. split; [by apply Hsnoc|].
      by apply Forall_singleton.
    + intros _. by exists tr.
  - done.
  - discriminate.
Qed.

Lemma rhappy_step host sid n evs a σ σ' :
  openStream (r_ctx σ) host = (Ok sid, n) ->
  rinv evs σ -> rhappy host sid σ ->
  rstep a σ = Some σ' -> rhappy host sid σ'.
Proof.
  intros Hos Hinv Hh. destruct (is_producer a) eqn:Hprod.
  - assert (rstep a σ =
            match mem_step a (r_mem σ) with
            | Some m => Some (set_mem m σ)
            | None => None
            end) as -> by by destruct a.
    destruct (mem_step a (r_mem σ)) as [m'|] eqn:Hstep; [|discriminate].
    intros [= <-]. destruct Hh as [Hio Hlog Herr Hpc Hinit Hst Htr Hcl Hdone].
    split; simpl; try done.
    intros Hok. by apply (mem_step_keeps_closed a (r_mem σ)); [|apply Hcl].
  - destruct a; try discriminate. simpl. by apply (rhappy_write host sid n evs).
Qed.

Lemma rhappy_exec host sid n acts : forall evs σ σ',
  openStream (r_ctx σ) host = (Ok sid, n) ->
  rinv evs σ -> rhappy host sid σ ->
  rexec acts σ = Some σ' -> rhappy host sid σ'.
Proof.
  induction acts as [|a acts IH]; intros evs σ σ' Hos Hinv Hh Hex; simpl in Hex.
  - by injection Hex as <-.
  - destruct (rstep a σ) as [σ1|] eqn:Hstep; [|discriminate].
    apply (IH (evs ++ appended [a]) σ1); try done.
    + assert (r_ctx σ1 = r_ctx σ) as ->; [|done].
      apply (rexec_ctx [a]). simpl. by rewrite Hstep.
    + by apply (rstep_inv evs a σ).
    + by apply (rhappy_step host sid n evs a σ).
Qed.

Lemma new_remote_happy ctx host sid io :
  Forall (fun r => r = None) io ->
  rhappy host sid (new_remote (Event := Event) ctx host io).
Proof. intros Hio. by split. Qed.

Lemma rsealed_write host sid n evs σ σ' :
  openStream (r_ctx σ) host = (Ok sid, n) ->
  rinv evs σ -> rhappy host sid σ -> rsealed σ ->
  RemoteTracer_doWrite σ = Some σ' -> rsealed σ'.
Proof.
  intros Hos Hinv Hh Hs.
  pose proof (rhappy_init _ _ _ Hh) as Hinit. pose proof (rhappy_pc _ _ _ Hh) as Hpc.
  unfold RemoteTracer_doWrite, rsealed in *.
  destruct σ as [m p ctx nt s g er io tr lg]; simpl in *.
  destruct p as [| |ok|ok|ok|ok|ok|ok| |]; simpl in *.
  - destruct (Hinit eq_refl) as [-> _]. rewrite Hos. by intros [= <-].
  - destruct (Chan.recv _) as [[c ok]|]; [|discriminate]. by intros [= <-].
  - by intros [= <-].
  - by intros [= <-].
  - intros [= <-]. simpl.
    destruct (swap_spec _ (rinv_mem _ _ Hinv)) as (_ & Hp & _). simpl in Hp.
    case_decide; by destruct ok.
  - unfold pop_io. simpl. destruct io as [|[e|] io']; intros [= <-]; simpl; by destruct ok.
  - unfold pop_io. simpl. destruct io as [|r io']; intros [= <-]; simpl; by destruct ok.
  - destruct ok, er; intros [= <-]; simpl; done.
  - done.
  - discriminate.
Qed.

Lemma rsealed_writes host sid n acts : forall evs σ σ',
  Forall (fun a => is_producer a = false) acts ->
  openStream (r_ctx σ) host = (Ok sid, n) ->
  rinv evs σ -> rhappy host sid σ -> rsealed σ ->
  rexec acts σ = Some σ' -> rsealed σ'.
Proof.
  induction acts as [|a acts IH]; intros evs σ σ' Hall Hos Hinv Hh Hs Hex; simpl in Hex.
  - by injection Hex as <-.
  - apply Forall_cons in Hall as [Ha Hall].
    destruct a; try discriminate. simpl in Hex.
    destruct (RemoteTracer_doWrite σ) as [σ1|] eqn:Hstep; [|discriminate].
    apply (IH evs σ1); try done.
    + by rewrite (RemoteTracer_doWrite_ctx _ _ Hstep).
    + by apply (RemoteTracer_doWrite_inv evs σ).
    + by apply (rhappy_write host sid n evs σ).
    + by apply (rsealed_write host sid n evs σ).
Qed.

Lemma rclosed_exec acts : forall σ σ',
  rexec acts σ = Some σ' ->
  Chan.closed (ch (tracer (r_mem σ))) = true ->
  Chan.closed (ch (tracer (r_mem σ'))) = true.
Proof.
  induction acts as [|a acts IH]; intros σ σ' Hex Hc; simpl in Hex.
  - by injection Hex as <-.
  - destruct (rstep a σ) as [σ1|] eqn:Hstep; [|discriminate].
    apply (IH σ1); [done|]. clear IH Hex.
    destruct (is_producer a) eqn:Hprod.
    + assert (rstep a σ =
              match mem_step a (r_mem σ) with
              | Some m => Some (set_mem m σ)
              | None => None
              end) as Heq by by destruct a.
      rewrite Heq in Hstep.
      destruct (mem_step a (r_mem σ)) as [m'|] eqn:Hm; [|discriminate].
      injection Hstep as <-. simpl. by apply (mem_step_keeps_closed a (r_mem σ)).
    + destruct a; try discriminate. simpl in Hstep.
      unfold RemoteTracer_doWrite in Hstep.
      destruct σ as [m p ctx nt s g er io tr lg]; simpl in *.
      destruct p as [| |ok|ok|ok|ok|ok|ok| |]; simpl in *.
      * destruct (openStream ctx nt) as [[sid|e|] n1]; [| |discriminate];
          by injection Hstep as <-.
      * destruct (Chan.recv _) as [[c ok]|] eqn:Hr; [|discriminate].
        injection Hstep as <-. simpl. by rewrite (chan_recv_keeps_closed _ _ _ Hr).
      * by injection Hstep as <-.
      * by injection Hstep as <-.
      * by injection Hstep as <-.
      * unfold pop_io in Hstep. simpl in Hstep.
        destruct io as [|[e|] io']; by injection Hstep as <-.
      * unfold pop_io in Hstep. simpl in Hstep.
        destruct io as [|r io']; by injection Hstep as <-.
      * destruct ok, er; by injection Hstep as <-.
      * destruct (openStream ctx nt) as [[sid|e|] n1]; [| |discriminate];
          by injection Hstep as <-.
      * discriminate.
Qed.

Lemma rstuck_closed host sid n σ :
  openStream (r_ctx σ) host = (Ok sid, n) ->
  rhappy host sid σ ->
  Chan.closed (ch (tracer (r_mem σ))) = true ->
  RemoteTracer_doWrite σ = None -> r_pc σ = RDone.
Proof.
  intros Hos Hh Hc.
  pose proof (rhappy_init _ _ _ Hh) as Hinit. pose proof (rhappy_pc _ _ _ Hh) as Hpc.
  unfold RemoteTracer_doWrite.
  destruct σ as [m p ctx nt s g er io tr lg]; simpl in *.
  destruct p as [| |ok|ok|ok|ok|ok|ok| |]; simpl in *; try done.
  - destruct (Hinit eq_refl) as [-> _]. by rewrite Hos.
  - unfold Chan.recv. rewrite Hc. by destruct (Chan.len _).
  - unfold pop_io. simpl. by destruct io as [|[e|] io'].
  - unfold pop_io. simpl. by destruct io as [|r io'].
  - by destruct ok, er.
Qed.

Lemma rtotal_weight_producers acts :
  rtotal_weight acts = rtotal_weight (producer_actions acts).
Proof.
  unfold rtotal_weight, producer_actions.
  induction acts as [|a acts IH]; simpl; [done|].
  destruct a; simpl; lia.
Qed.

Lemma rtotal_weight_Trace_calls evs :
  rtotal_weight (Trace_calls evs ++ [AClose]) = 8 * length evs + 8.
Proof.
  unfold rtotal_weight. induction evs as [|e evs IH]; [done|].
  simpl in *. rewrite IH. lia.
Qed.

(** X16. A remote sink whose first openStream gives a stream and whose
    writes and flushes all succeed; one producer calls Trace for each event
    of a list and then Close, interleaved in any way with the loop. Then
    the execution is bounded, and once the loop can take no further step it
    has returned, every event was written to that stream, in order and once,
    nothing was logged, no stream was reset, and the last two effects close
    the compressor and the stream. *)
Theorem remote_sink_sends_everything_on_close ctx host io sid n evs acts σ :
  openStream ctx host = (Ok sid, n) ->
  Forall (fun r => r = None) io ->
  rexec acts (new_remote ctx host io) = Some σ ->
  producer_actions acts = Trace_calls evs ++ [AClose] ->
  length acts <= 10 * length evs + 10
  /\ (RemoteTracer_doWrite σ = None ->
      r_pc σ = RDone
      /\ concat (delivered (r_trace σ)) = evs
      /\ r_log σ = []
      /\ resets (r_trace σ) = []
      /\ Forall (clean sid) (r_trace σ)
      /\ exists pre, r_trace σ = pre ++ [EGzipClose (Some sid); EFullClose (Some sid)]).
Proof.
  intros Hos Hio Hex Hprod.
  destruct (Trace_calls_facts evs) as (Happ & _ & Hlen).
  assert (appended acts = evs) as Hevs.
  { by rewrite appended_producers, Hprod. }
  pose proof (rexec_reachable_inv _ _ _ _ _ Hex) as Hinv. rewrite Hevs in Hinv.
  split.
  - pose proof (rpotential_exec _ _ _ Hex) as Hpot.
    rewrite rtotal_weight_producers, Hprod, rtotal_weight_Trace_calls in Hpot.
    rewrite length_actions, Hprod, Hlen.
    change (rpotential (new_remote ctx host io)) with 1 in Hpot. lia.
  - intros Hstuck.
    pose proof (rexec_ctx _ _ _ Hex) as Hctx. simpl in Hctx.
    assert (rhappy host sid σ) as Hh.
    { by apply (rhappy_exec host sid n acts [] (new_remote ctx host io) σ);
        [|apply new_remote_inv|apply new_remote_happy|]. }
    destruct (producer_actions_split _ _ _ Hprod) as (acts1 & acts2 & -> & _ & Hw2).
    rewrite rexec_app in Hex.
    destruct (rexec acts1 _) as [σ1|] eqn:Hex1; [|discriminate].
    cbn [rexec] in Hex.
    destruct (rstep AClose σ1) as [σ2|] eqn:Hcl; [|discriminate].
    pose proof (rexec_reachable_inv _ _ _ _ _ Hex1) as Hinv1.
    pose proof (rstep_inv _ _ _ _ Hinv1 Hcl) as Hinv2.
    pose proof (rexec_ctx _ _ _ Hex1) as Hctx1. simpl in Hctx1.
    assert (rhappy host sid σ1) as Hh1.
    { by apply (rhappy_exec host sid n acts1 [] (new_remote ctx host io) σ1);
        [|apply new_remote_inv|apply new_remote_happy|]. }
    assert (rhappy host sid σ2) as Hh2.
    { apply (rhappy_step host sid n (appended acts1) AClose σ1); try done.
      by rewrite Hctx1. }
    assert (r_ctx σ2 = ctx) as Hctx2.
    { rewrite <- Hctx1. apply (rexec_ctx [AClose]). simpl in *. by rewrite Hcl. }
    simpl in Hcl. unfold Close, Chan.close in Hcl.
    destruct (Chan.closed (ch (tracer (r_mem σ1)))) eqn:Hopen; [discriminate|].
    injection Hcl as <-.
    assert (rsealed (set_mem (set_ch (Chan.mk (Chan.len (ch (tracer (r_mem σ1)))) true)
                                     (r_mem σ1)) σ1)) as Hs2.
    { pose proof (rhappy_closed _ _ _ Hh1) as Hcl1. rewrite Hopen in Hcl1.
      unfold rsealed. simpl.
      destruct (r_pc σ1) as [| |[]|[]|[]|[]|[]|[]| |]; simpl in *; try done;
        by specialize (Hcl1 eq_refl). }
    pose proof (rsealed_writes host sid n acts2 _ _ _ Hw2 ltac:(by rewrite Hctx2)
                  Hinv2 Hh2 Hs2 Hex) as Hs.
    pose proof (rclosed_exec _ _ _ Hex eq_refl) as Hc.
    pose proof (rstuck_closed host sid n σ ltac:(by rewrite Hctx) Hh Hc Hstuck) as Hdone.
    destruct (delivered_clean sid _ (rhappy_trace _ _ _ Hh)) as [Hdel Hres].
    split; [done|]. split.
    { pose proof (rinv_sent _ _ Hinv) as Hsent. unfold inflight, rsealed in *.
      rewrite Hdone in *. rewrite Hs in Hsent. rewrite Hdel.
      by rewrite !app_nil_r in Hsent. }
    split; [by apply (rhappy_log _ _ _ Hh)|]. split; [done|].
    split; [by apply (rhappy_trace _ _ _ Hh)|]. by apply (rhappy_done _ _ _ Hh).
Qed.

End RemoteDelivery.

(** ** After [Close] *)

Section AfterClose.
Context {Event : Type} `{!Runtime Event}.
Implicit Types (m : mem Event) (a : action Event) (acts : list (action Event)).

Lemma closed_mem_panics m :
  Chan.closed (ch (tracer m)) = true ->
  Close m = Panicked m
  /\ forall evt, Trace evt m = Panicked (Trace_append evt m).
Proof.
  intros Hc. split.
  - unfold Close, Chan.close. by rewrite Hc.
  - intros evt. unfold Trace, Trace_signal.
    assert (ch (tracer (Trace_append evt m)) = ch (tracer m)) as ->.
    { unfold Trace_append. by destruct (go_append _ _ _). }
    by rewrite chan_select_closed.
Qed.

(** X17. Close is final, in a file sink and in the remote sink: once the
    channel is closed it stays closed in every execution; no later Close
    and no later send of a Trace returns, so that no execution contains
    one; a second Close panics, and a Trace panics at its send, after it
    has appended its event. *)
Theorem nothing_returns_after_Close
  (enc : Event -> option error -> file -> file * option error * option error) acts
  (σ0 σ : fsys Event) (ρ0 ρ : rsys Event) :
  (Chan.closed (chan_of σ0) = true -> exec enc acts σ0 = Some σ ->
   Chan.closed (chan_of σ) = true
   /\ Forall (fun a => a <> AClose /\ a <> ATraceSignal) acts
   /\ Close (fmem σ) = Panicked (fmem σ)
   /\ forall evt, Trace evt (fmem σ) = Panicked (Trace_append evt (fmem σ)))
  /\ (Chan.closed (ch (tracer (r_mem ρ0))) = true -> rexec acts ρ0 = Some ρ ->
      Chan.closed (ch (tracer (r_mem ρ))) = true
      /\ Forall (fun a => a <> AClose /\ a <> ATraceSignal) acts
      /\ Close (r_mem ρ) = Panicked (r_mem ρ)
      /\ forall evt, Trace evt (r_mem ρ) = Panicked (Trace_append evt (r_mem ρ))).
Proof.
  split.
  - intros Hc Hex.
    pose proof (closed_exec enc acts σ0 σ Hex Hc) as Hc'.
    split; [done|]. split; [|by apply closed_mem_panics].
    clear Hc'. revert σ0 Hc Hex.
    induction acts as [|a acts IH]; intros σ0 Hc Hex; [done|]. simpl in Hex.
    destruct (fstep enc a σ0) as [σ1|] eqn:Hstep; [|discriminate].
    constructor.
    + destruct a as [e| | |]; [done| | |done]; exfalso; simpl in Hstep.
      * unfold Trace_signal, chan_of in *.
        rewrite chan_select_closed in Hstep by done. discriminate.
      * unfold Close, Chan.close, chan_of in *. rewrite Hc in Hstep. discriminate.
    + apply (IH σ1); [|done]. by apply (closed_step enc a σ0).
  - intros Hc Hex.
    pose proof (rclosed_exec acts ρ0 ρ Hex Hc) as Hc'.
    split; [done|]. split; [|by apply closed_mem_panics].
    clear Hc'. revert ρ0 Hc Hex.
    induction acts as [|a acts IH]; intros ρ0 Hc Hex; [done|]. simpl in Hex.
    destruct (rstep a ρ0) as [ρ1|] eqn:Hstep; [|discriminate].
    constructor.
    + destruct a as [e| | |]; [done| | |done]; exfalso; simpl in Hstep.
      * unfold Trace_signal in *.
        rewrite chan_select_closed in Hstep by done. discriminate.
      * unfold Close, Chan.close in *. rewrite Hc in Hstep. discriminate.
    + apply (IH ρ1); [|done]. apply (rclosed_exec [a] ρ0); [|done].
      simpl. by rewrite Hstep.
Qed.

End AfterClose.

(** ** The further properties at work on small executions *)

Lemma connect_succeeds_after_failures_witness :
  connect (Ctx None)
          (Net 0 [Reply false 7 false; Reply false 2 false; Reply true 5 false] [] 0)
  = (Ok tt,
     Net (0 + total_wait [Reply false 7 false; Reply false 2 false] + 5) []
         ([] ++ connect_calls 0 [Reply false 7 false; Reply false 2 false]
             ++ [CConnect (0 + total_wait [Reply false 7 false; Reply false 2 false])])
         0).
Proof.
  apply (connect_succeeds_after_failures (Ctx None)
           [Reply false 7 false; Reply false 2 false] 0 (Reply true 5 false) [] [] 0).
  - repeat constructor; simpl; lia.
  - reflexivity.
  - reflexivity.
Defined.


Lemma loop_closes_the_file_when_it_returns_witness :
  exists σ : fsys nat,
    exec (json_Encode digit_marshal) one_producer_then_close
         (open_sink (truncated_file [])) = Some σ
    /\ (f_closed (w σ) = true <-> pc σ = FDone)
    /\ (ErrClosed ∉ errlog σ)
    /\ Forall (fun p => p.2 <> Some ErrClosed) (encoded σ).
Proof.
  eexists.
  lazymatch goal with
  | |- ?E = Some ?s /\ _ =>
      assert (E = Some s) as Hex by (vm_compute; reflexivity);
      split; [exact Hex|];
      exact (loop_closes_the_file_when_it_returns
               (json_frame digit_marshal) true (truncated_file [])
               one_producer_then_close s eq_refl Hex)
  end.
Defined.

Lemma file_loop_never_spins_witness :
  exists σ : fsys nat,
    exec (json_Encode digit_marshal) two_producers (open_sink (truncated_file [])) = Some σ
    /\ loop_steps two_producers <= total_weight two_producers.
Proof.
  eexists.
  lazymatch goal with
  | |- ?E = Some ?s /\ _ =>
      assert (E = Some s) as Hex by (vm_compute; reflexivity);
      split; [exact Hex|];
      exact (file_loop_never_spins (json_Encode digit_marshal) (truncated_file [])
               two_producers s Hex)
  end.
Defined.

Lemma no_wake_is_lost_witness :
  exists (σ : fsys nat) c ok,
    exec (json_Encode digit_marshal) one_trace (open_sink (truncated_file [])) = Some σ
    /\ Chan.recv (chan_of σ) = Some (c, ok)
    /\ doWrite_step (json_Encode digit_marshal) σ =
       Some (FSys (set_ch c (fmem σ)) (FSwap ok) (w σ) (errlog σ) (batches σ) (encoded σ)
                  (kept σ)).
Proof.
  eexists.
  lazymatch goal with
  | |- exists c ok, ?E = Some ?s /\ _ =>
      assert (E = Some s) as Hex by (vm_compute; reflexivity);
      destruct (no_wake_is_lost (json_Encode digit_marshal) (truncated_file [])
                  one_trace s Hex) as (c & ok & Hrecv & Hstep);
        [reflexivity|discriminate|reflexivity|];
      exists c, ok; split; [exact Hex|]; split; [exact Hrecv|exact Hstep]
  end.
Defined.

Lemma file_loop_releases_events_witness :
  exists σ : fsys nat,
    exec (json_Encode digit_marshal) bad_event_encoded (open_sink (truncated_file [])) = Some σ
    /\ match pc σ with
       | FRange _ i _ => take i (batch (fmem σ)) = replicate i zero
       | _ => Forall (fun e => e = zero) (batch (fmem σ))
       end.
Proof.
  eexists.
  lazymatch goal with
  | |- ?E = Some ?s /\ _ =>
      assert (E = Some s) as Hex by (vm_compute; reflexivity);
      split; [exact Hex|];
      exact (file_loop_releases_events (json_Encode digit_marshal) (truncated_file [])
               bad_event_encoded s Hex)
  end.
Defined.

Lemma pb_sink_writes_every_event_then_closes_witness :
  exists σ0 σ : fsys nat,
    NewPBTracer (inr []) = (Some σ0, None)
    /\ exec (pb_WriteMsg digit_pb_frame) one_producer_then_close σ0 = Some σ
    /\ length one_producer_then_close <= 6 * 3 + 4
    /\ pc σ = FDone
    /\ f_closed (w σ) = true
    /\ errlog σ = []
    /\ f_data (w σ) = [x01; x31; x01; x32; x01; x33].
Proof.
  exists (open_sink (truncated_file [])). eexists.
  split; [reflexivity|].
  lazymatch goal with
  | |- ?E = Some ?s /\ _ =>
      assert (E = Some s) as Hex by (vm_compute; reflexivity);
      split; [exact Hex|];
      destruct (pb_sink_writes_every_event_then_closes digit_pb_frame [1; 2; 3]
                  (open_sink (truncated_file [])) one_producer_then_close s)
        as [Hlen Hdone]
  end.
  - repeat constructor; by eexists.
  - reflexivity.
  - exact Hex.
  - reflexivity.
  - split; [exact Hlen|]. exact (Hdone eq_refl).
Defined.

Lemma json_sink_reads_back_every_event_witness :
  exists σ0 σ : fsys nat,
    NewJSONTracer (inr []) = (Some σ0, None)
    /\ exec (json_Encode digit_marshal) one_producer_then_close σ0 = Some σ
    /\ pc σ = FDone
    /\ f_closed (w σ) = true
    /\ errlog σ = []
    /\ ndjson_decode digit_unmarshal (f_data (w σ)) = Some [1; 2; 3].
Proof.
  exists (open_sink (truncated_file [])). eexists.
  split; [reflexivity|].
  lazymatch goal with
  | |- ?E = Some ?s /\ _ =>
      assert (E = Some s) as Hex by (vm_compute; reflexivity);
      split; [exact Hex|];
      apply (json_sink_reads_back_every_event digit_marshal digit_unmarshal [1; 2; 3]
               (open_sink (truncated_file [])) one_producer_then_close s)
  end.
  - repeat constructor; eexists; (split; [reflexivity|]); (split; [|reflexivity]);
      intros Hin; repeat (apply elem_of_cons in Hin as [Hin|Hin]; [discriminate|]);
      by apply elem_of_nil in Hin.
  - reflexivity.
  - exact Hex.
  - reflexivity.
  - reflexivity.
Defined.

Lemma remote_loop_never_spins_witness :
  exists σ : rsys nat,
    rexec write_fails (new_remote (Ctx None) good_host [Some ErrIO]) = Some σ
    /\ loop_steps write_fails <= 1 + rtotal_weight write_fails.
Proof.
  eexists.
  lazymatch goal with
  | |- ?E = Some ?s /\ _ =>
      assert (E = Some s) as Hex by (vm_compute; reflexivity);
      split; [exact Hex|];
      exact (remote_loop_never_spins (Ctx None) good_host [Some ErrIO] write_fails s Hex)
  end.
Defined.

Lemma no_wake_is_lost_remote_witness :
  exists (σ : rsys nat) c ok,
    rexec (AWrite :: one_trace) (new_remote (Ctx None) good_host []) = Some σ
    /\ Chan.recv (ch (tracer (r_mem σ))) = Some (c, ok)
    /\ RemoteTracer_doWrite σ = Some (set_pc (RClear ok) (set_mem (set_ch c (r_mem σ)) σ)).
Proof.
  eexists.
  lazymatch goal with
  | |- exists c ok, ?E = Some ?s /\ _ =>
      assert (E = Some s) as Hex by (vm_compute; reflexivity);
      destruct (no_wake_is_lost_remote (Ctx None) good_host [] (AWrite :: one_trace) s Hex)
        as (c & ok & Hrecv & Hstep);
        [reflexivity|discriminate|reflexivity|];
      exists c, ok; split; [exact Hex|]; split; [exact Hrecv|exact Hstep]
  end.
Defined.

Lemma remote_loop_releases_events_witness :
  exists σ : rsys nat,
    rexec second_wake_finds_nothing (new_remote (Ctx None) good_host []) = Some σ
    /\ r_pc σ = RSwap true
    /\ length (batch (r_mem σ)) = 2
    /\ Forall (fun e => e = zero) (batch (r_mem σ)).
Proof.
  eexists.
  lazymatch goal with
  | |- ?E = Some ?s /\ _ =>
      assert (E = Some s) as Hex by (vm_compute; reflexivity);
      split; [exact Hex|]; split; [reflexivity|]; split; [reflexivity|];
      exact (remote_loop_releases_events (Ctx None) good_host [] second_wake_finds_nothing
               s true Hex (or_intror eq_refl))
  end.
Defined.

Lemma returned_remote_loop_only_buffers_witness :
  exists σ σ' : rsys nat,
    rexec remote_trace_then_close (new_remote (Ctx None) good_host []) = Some σ
    /\ rexec [ATraceAppend 2; AWrite] σ = None
    /\ rexec [ATraceAppend 2; ATraceAppend 3] σ = Some σ'
    /\ r_pc σ' = RDone
    /\ r_trace σ' = r_trace σ
    /\ r_log σ' = r_log σ
    /\ r_net σ' = r_net σ
    /\ pending (r_mem σ') = pending (r_mem σ) ++ [2; 3].
Proof.
  eexists.
  lazymatch goal with
  | |- exists σ', ?E = Some ?s /\ _ =>
      assert (E = Some s) as Hex by (vm_compute; reflexivity)
  end.
  eexists. split; [exact Hex|]. split; [reflexivity|].
  lazymatch goal with
  | |- ?E = Some ?s /\ _ =>
      assert (E = Some s) as Hex' by (vm_compute; reflexivity);
      split; [exact Hex'|];
      exact (returned_remote_loop_only_buffers (Ctx None) good_host []
               remote_trace_then_close _ [ATraceAppend 2; ATraceAppend 3] s
               Hex eq_refl Hex')
  end.
Defined.

Lemma failed_first_connect_sends_nothing_witness :
  exists (σ : rsys nat) e n,
    openStream (Ctx (Some 0%Z)) dead_host = (Err e, n)
    /\ rexec (AWrite :: one_trace) (new_remote (Ctx (Some 0%Z)) dead_host []) = Some σ
    /\ r_trace σ = []
    /\ pending (r_mem σ) = [1]
    /\ ((r_pc σ = RInit /\ r_log σ = [] /\ r_net σ = dead_host)
        \/ (r_pc σ = RDone /\ r_log σ = [e] /\ r_net σ = n)).
Proof.
  eexists. exists ErrHost. eexists.
  lazymatch goal with
  | |- ?O = (Err ErrHost, ?n) /\ ?E = Some ?s /\ _ =>
      assert (O = (Err ErrHost, n)) as Hos by (vm_compute; reflexivity);
      assert (E = Some s) as Hex by (vm_compute; reflexivity);
      split; [exact Hos|]; split; [exact Hex|];
      exact (failed_first_connect_sends_nothing (Ctx (Some 0%Z)) dead_host [] ErrHost _
               (AWrite :: one_trace) s Hos Hex)
  end.
Defined.

Lemma reset_stream_is_never_used_again_witness :
  exists σ : rsys nat,
    rexec write_fails_then_reconnects (new_remote (Ctx None) good_host [Some ErrIO]) = Some σ
    /\ r_trace σ = [EGzipNew 0; ESwap [1]; EWriteMsg (Some 0) [1] (Some ErrIO);
                    EReset (Some 0); EGzipReset 1]
    /\ effect_stream (EGzipReset (Event := nat) 1) <> Some 0.
Proof.
  eexists.
  lazymatch goal with
  | |- ?E = Some ?s /\ _ =>
      assert (E = Some s) as Hex by (vm_compute; reflexivity);
      split; [exact Hex|]; split; [reflexivity|];
      apply (reset_stream_is_never_used_again (Ctx None) good_host [Some ErrIO]
               write_fails_then_reconnects s Hex
               [EGzipNew 0; ESwap [1]; EWriteMsg (Some 0) [1] (Some ErrIO); EReset (Some 0)]
               (EGzipReset 1) [] 0 eq_refl)
  end.
  do 3 apply list_elem_of_further. apply list_elem_of_here.
Defined.

Lemma remote_sink_sends_everything_on_close_witness :
  exists (σ : rsys nat) n,
    openStream (Ctx None) good_host = (Ok 0, n)
    /\ rexec remote_trace_then_close (new_remote (Ctx None) good_host [None; None]) = Some σ
    /\ length remote_trace_then_close <= 10 * 1 + 10
    /\ r_pc σ = RDone
    /\ concat (delivered (r_trace σ)) = [1]
    /\ r_log σ = []
    /\ resets (r_trace σ) = []
    /\ Forall (clean 0) (r_trace σ)
    /\ exists pre, r_trace σ = pre ++ [EGzipClose (Some 0); EFullClose (Some 0)].
Proof.
  eexists. eexists.
  lazymatch goal with
  | |- ?O = (Ok 0, ?n) /\ ?E = Some ?s /\ _ =>
      assert (O = (Ok 0, n)) as Hos by (vm_compute; reflexivity);
      assert (E = Some s) as Hex by (vm_compute; reflexivity);
      split; [exact Hos|]; split; [exact Hex|];
      destruct (remote_sink_sends_everything_on_close (Ctx None) good_host [None; None] 0 _
                  [1] remote_trace_then_close s Hos) as [Hlen Hdone]
  end.
  - by repeat constructor.
  - exact Hex.
  - reflexivity.
  - split; [exact Hlen|]. exact (Hdone eq_refl).
Defined.

Lemma errors_only_when_cancelled_witness :
  exists n,
    openStream (Ctx (Some 0%Z)) dead_host = (Err ErrHost, n)
    /\ cancelled (Ctx (Some 0%Z)) (now n) = true.
Proof.
  eexists.
  lazymatch goal with
  | |- ?O = (Err ErrHost, ?n) /\ _ =>
      assert (O = (Err ErrHost, n)) as Hos by (vm_compute; reflexivity);
      split; [exact Hos|];
      exact (proj2 (errors_only_when_cancelled (Ctx (Some 0%Z)) dead_host ErrHost _) Hos)
  end.
Defined.

Lemma nothing_returns_after_Close_witness :
  exists (σ0 σ : fsys nat),
    exec (json_Encode digit_marshal) [AClose] (open_sink (truncated_file [])) = Some σ0
    /\ exec (json_Encode digit_marshal) [ATraceAppend 1; AWrite; AWrite] σ0 = Some σ
    /\ Chan.closed (chan_of σ) = true
    /\ Close (fmem σ) = Panicked (fmem σ)
    /\ Trace 2 (fmem σ) = Panicked (Trace_append 2 (fmem σ))
    /\ exec (json_Encode digit_marshal) [ATraceAppend 1; ATraceSignal] σ0 = None.
Proof.
  eexists. eexists. split; [vm_compute; reflexivity|].
  lazymatch goal with
  | |- exec ?enc ?l ?s0 = Some ?s /\ _ =>
      assert (exec enc l s0 = Some s) as Hex by (vm_compute; reflexivity);
      split; [exact Hex|];
      destruct (proj1 (nothing_returns_after_Close enc l s0 s
                         (new_remote (Ctx None) good_host [])
                         (new_remote (Ctx None) good_host []))
                  eq_refl Hex) as (Hc & _ & Hclose & Htrace)
  end.
  split; [exact Hc|]. split; [exact Hclose|]. split; [exact (Htrace 2)|]. reflexivity.
Defined.

Lemma loop_calls_the_encoder_for_every_event_witness :
  exists σ σ' : fsys nat,
    exec (json_Encode digit_marshal) bad_event_in_batch (open_sink (truncated_file [])) = Some σ
    /\ exec (json_Encode digit_marshal) (replicate 3 AWrite) σ = Some σ'
    /\ (encoded σ').*1 = [1; 7; 3]
    /\ errlog σ' = [ErrMarshal]
    /\ f_data (w σ') = [x31; x0a; x33; x0a]
    /\ JSONTracer_doWrite digit_marshal σ' =
       Some (FSys (fmem σ') FRecv (w σ') (errlog σ') (batches σ') (encoded σ') (kept σ')).
Proof.
  eexists.
  lazymatch goal with
  | |- exists σ', ?E = Some ?s /\ _ =>
      assert (E = Some s) as Hex by (vm_compute; reflexivity);
      destruct (loop_calls_the_encoder_for_every_event
                  (json_Encode digit_marshal) (truncated_file []) bad_event_in_batch
                  s true 3 Hex eq_refl)
        as (σ' & results & Hrun & _ & _ & _ & _ & Hleave)
  end.
  exists σ'. split; [exact Hex|]. split; [exact Hrun|].
  assert (Hrun' := Hrun). vm_compute in Hrun'. injection Hrun' as <-.
  split; [vm_compute; reflexivity|]. split; [vm_compute; reflexivity|].
  split; [vm_compute; reflexivity|]. exact Hleave.
Defined.
